(** * Terrain attributes derived from a DEM: a shallow embedding

    The notebook that derives terrain attributes from a Digital Elevation
    Model defines five pieces of code with algorithmic content:

    - [fill_depressions]  (depression filling of the elevation raster),
    - the [twi] expression (Topographic Wetness Index),
    - [calcDTW]           (Depth-to-Water index),
    - [create_kernel] and [terrain_indices] (neighbourhood kernels and the
      multi-scale terrain indices),
    - [array_to_dataarray] (the indices as labelled arrays, for writing).

    Rasters are two-dimensional arrays of floating-point numbers.  Code that
    only compares and selects values ([fill_depressions]) is modelled on the
    IEEE-754 values of the Standard Library ([spec_float]): comparisons,
    minima and maxima are exact on them, and the model computes.  The kernel
    builder works on an array of zeros and ones and is modelled on integers,
    with the buffer and the views the array library keeps; it computes too.
    Code that calls elementary functions (logarithm, tangent, square root,
    weighted means) is modelled on the reals extended with the IEEE special
    values ([xreal]): the result of an operation on finite values is the
    exact real result, so rounding and overflow of finite values are left
    out, while the special values (infinities, not-a-number) behave as IEEE
    arithmetic prescribes.

    Functions of libraries outside the notebook are either modelled from
    their documentation ([np.maximum], [fmin], [scipy.ndimage.label],
    [distance_transform_edt], [ndimage.convolve], [np.gradient],
    [np.fill_diagonal], [np.fliplr], [xr.DataArray] and its [rename]) or
    taken as parameters (the flow
    router [rd.FlowAccumulation], the rounding to single precision). *)

From Stdlib Require Import String Ascii ZArith List Bool Lia.
From Stdlib Require Import SpecFloat.
From Stdlib Require Import Reals Lra.
Import ListNotations.

Set Implicit Arguments.

(** ** Two-dimensional arrays *)

Definition grid (A : Type) : Type := list (list A).

Definition cell {A : Type} (g : grid A) (i j : nat) : option A :=
  match nth_error g i with
  | Some row => nth_error row j
  | None => None
  end.

Definition gmap {A B : Type} (f : A -> B) (g : grid A) : grid B :=
  map (map f) g.

Fixpoint zip_with {A B C : Type} (f : A -> B -> C) (l : list A) (m : list B)
  : list C :=
  match l, m with
  | x :: l', y :: m' => f x y :: zip_with f l' m'
  | _, _ => []
  end.

(** Element-wise binary operation on two arrays of one shape. *)
Definition gmap2 {A B C : Type} (f : A -> B -> C) (g : grid A) (h : grid B)
  : grid C :=
  zip_with (zip_with f) g h.

Definition height {A : Type} (g : grid A) : nat := List.length g.

Definition width {A : Type} (g : grid A) : nat :=
  match g with
  | [] => 0
  | row :: _ => List.length row
  end.

(** Row-major list of the index pairs of an [h] by [w] array. *)
Definition indices (h w : nat) : list (nat * nat) :=
  flat_map (fun i => map (fun j => (i, j)) (seq 0 w)) (seq 0 h).

Fixpoint set_nth {A : Type} (l : list A) (n : nat) (v : A) : list A :=
  match l, n with
  | [], _ => []
  | _ :: l', O => v :: l'
  | x :: l', S n' => x :: set_nth l' n' v
  end.

Definition set_cell {A : Type} (g : grid A) (i j : nat) (v : A) : grid A :=
  match nth_error g i with
  | Some row => set_nth g i (set_nth row j v)
  | None => g
  end.

Fixpoint mapi_from {A B : Type} (f : nat -> A -> B) (n : nat) (l : list A)
  : list B :=
  match l with
  | [] => []
  | x :: l' => f n x :: mapi_from f (S n) l'
  end.

Definition mapi {A B : Type} (f : nat -> A -> B) (l : list A) : list B :=
  mapi_from f 0 l.

(** Map over an array with the row and column index of each cell. *)
Definition gmapi {A B : Type} (f : nat -> nat -> A -> B) (g : grid A) : grid B :=
  mapi (fun i row => mapi (fun j x => f i j x) row) g.

(** The cells of an array with their indices, in row-major order. *)
Definition enumerate {A : Type} (g : grid A) : list (nat * nat * A) :=
  concat (gmapi (fun i j x => (i, j, x)) g).

(** The array of [ny] rows and [nx] columns whose cell [(a, b)] is [g a b]. *)
Definition tabulate {A : Type} (ny nx : nat) (g : nat -> nat -> A) : grid A :=
  map (fun a => map (fun b => g a b) (seq 0 nx)) (seq 0 ny).

(** [shaped h w g]: the array [g] has [h] rows and [w] columns, that is, a
    cell exactly at the row indices below [h] and the column indices below
    [w]. *)
Definition shaped {A : Type} (h w : nat) (g : grid A) : Prop :=
  forall i j, (exists x, cell g i j = Some x) <-> (i < h)%nat /\ (j < w)%nat.

(** ** Exceptions *)

Inductive exn : Type :=
| ValueError (msg : string)
| IndexError (msg : string).

Inductive result (A : Type) : Type :=
| Return (a : A)
| Raise (e : exn).

Arguments Return {A} a.
Arguments Raise {A} e.

Definition bind {A B : Type} (r : result A) (k : A -> result B) : result B :=
  match r with
  | Return a => k a
  | Raise e => Raise e
  end.

Notation "x <- r ;; k" := (bind r (fun x => k))
  (at level 61, r at next level, right associativity).

(** ** Depression filling *)

Module Fill.

(** Elevations are IEEE-754 values; a cell without data holds not-a-number
    (the raster is masked with [where] before it is filled). *)
Definition float : Type := spec_float.

Definition isnan (x : float) : bool :=
  match x with
  | S754_nan => true
  | _ => false
  end.


(** [np.maximum(x1, x2)]: the larger value, a not-a-number operand wins. *)
Definition maximum (x1 x2 : float) : float :=
  if SFleb x2 x1 || isnan x1 then x1 else x2.

(** [fmin]: the smaller value, a not-a-number operand is ignored.  It is the
    reduction behind the raster's [min()], which skips cells without data. *)
Definition fmin (x1 x2 : float) : float :=
  if SFleb x1 x2 || isnan x2 then x1 else x2.

(** [filled_dem.min()]: the reduction runs over the cells in row-major order
    from the first one.  The array library refuses to reduce an array of no
    cell; a raster has at least one, and the model answers not-a-number on
    the empty list. *)
Definition DataArray_min (a : grid float) : float :=
  match concat a with
  | [] => S754_nan
  | x :: rest => fold_left fmin rest x
  end.

(** [np.maximum(dem, marker)] with a scalar second operand. *)
Definition np_maximum_scalar (dem : grid float) (marker : float) : grid float :=
  gmap (fun x => maximum x marker) dem.

(** [np.maximum(dem, filled_dem)] with two rasters. *)
Definition np_maximum (dem filled_dem : grid float) : grid float :=
  gmap2 maximum dem filled_dem.

(** [dem > filled_dem], cell by cell. *)
Definition np_greater (dem filled_dem : grid float) : grid bool :=
  gmap2 (fun x y => SFltb y x) dem filled_dem.

(** *** Connected-component labelling

    [scipy.ndimage.label] with its default structuring element: two cells
    of the mask belong to one feature when they share an edge.  Features are
    numbered from 1 in the order in which the row-major scan meets them. *)

Definition neighbours4 (i j : nat) : list (nat * nat) :=
  (match i with O => [] | S i' => [(i', j)] end)
  ++ [(S i, j)]
  ++ (match j with O => [] | S j' => [(i, j')] end)
  ++ [(i, S j)].

Definition mask_at (m : grid bool) (i j : nat) : bool :=
  match cell m i j with
  | Some b => b
  | None => false
  end.

Definition label_at (lab : grid nat) (i j : nat) : nat :=
  match cell lab i j with
  | Some n => n
  | None => 0
  end.

Fixpoint flood (fuel : nat) (m : grid bool) (lab : grid nat) (n : nat)
  (work : list (nat * nat)) : grid nat :=
  match fuel with
  | O => lab
  | S fuel' =>
      match work with
      | [] => lab
      | (i, j) :: rest =>
          if mask_at m i j && (label_at lab i j =? 0)%nat
          then flood fuel' m (set_cell lab i j n) n (neighbours4 i j ++ rest)
          else flood fuel' m lab n rest
      end
  end.

Definition label_step (m : grid bool) (st : grid nat * nat) (p : nat * nat)
  : grid nat * nat :=
  let '(lab, n) := st in
  let '(i, j) := p in
  if mask_at m i j && (label_at lab i j =? 0)%nat
  then (flood (4 * (height m * width m) + 1) m lab (S n) [(i, j)], S n)
  else (lab, n).

(** [label(mask)]: the labelled array and the number of features. *)
Definition label (m : grid bool) : grid nat * nat :=
  fold_left (label_step m) (indices (height m) (width m))
            (gmap (fun _ => 0%nat) m, 0%nat).

(** *** The filling loop

    [while True] is a loop on a step budget: [None] when the budget runs out
    before the loop breaks. *)

Fixpoint fill_loop (fuel : nat) (dem filled_dem : grid float)
  : option (grid float) :=
  match fuel with
  | O => None
  | S fuel' =>
      let marker := DataArray_min filled_dem in
      let filled_dem := np_maximum_scalar dem marker in
      let '(_, num_features) := label (np_greater dem filled_dem) in
      if (num_features =? 0)%nat then Some filled_dem
      else fill_loop fuel' (np_maximum dem filled_dem) filled_dem
  end.

Definition fill_depressions (fuel : nat) (dem : grid float)
  : option (grid float) :=
  let filled_dem := dem (* dem.copy() *) in
  fill_loop fuel dem filled_dem.

(** *** Drainage paths *)


Definition no_nodata (dem : grid float) : bool :=
  forallb (forallb (fun x => negb (isnan x))) dem.

Definition adjacent (p q : nat * nat) : Prop :=
  p <> q /\
  (fst p <= S (fst q) /\ fst q <= S (fst p))%nat /\
  (snd p <= S (snd q) /\ snd q <= S (snd p))%nat.

Definition on_boundary {A : Type} (g : grid A) (p : nat * nat) : Prop :=
  fst p = O \/ snd p = O \/ S (fst p) = height g \/ S (snd p) = width g.

Definition interior {A : Type} (g : grid A) (p : nat * nat) : Prop :=
  (0 < fst p /\ S (fst p) < height g)%nat /\
  (0 < snd p /\ S (snd p) < width g)%nat.

(** [drains g p]: from cell [p] a path of adjacent cells, along which the
    elevation never increases, reaches a cell of the grid boundary. *)
Inductive drains (g : grid float) : nat * nat -> Prop :=
| drains_boundary p x :
    cell g (fst p) (snd p) = Some x ->
    on_boundary g p ->
    drains g p
| drains_step p q x y :
    cell g (fst p) (snd p) = Some x ->
    cell g (fst q) (snd q) = Some y ->
    adjacent p q ->
    SFleb y x = true ->
    drains g q ->
    drains g p.

Definition sink_free (g : grid float) : Prop :=
  forall p, interior g p -> drains g p.

(** Binary64 values used in examples. *)
Definition f64_1 : float := S754_finite false 4503599627370496 (-52).
Definition f64_5 : float := S754_finite false 5629499534213120 (-50).

(** A pit: a 3 by 3 raster of elevation 5 around a centre of elevation 1. *)
Definition pit : grid float :=
  [ [f64_5; f64_5; f64_5];
    [f64_5; f64_1; f64_5];
    [f64_5; f64_5; f64_5] ].

End Fill.

(** ** Extended reals: the values of arithmetic code *)

Module Num.

Local Open Scope R_scope.

(** A floating-point value read as the real it denotes, or as one of the
    IEEE special values. *)
Inductive xreal : Type :=
| Fin (r : R)
| PInf
| NInf
| NaN.

Definition Rcmp (a b : R) : comparison :=
  match total_order_T a b with
  | inleft (left _) => Lt
  | inleft (right _) => Eq
  | inright _ => Gt
  end.

Definition xopp (x : xreal) : xreal :=
  match x with
  | Fin r => Fin (- r)
  | PInf => NInf
  | NInf => PInf
  | NaN => NaN
  end.

Definition xadd (x y : xreal) : xreal :=
  match x, y with
  | NaN, _ | _, NaN => NaN
  | Fin a, Fin b => Fin (a + b)
  | PInf, NInf | NInf, PInf => NaN
  | PInf, _ | _, PInf => PInf
  | NInf, _ | _, NInf => NInf
  end.

Definition xsub (x y : xreal) : xreal := xadd x (xopp y).

(** An infinity multiplied by the finite value [a]. *)
Definition scale_inf (a : R) (inf : xreal) : xreal :=
  match Rcmp a 0 with
  | Gt => inf
  | Lt => xopp inf
  | Eq => NaN
  end.

Definition xmul (x y : xreal) : xreal :=
  match x, y with
  | NaN, _ | _, NaN => NaN
  | Fin a, Fin b => Fin (a * b)
  | Fin a, inf => scale_inf a inf
  | inf, Fin b => scale_inf b inf
  | PInf, PInf | NInf, NInf => PInf
  | PInf, NInf | NInf, PInf => NInf
  end.

Definition xdiv (x y : xreal) : xreal :=
  match x, y with
  | NaN, _ | _, NaN => NaN
  | Fin a, Fin b =>
      match Rcmp b 0 with
      | Eq => match Rcmp a 0 with
              | Gt => PInf
              | Lt => NInf
              | Eq => NaN
              end
      | _ => Fin (a / b)
      end
  | Fin _, _ => Fin 0
  | inf, Fin b => match Rcmp b 0 with
                  | Lt => xopp inf
                  | _ => inf
                  end
  | _, _ => NaN
  end.

(** [np.tan] *)
Definition xtan (x : xreal) : xreal :=
  match x with
  | Fin r => Fin (tan r)
  | _ => NaN
  end.

(** [np.log]: minus infinity at zero, not-a-number below. *)
Definition xlog (x : xreal) : xreal :=
  match x with
  | Fin r => match Rcmp r 0 with
             | Gt => Fin (ln r)
             | Eq => NInf
             | Lt => NaN
             end
  | PInf => PInf
  | _ => NaN
  end.

Definition xcos (x : xreal) : xreal :=
  match x with
  | Fin r => Fin (cos r)
  | _ => NaN
  end.

Definition xsin (x : xreal) : xreal :=
  match x with
  | Fin r => Fin (sin r)
  | _ => NaN
  end.

(** [np.arctan] *)
Definition xarctan (x : xreal) : xreal :=
  match x with
  | Fin r => Fin (atan r)
  | PInf => Fin (PI / 2)
  | NInf => Fin (- (PI / 2))
  | NaN => NaN
  end.

(** [np.hypot]: an infinite operand gives infinity, even beside
    not-a-number. *)
Definition xhypot (x y : xreal) : xreal :=
  match x, y with
  | PInf, _ | NInf, _ | _, PInf | _, NInf => PInf
  | NaN, _ | _, NaN => NaN
  | Fin a, Fin b => Fin (sqrt (a * a + b * b))
  end.

(** [np.arctan2(y, x)] *)
Definition xarctan2 (y x : xreal) : xreal :=
  match y, x with
  | NaN, _ | _, NaN => NaN
  | Fin b, Fin a =>
      match Rcmp a 0, Rcmp b 0 with
      | Gt, _ => Fin (atan (b / a))
      | Lt, Lt => Fin (atan (b / a) - PI)
      | Lt, _ => Fin (atan (b / a) + PI)
      | Eq, Gt => Fin (PI / 2)
      | Eq, Lt => Fin (- (PI / 2))
      | Eq, Eq => Fin 0
      end
  | Fin b, PInf => Fin 0
  | Fin b, NInf => match Rcmp b 0 with
                   | Lt => Fin (- PI)
                   | _ => Fin PI
                   end
  | PInf, Fin _ => Fin (PI / 2)
  | NInf, Fin _ => Fin (- (PI / 2))
  | PInf, PInf => Fin (PI / 4)
  | NInf, PInf => Fin (- (PI / 4))
  | PInf, NInf => Fin (3 * PI / 4)
  | NInf, NInf => Fin (- (3 * PI / 4))
  end.

(** [np.degrees] *)
Definition xdegrees (x : xreal) : xreal := xmul x (Fin (180 / PI)).

(** Comparisons: false on not-a-number. *)
Definition xltb (x y : xreal) : bool :=
  match x, y with
  | NaN, _ | _, NaN => false
  | Fin a, Fin b => match Rcmp a b with Lt => true | _ => false end
  | NInf, NInf | PInf, _ | _, NInf => false
  | _, _ => true
  end.

Definition xleb (x y : xreal) : bool :=
  match x, y with
  | NaN, _ | _, NaN => false
  | Fin a, Fin b => match Rcmp a b with Gt => false | _ => true end
  | NInf, _ | _, PInf => true
  | _, _ => false
  end.

Definition xgeb (x y : xreal) : bool := xleb y x.

End Num.

(** ** Topographic Wetness Index *)

Module TWI.
Import Num.
Local Open Scope R_scope.

Section Cast.

(** Rounding of a real to the nearest single-precision value. *)
Variable round32 : R -> R.

(** [.astype(np.float32)] *)
Definition astype_float32 (x : xreal) : xreal :=
  match x with
  | Fin r => Fin (round32 r)
  | other => other
  end.

(** [np.log(accum_d8 / (np.tan(slope) + 0.01))], one whole-array operation
    after the other. *)
Definition twi_float64 (accum_d8 slope : grid xreal) : grid xreal :=
  let tan_slope := gmap xtan slope in
  let denominator := gmap (fun t => xadd t (Fin 0.01)) tan_slope in
  let ratio := gmap2 xdiv accum_d8 denominator in
  gmap xlog ratio.

(** [twi = np.log(...).astype(np.float32)] *)
Definition twi (accum_d8 slope : grid xreal) : grid xreal :=
  gmap astype_float32 (twi_float64 accum_d8 slope).

(** The specification's reading of one cell: [ln(A / (tan(S) + eps))] with
    [eps = 0.01], in single precision. *)
Definition epsilon : R := 0.01.

Definition twi_spec (A S : xreal) : xreal :=
  astype_float32 (xlog (xdiv A (xadd (xtan S) (Fin epsilon)))).

End Cast.

End TWI.

(** ** Depth to Water *)

Module DTW.
Import Num.
Local Open Scope R_scope.

(** [resolution = (-30, 30)], the notebook's global cell size in metres. *)
Definition resolution : Z * Z := ((-30)%Z, 30%Z).

(** Squared Euclidean distance between two cells, in cell units. *)
Definition sqdist (p q : nat * nat) : Z :=
  let di := (Z.of_nat (fst p) - Z.of_nat (fst q))%Z in
  let dj := (Z.of_nat (snd p) - Z.of_nat (snd q))%Z in
  (di * di + dj * dj)%Z.

(** The cells of a boolean array that hold [False]. *)
Definition background (input : grid bool) : list (nat * nat) :=
  map (fun c => fst c) (filter (fun c => negb (snd c)) (enumerate input)).

Section External.

(** [rd.FlowAccumulation(rd.rdarray(filled_dem, no_data=-9999), method='D8')]:
    the flow router is a library outside the notebook. *)
Variable FlowAccumulation : grid Fill.float -> grid xreal.

(** What the distance transform answers at a cell when its input has no
    background cell at all; its documentation leaves the case open. *)
Variable edt_no_background : nat -> nat -> R.

(** [distance_transform_edt(input)]: at every [True] cell the Euclidean
    distance to the nearest [False] cell, and 0 at the [False] cells. *)
Definition distance_transform_edt (input : grid bool) : grid xreal :=
  let bg := background input in
  gmapi (fun i j (b : bool) =>
           if b then
             match bg with
             | [] => Fin (edt_no_background i j)
             | q :: qs =>
                 Fin (sqrt (IZR (fold_left Z.min (map (sqdist (i, j)) qs)
                                           (sqdist (i, j) q))))
             end
           else Fin 0)
        input.

(** The threshold of step 1. *)
Definition threshold (fia : R) : R :=
  fia * 10000 / IZR (Z.abs (fst resolution) * Z.abs (snd resolution)).

Definition calcDTW (fia : R) (filled_dem : grid Fill.float)
  (slope : grid xreal) : result (grid xreal) :=
  (* Step 1 *)
  let t := threshold fia in
  (* Step 2 *)
  let accum_d8 := FlowAccumulation filled_dem in
  let flow_lines := gmap (fun a => xgeb a (Fin t)) accum_d8 in
  (* Step 3 *)
  let cost_distance := distance_transform_edt (gmap negb flow_lines) in
  (* Step 4 *)
  let DTW := gmap2 xmul cost_distance (gmap (fun s => xdiv s (Fin 100)) slope) in
  Return DTW.

End External.

(** A percent slope: a finite, non-negative number. *)
Definition percent_slope (s : xreal) : Prop :=
  match s with
  | Fin r => 0 <= r
  | _ => False
  end.

(** [d] is the Euclidean distance from cell [p] to its nearest channel
    cell, the channel cells being those of [accum] that reach [t]. *)
Definition channel (accum : grid xreal) (t : R) (q : nat * nat) : Prop :=
  exists a, cell accum (fst q) (snd q) = Some a /\ xgeb a (Fin t) = true.

Definition nearest_channel_distance (accum : grid xreal) (t : R)
  (p : nat * nat) (d : R) : Prop :=
  (exists q, channel accum t q /\ d = sqrt (IZR (sqdist p q))) /\
  (forall q, channel accum t q -> d <= sqrt (IZR (sqdist p q))).

End DTW.

(** ** Neighbourhood kernels *)

Module Kernel.

Local Open Scope string_scope.
Local Open Scope Z_scope.

(** The kernel is an array in memory: a buffer of cells and views on it.  A
    view addresses the buffer through an offset and one stride per axis, so
    that writing through a view ([np.fliplr(kernel)]) writes the kernel. *)
Definition buffer : Type := list Z.

Record view : Type := mkview {
  rows : Z;
  cols : Z;
  offset : Z;
  rstride : Z;
  cstride : Z
}.

Definition addr (v : view) (r c : Z) : Z :=
  offset v + r * rstride v + c * cstride v.

Definition load (b : buffer) (a : Z) : Z := nth (Z.to_nat a) b 0.

Definition store (b : buffer) (a : Z) (x : Z) : buffer :=
  set_nth b (Z.to_nat a) x.

(** [range(n)] *)
Definition range (n : Z) : list Z := map Z.of_nat (seq 0 (Z.to_nat n)).

(** [np.zeros((ky, kx))]: a fresh buffer and the row-major view of it. *)
Definition np_zeros (ky kx : Z) : buffer * view :=
  (repeat 0 (Z.to_nat (ky * kx)), mkview ky kx 0 kx 1).

(** [np.fliplr(a)]: the same cells, each row read from its last column. *)
Definition fliplr (v : view) : view :=
  mkview (rows v) (cols v) (offset v + (cols v - 1) * cstride v)
         (rstride v) (- cstride v).

(** Assignment of [x] to the listed cells of a view. *)
Definition assign (v : view) (targets : list (Z * Z)) (x : Z) (b : buffer)
  : buffer :=
  fold_left (fun b rc => store b (addr v (fst rc) (snd rc)) x) targets b.

Definition all_cells (nr nc : Z) : list (Z * Z) :=
  flat_map (fun r => map (fun c => (r, c)) (range nc)) (range nr).

Definition row_cells (v : view) (r : Z) : list (Z * Z) :=
  map (fun c => (r, c)) (range (cols v)).

Definition col_cells (v : view) (c : Z) : list (Z * Z) :=
  map (fun r => (r, c)) (range (rows v)).

(** [np.fill_diagonal(a, val)] on a two-dimensional [a]:
    [a.flat[:end:step] = val] with [step = a.shape[1] + 1] and
    [end = a.shape[1] * a.shape[1]]. *)
Definition fill_diagonal (v : view) (x : Z) (b : buffer) : buffer :=
  let step := cols v + 1 in
  let stop := Z.min (cols v * cols v) (rows v * cols v) in
  let count := (stop + step - 1) / step in
  let flat := map (fun n => n * step) (range count) in
  assign v (map (fun k => (k / cols v, k mod cols v)) flat) x b.

(** The cells of the boolean mask [x**2 + y**2 <= bound] (or [<] when
    [strict]) built from [np.ogrid[-jy:jy+1, -jx:jx+1]]. *)
Definition disc_cells (jy jx bound : Z) (strict : bool) : list (Z * Z) :=
  filter (fun rc =>
            let y := fst rc - jy in
            let x := snd rc - jx in
            if strict then x * x + y * y <? bound else x * x + y * y <=? bound)
         (all_cells (2 * jy + 1) (2 * jx + 1)).

(** A boolean mask indexes an array of its own shape only. *)
Definition mask_fits (v : view) (jy jx : Z) : bool :=
  (2 * jy + 1 =? rows v) && (2 * jx + 1 =? cols v).

Definition tolist (b : buffer) (v : view) : grid Z :=
  map (fun r => map (fun c => load b (addr v r c)) (range (cols v)))
      (range (rows v)).

(** The library's message goes on with the two sizes that differ. *)
Definition bad_mask : exn :=
  IndexError "boolean index did not match indexed array".

Definition bad_row : exn :=
  IndexError "index 0 is out of bounds for axis 0 with size 0".

Definition bad_column : exn :=
  IndexError "index 0 is out of bounds for axis 1 with size 0".

Definition create_kernel (w : Z * Z) (method : string) : result (grid Z) :=
  let '(kx, ky) := w in
  if (kx <? 0) || (ky <? 0)
  then Raise (ValueError "negative dimensions are not allowed")
  else
    let '(b, kernel) := np_zeros ky kx in
    let jy := ky / 2 in
    let jx := kx / 2 in  (* Center of the kernel *)
    b <- (if String.eqb method "queen" then
            Return (assign kernel (all_cells ky kx) 1 b)
          else if String.eqb method "rook" then
            if ky =? 0 then Raise bad_row
            else
              let b := assign kernel (row_cells kernel jy) 1 b in (* Horizontal *)
              if kx =? 0 then Raise bad_column
              else Return (assign kernel (col_cells kernel jx) 1 b) (* Vertical *)
          else if String.eqb method "bishop" then
            let b := fill_diagonal kernel 1 b in
            Return (fill_diagonal (fliplr kernel) 1 b)
          else if String.eqb method "circle" then
            if mask_fits kernel jy jx then
              let mask := disc_cells jy jx ((kx / 2) * (kx / 2)) false in
              Return (assign kernel mask 1 b)
            else Raise bad_mask
          else if String.eqb method "annulus" then
            if mask_fits kernel jy jx then
              let outer_mask := disc_cells jy jx ((kx / 2) * (kx / 2)) false in
              let inner_mask :=
                disc_cells jy jx ((kx / 2 - 1) * (kx / 2 - 1)) true in
              let b := assign kernel outer_mask 1 b in
              Return (assign kernel inner_mask 0 b)
            else Raise bad_mask
          else Return b) ;;
    Return (tolist b kernel).

(** The cells of a [ky] by [kx] window. *)
Definition in_window (ky kx : Z) (rc : Z * Z) : Prop :=
  0 <= fst rc < ky /\ 0 <= snd rc < kx.

(** [kernel.sum()] *)
Definition ksum (k : grid Z) : Z := fold_left Z.add (concat k) 0.

End Kernel.

(** ** Multi-scale terrain indices *)

Module Terrain.
Import Num.

Local Open Scope string_scope.
Local Open Scope R_scope.

(** *** [scipy.ndimage.convolve] with [mode='constant'] *)

Definition DBL_EPSILON : R := / 2 ^ 52.

(** The filter keeps the weights whose magnitude exceeds [DBL_EPSILON]; the
    other positions of the window are never read. *)
Definition significant (w : xreal) : bool :=
  match w with
  | Fin r => match Rcmp (Rabs r) DBL_EPSILON with
             | Gt => true
             | _ => false
             end
  | PInf | NInf => true
  | NaN => false
  end.

(** The input extended by the constant [cval] outside its bounds. *)
Definition fetch (arr : grid xreal) (cval : xreal) (i j : Z) : xreal :=
  if ((i <? 0) || (j <? 0))%Z then cval
  else match cell arr (Z.to_nat i) (Z.to_nat j) with
       | Some x => x
       | None => cval
       end.

(** Correlation with the window centred at [(cy, cx)]: the products are
    accumulated from 0 in the row-major order of the window. *)
Definition correlate (arr weights : grid xreal) (cval : xreal) (cy cx : Z)
  : grid xreal :=
  let taps := filter (fun t => significant (snd t)) (enumerate weights) in
  gmapi (fun i j (_ : xreal) =>
           fold_left
             (fun tmp t =>
                let '(a, b, wt) := t in
                xadd tmp
                     (xmul wt (fetch arr cval
                                     (Z.of_nat i + Z.of_nat a - cy)
                                     (Z.of_nat j + Z.of_nat b - cx))))
             taps (Fin 0))
        arr.

Definition flip {A : Type} (w : grid A) : grid A := rev (map (@rev A) w).

(** The centre of a window axis of size [n] under convolution. *)
Definition centre (n : nat) : Z :=
  (if Z.even (Z.of_nat n) then Z.of_nat n / 2 - 1 else Z.of_nat n / 2)%Z.

(** [ndimage.convolve(arr, weights, mode='constant', cval=cval)]: the
    correlation with the window reversed along both axes. *)
Definition convolve (arr weights : grid xreal) (cval : xreal) : grid xreal :=
  correlate arr (flip weights) cval
            (centre (height weights)) (centre (width weights)).

(** [focal_mean(arr, kernel)] *)
Definition focal_mean (arr : grid xreal) (kernel : grid Z) : grid xreal :=
  let total := Fin (IZR (Kernel.ksum kernel)) in
  let kernel := gmap (fun k => xdiv (Fin (IZR k)) total) kernel in
  convolve arr kernel NaN.

(** *** [np.gradient] with unit spacing *)

Definition at_default (g : grid xreal) (i j : nat) : xreal :=
  match cell g i j with
  | Some x => x
  | None => NaN
  end.

(** Central differences inside, one-sided differences at both ends. *)
Definition difference (f : nat -> xreal) (n k : nat) : xreal :=
  if (k =? 0)%nat then xsub (f 1%nat) (f 0%nat)
  else if (S k =? n)%nat then xsub (f k) (f (k - 1)%nat)
  else xdiv (xsub (f (S k)) (f (k - 1)%nat)) (Fin 2).

Definition too_small : exn :=
  ValueError "Shape of array too small to calculate a numerical gradient, at least (edge_order + 1) elements are required.".

(** The derivative along the rows' axis first, then along the columns'. *)
Definition np_gradient (f : grid xreal) : result (grid xreal * grid xreal) :=
  if ((height f <? 2) || (width f <? 2))%nat then Raise too_small
  else
    Return (gmapi (fun i j (_ : xreal) =>
                     difference (fun k => at_default f k j) (height f) i) f,
            gmapi (fun i j (_ : xreal) =>
                     difference (fun k => at_default f i k) (width f) j) f).

(** *** [terrain_indices] *)

Record TerrainIndexSet : Type := mkindices {
  Slope : grid xreal;
  Curvature : grid xreal;
  Profile_curvature : grid xreal;
  Planform_curvature : grid xreal;
  TPI : grid xreal
}.

Definition sq (x : xreal) : xreal := xmul x x.

Definition terrain_indices (filled_dem : grid xreal) (w : Z * Z)
  (unit method : string) : result TerrainIndexSet :=
  if (Z.min (fst w) (snd w) <? 3)%Z then
    Raise (ValueError "Window size must be at least 3x3")
  else if ((fst w mod 2 =? 0) || (snd w mod 2 =? 0))%Z then
    Raise (ValueError "Window size must be odd")
  else
    kernel <- Kernel.create_kernel w method ;;
    let smoothed_dem := focal_mean filled_dem kernel in
    g <- np_gradient smoothed_dem ;;
    let '(dz_dx, dz_dy) := g in
    let slope_k := gmap xarctan (gmap2 xhypot dz_dx dz_dy) in
    let slope_k :=
      if String.eqb unit "degrees" then gmap xdegrees slope_k else slope_k in
    let aspect_k :=
      gmap (fun a => xsub (Fin (- PI / 2)) a) (gmap2 xarctan2 dz_dy dz_dx) in
    let aspect_k :=
      gmap (fun a => if xltb a (Fin 0) then xadd a (Fin (2 * PI)) else a)
           aspect_k in
    let aspect_k :=
      if String.eqb unit "degrees" then gmap xdegrees aspect_k else aspect_k in
    let dz2_dx2 := gmap2 xsub (focal_mean dz_dx kernel) dz_dx in
    let dz2_dy2 := gmap2 xsub (focal_mean dz_dy kernel) dz_dy in
    let dz2_dxdy :=
      gmap2 xsub (focal_mean dz_dx kernel) (focal_mean dz_dy kernel) in
    let curvature_k := gmap2 xadd dz2_dx2 dz2_dy2 in
    let cos_a := gmap xcos aspect_k in
    let sin_a := gmap xsin aspect_k in
    let cross :=
      gmap2 xmul (gmap2 xmul (gmap (xmul (Fin 2)) dz2_dxdy) sin_a) cos_a in
    let profile_curvature_k :=
      gmap2 xadd
            (gmap2 xadd (gmap2 xmul dz2_dy2 (gmap sq cos_a))
                        (gmap2 xmul dz2_dx2 (gmap sq sin_a)))
            cross in
    let planform_curvature_k :=
      gmap2 xsub
            (gmap2 xadd (gmap2 xmul dz2_dy2 (gmap sq sin_a))
                        (gmap2 xmul dz2_dx2 (gmap sq cos_a)))
            cross in
    let focal_mean_tpi := focal_mean smoothed_dem kernel in
    let tpi_k := gmap2 xsub smoothed_dem focal_mean_tpi in
    Return (mkindices slope_k curvature_k profile_curvature_k
                      planform_curvature_k tpi_k).

(** The two errors of the window check. *)
Definition window_error {A : Type} (r : result A) : Prop :=
  r = Raise (ValueError "Window size must be at least 3x3") \/
  r = Raise (ValueError "Window size must be odd").

(** A window axis that the check turns down: an even size or a size below
    3. *)
Definition invalid_window (w : Z * Z) : Prop :=
  (Z.even (fst w) = true \/ Z.even (snd w) = true \/
   Z.min (fst w) (snd w) < 3)%Z.

(** A window that passes the check: odd sides of at least 3. *)
Definition valid_window (w : Z * Z) : Prop :=
  (3 <= fst w)%Z /\ (3 <= snd w)%Z /\
  Z.odd (fst w) = true /\ Z.odd (snd w) = true.

(** A planar raster: elevation [p * i + q * j + r] at row [i], column [j]. *)
Definition plane (h w : nat) (p q r : R) : grid xreal :=
  tabulate h w (fun i j => Fin (p * INR i + q * INR j + r)).

(** Sums of reals: over a list, and over the indices below [n]. *)
Definition Rsum (l : list R) : R := fold_right Rplus 0 l.

Fixpoint sumn (n : nat) (f : nat -> R) : R :=
  match n with
  | O => 0
  | S m => sumn m f + f m
  end.

(** The kernel whose cell [(a, b)] is 1 where [chi a b] holds, 0 elsewhere. *)
Definition kernel_of (ny nx : nat) (chi : nat -> nat -> bool) : grid Z :=
  tabulate ny nx (fun a b => if chi a b then 1%Z else 0%Z).

(** The cells of the five kernels on the window of [2 * cy + 1] rows and
    [2 * cx + 1] columns, the bishop's on a square window. *)
Definition chi_queen (a b : nat) : bool := true.

Definition chi_rook (cy cx a b : nat) : bool :=
  (a =? cy)%nat || (b =? cx)%nat.

Definition chi_bishop (c a b : nat) : bool :=
  (a =? b)%nat || (a + b =? 2 * c)%nat.

Definition sqnorm (cy cx a b : nat) : Z :=
  let y := (Z.of_nat a - Z.of_nat cy)%Z in
  let x := (Z.of_nat b - Z.of_nat cx)%Z in
  (x * x + y * y)%Z.

Definition chi_circle (cy cx a b : nat) : bool :=
  (sqnorm cy cx a b <=? Z.of_nat cx * Z.of_nat cx)%Z.

Definition chi_annulus (cy cx a b : nat) : bool :=
  chi_circle cy cx a b &&
  negb (sqnorm cy cx a b <? (Z.of_nat cx - 1) * (Z.of_nat cx - 1))%Z.

Definition chi_of (method : string) (cy cx : nat) : nat -> nat -> bool :=
  if String.eqb method "queen" then chi_queen
  else if String.eqb method "rook" then chi_rook cy cx
  else if String.eqb method "bishop" then chi_bishop cx
  else if String.eqb method "circle" then chi_circle cy cx
  else if String.eqb method "annulus" then chi_annulus cy cx
  else fun _ _ => false.

(** Double sums over a window, and the weight of a cell as a real. *)
Definition sum2 (ny nx : nat) (f : nat -> nat -> R) : R :=
  sumn ny (fun a => sumn nx (fun b => f a b)).

Definition ind (chi : nat -> nat -> bool) (a b : nat) : R :=
  if chi a b then 1 else 0.

(** The kernel as the correlation reads it: reflected through the centre of
    the window of [ny] rows and [nx] columns. *)
Definition reflected (ny nx : nat) (chi : nat -> nat -> bool) (a b : nat)
  : bool :=
  chi (ny - 1 - a)%nat (nx - 1 - b)%nat.

(** The offset of the centre of mass of the reflected kernel from the centre
    [(cy, cx)] of the window of [2 * cy + 1] rows and [2 * cx + 1] columns,
    weighted by the gradient [(p, q)] of a plane: what the focal mean adds to
    the plane. *)
Definition drift (cy cx : nat) (chi : nat -> nat -> bool) (p q : R) : R :=
  let ny := (2 * cy + 1)%nat in
  let nx := (2 * cx + 1)%nat in
  (p * sum2 ny nx (fun a b => ind (reflected ny nx chi) a b * (INR a - INR cy))
   + q * sum2 ny nx (fun a b => ind (reflected ny nx chi) a b * (INR b - INR cx)))
  / sum2 ny nx (ind chi).

(** The bishop's kernel on the window of 5 rows and 3 columns. *)
Definition chi_bishop_5x3 (a b : nat) : bool :=
  (a <? 3)%nat && ((a =? b)%nat || (a + b =? 2)%nat).

(** The methods under which the kernel is its own reflection through the
    centre of the window. *)
Definition symmetric_method (w : Z * Z) (method : string) : Prop :=
  method = "queen" \/ method = "rook" \/ method = "circle" \/
  method = "annulus" \/ (method = "bishop" /\ fst w = snd w).

End Terrain.

(** ** Labelled arrays *)

Module DataArray.
Import Num.

Local Open Scope string_scope.

(** The values that the attributes of a labelled array hold here: [None], a
    string (a coordinate reference system), a number. *)
Inductive attr : Type :=
| PyNone
| PyStr (s : string)
| PyFloat (x : xreal).

(** A dictionary with string keys, in insertion order. *)
Definition dict (V : Type) : Type := list (string * V).

Fixpoint get {V : Type} (d : dict V) (key : string) : option V :=
  match d with
  | [] => None
  | (k, v) :: d' => if String.eqb k key then Some v else get d' key
  end.

(** A two-dimensional labelled array: the name, the values, the names of
    the two dimensions, the coordinates along them, the attributes. *)
Record DataArray : Type := mkDataArray {
  name : option string;
  values : grid xreal;
  dims : list string;
  coords : dict (list R);
  attrs : dict attr
}.

(** What a call raises: a [KeyError] with the missing key, or one of the
    exceptions of the array code. *)
Inductive raised : Type :=
| KeyError (key : string)
| Raised (e : exn).

Definition outcome (A : Type) : Type := (A + raised)%type.

Definition ok {A : Type} (a : A) : outcome A := inl a.
Definition raise {A : Type} (e : raised) : outcome A := inr e.

Definition and_then {A B : Type} (r : outcome A) (k : A -> outcome B)
  : outcome B :=
  match r with
  | inl a => k a
  | inr e => inr e
  end.

(** [d[key]] *)
Definition getitem {V : Type} (d : dict V) (key : string) : outcome V :=
  match get d key with
  | Some v => ok v
  | None => raise (KeyError key)
  end.

(** [d.get(key, default)] *)
Definition get_default {V : Type} (d : dict V) (key : string) (default : V)
  : V :=
  match get d key with
  | Some v => v
  | None => default
  end.

(** The library's message goes on with the two lengths that differ. *)
Definition conflicting_sizes (dim : string) : raised :=
  Raised (ValueError ("conflicting sizes for dimension " ++ dim)).

(** [xr.DataArray(array, dims=["y", "x"], coords={"y": y, "x": x},
    attrs=attrs)]: the coordinates are checked against the shape of the
    data, in the order of the dictionary. *)
Definition new_DataArray (array : grid xreal) (y x : list R)
  (attributes : dict attr) : outcome DataArray :=
  if negb (List.length y =? height array)%nat then
    raise (conflicting_sizes "y")
  else if negb (List.length x =? width array)%nat then
    raise (conflicting_sizes "x")
  else
    ok (mkDataArray None array ["y"; "x"] [("y", y); ("x", x)] attributes).

(** [da.rename(new_name)] with a string *)
Definition rename (da : DataArray) (new_name : string) : DataArray :=
  mkDataArray (Some new_name) (values da) (dims da) (coords da) (attrs da).

(** The arguments of the constructor are evaluated from left to right,
    before the constructor runs. *)
Definition array_to_dataarray (array : grid xreal) (filled_dem : DataArray)
  (metric : string) : outcome DataArray :=
  and_then (getitem (coords filled_dem) "y") (fun y =>
  and_then (getitem (coords filled_dem) "x") (fun x =>
  and_then (getitem (attrs filled_dem) "crs") (fun crs =>
  let nodata := get_default (attrs filled_dem) "nodata" PyNone in
  and_then (new_DataArray array y x [("crs", crs); ("nodata", nodata)])
           (fun da =>
  ok (rename da metric))))).

End DataArray.

(** * Proofs *)

Unset Implicit Arguments.

(** ** Facts on arrays *)

(** *** Cells of mapped arrays *)

Lemma cell_gmap {A B : Type} (f : A -> B) (g : grid A) (i j : nat) :
  cell (gmap f g) i j = option_map f (cell g i j).
Proof.
  unfold cell, gmap. rewrite nth_error_map.
  destruct (nth_error g i) as [row |]; simpl; [| reflexivity].
  apply nth_error_map.
Qed.

Lemma nth_error_zip_with {A B C : Type} (f : A -> B -> C) (l : list A)
  (m : list B) (n : nat) :
  nth_error (zip_with f l m) n =
  match nth_error l n, nth_error m n with
  | Some x, Some y => Some (f x y)
  | _, _ => None
  end.
Proof.
  revert m n. induction l as [| x l IH]; intros m n.
  - destruct n; reflexivity.
  - destruct m as [| y m].
    + destruct n; simpl; [reflexivity |]. now destruct (nth_error l n).
    + destruct n; simpl; [reflexivity | apply IH].
Qed.

Lemma cell_gmap2 {A B C : Type} (f : A -> B -> C) (g : grid A) (h : grid B)
  (i j : nat) :
  cell (gmap2 f g h) i j =
  match cell g i j, cell h i j with
  | Some x, Some y => Some (f x y)
  | _, _ => None
  end.
Proof.
  unfold cell, gmap2. rewrite nth_error_zip_with.
  destruct (nth_error g i) as [r1 |]; [| reflexivity].
  destruct (nth_error h i) as [r2 |].
  - apply nth_error_zip_with.
  - now destruct (nth_error r1 j).
Qed.

Lemma zip_with_diag {A C : Type} (f : A -> A -> C) (l : list A) :
  zip_with f l l = map (fun x => f x x) l.
Proof. induction l as [| x l IH]; simpl; [reflexivity | now rewrite IH]. Qed.

Lemma gmap2_diag {A C : Type} (f : A -> A -> C) (g : grid A) :
  gmap2 f g g = gmap (fun x => f x x) g.
Proof.
  unfold gmap2, gmap. rewrite zip_with_diag.
  apply map_ext. intros row. apply zip_with_diag.
Qed.

Lemma gmap_id_on {A : Type} (f : A -> A) (g : grid A) :
  (forall row x, In row g -> In x row -> f x = x) -> gmap f g = g.
Proof.
  intros H. unfold gmap.
  rewrite <- (map_id g) at 2. apply map_ext_in. intros row Hrow.
  rewrite <- (map_id row) at 2. apply map_ext_in. intros x Hx.
  now apply (H row).
Qed.

Lemma in_grid_concat {A : Type} (g : grid A) (row : list A) (x : A) :
  In row g -> In x row -> In x (concat g).
Proof. intros Hr Hx. apply in_concat. now exists row. Qed.

(** *** Arrays mapped with their indices *)

Lemma nth_error_mapi_from {A B : Type} (f : nat -> A -> B) (l : list A)
  (n k : nat) :
  nth_error (mapi_from f n l) k = option_map (f (n + k)%nat) (nth_error l k).
Proof.
  revert n k. induction l as [| x l IH]; intros n k.
  - now destruct k.
  - destruct k; simpl.
    + now rewrite Nat.add_0_r.
    + rewrite IH. now rewrite Nat.add_succ_r.
Qed.

Lemma length_mapi_from {A B : Type} (f : nat -> A -> B) (n : nat) (l : list A) :
  List.length (mapi_from f n l) = List.length l.
Proof.
  revert n. induction l as [| x l IH]; intros n; simpl;
    [reflexivity | now rewrite IH].
Qed.

Lemma cell_gmapi {A B : Type} (f : nat -> nat -> A -> B) (g : grid A)
  (i j : nat) :
  cell (gmapi f g) i j = option_map (f i j) (cell g i j).
Proof.
  unfold cell, gmapi, mapi. rewrite nth_error_mapi_from.
  destruct (nth_error g i) as [row |]; simpl; [| reflexivity].
  apply nth_error_mapi_from.
Qed.

Lemma height_gmapi {A B : Type} (f : nat -> nat -> A -> B) (g : grid A) :
  height (gmapi f g) = height g.
Proof. apply length_mapi_from. Qed.

Lemma width_gmapi {A B : Type} (f : nat -> nat -> A -> B) (g : grid A) :
  width (gmapi f g) = width g.
Proof.
  destruct g as [| row g]; [reflexivity |]. apply length_mapi_from.
Qed.

Lemma in_enumerate {A : Type} (g : grid A) (i j : nat) (x : A) :
  In (i, j, x) (enumerate g) <-> cell g i j = Some x.
Proof.
  unfold enumerate. rewrite in_concat. split.
  - intros (l & Hl & Hin).
    apply In_nth_error in Hl. destruct Hl as [i' Hl].
    apply In_nth_error in Hin. destruct Hin as [j' Hin].
    unfold gmapi, mapi in Hl. rewrite nth_error_mapi_from in Hl.
    unfold cell.
    destruct (nth_error g i') as [row |] eqn:Er; [| discriminate Hl].
    simpl in Hl. injection Hl as <-.
    rewrite nth_error_mapi_from in Hin.
    destruct (nth_error row j') as [y |] eqn:Ey; [| discriminate Hin].
    simpl in Hin. injection Hin as <- <- <-.
    now rewrite Er.
  - intros Hc. unfold cell in Hc.
    destruct (nth_error g i) as [row |] eqn:Er; [| discriminate Hc].
    exists (mapi (fun j x => (i, j, x)) row). split.
    + apply nth_error_In with i. unfold gmapi, mapi.
      rewrite nth_error_mapi_from, Er. reflexivity.
    + apply nth_error_In with j. unfold mapi.
      rewrite nth_error_mapi_from, Hc. reflexivity.
Qed.

Lemma in_indices (h w i j : nat) :
  In (i, j) (indices h w) <-> (i < h)%nat /\ (j < w)%nat.
Proof.
  unfold indices. rewrite in_flat_map. split.
  - intros (i' & Hi & Hin). apply in_map_iff in Hin.
    destruct Hin as (j' & E & Hj). injection E as <- <-.
    apply in_seq in Hi. apply in_seq in Hj. lia.
  - intros [Hi Hj]. exists i. split; [apply in_seq; lia |].
    apply in_map. apply in_seq. lia.
Qed.

(** *** Tabulated arrays *)

Lemma mapi_from_map_seq {A B : Type} (F : nat -> A -> B) (g : nat -> A)
  (n len : nat) :
  mapi_from F n (map g (seq n len)) = map (fun a => F a (g a)) (seq n len).
Proof.
  revert n. induction len as [| len IH]; intros n; simpl;
    [reflexivity | now rewrite IH].
Qed.

Lemma gmapi_tabulate {A B : Type} (F : nat -> nat -> A -> B) (ny nx : nat)
  (g : nat -> nat -> A) :
  gmapi F (tabulate ny nx g) = tabulate ny nx (fun a b => F a b (g a b)).
Proof.
  unfold gmapi, tabulate, mapi. rewrite mapi_from_map_seq.
  apply map_ext. intros a. apply mapi_from_map_seq.
Qed.

Lemma gmap_tabulate {A B : Type} (f : A -> B) (ny nx : nat)
  (g : nat -> nat -> A) :
  gmap f (tabulate ny nx g) = tabulate ny nx (fun a b => f (g a b)).
Proof.
  unfold gmap, tabulate. rewrite map_map. apply map_ext. intros a.
  now rewrite map_map.
Qed.

Lemma enumerate_tabulate {A : Type} (ny nx : nat) (g : nat -> nat -> A) :
  enumerate (tabulate ny nx g) =
  flat_map (fun a => map (fun b => (a, b, g a b)) (seq 0 nx)) (seq 0 ny).
Proof.
  unfold enumerate. rewrite gmapi_tabulate. unfold tabulate.
  now rewrite flat_map_concat_map.
Qed.

Lemma cell_tabulate {A : Type} (ny nx : nat) (g : nat -> nat -> A)
  (i j : nat) :
  (i < ny)%nat -> (j < nx)%nat -> cell (tabulate ny nx g) i j = Some (g i j).
Proof.
  intros Hi Hj. unfold cell, tabulate.
  rewrite nth_error_map, nth_error_seq.
  replace (i <? ny)%nat with true by (symmetry; now apply Nat.ltb_lt).
  cbn [option_map]. rewrite nth_error_map, nth_error_seq.
  replace (j <? nx)%nat with true by (symmetry; now apply Nat.ltb_lt).
  reflexivity.
Qed.

Lemma height_tabulate {A : Type} (ny nx : nat) (g : nat -> nat -> A) :
  height (tabulate ny nx g) = ny.
Proof. unfold height, tabulate. now rewrite length_map, length_seq. Qed.

Lemma width_tabulate {A : Type} (ny nx : nat) (g : nat -> nat -> A) :
  (0 < ny)%nat -> width (tabulate ny nx g) = nx.
Proof.
  intros H. unfold width, tabulate. destruct ny as [| ny]; [lia |].
  simpl. now rewrite length_map, length_seq.
Qed.

Lemma tabulate_ext {A : Type} (ny nx : nat) (g h : nat -> nat -> A) :
  (forall a b, (a < ny)%nat -> (b < nx)%nat -> g a b = h a b) ->
  tabulate ny nx g = tabulate ny nx h.
Proof.
  intros H. unfold tabulate. apply map_ext_in. intros a Ha.
  apply in_seq in Ha. apply map_ext_in. intros b Hb. apply in_seq in Hb.
  apply H; lia.
Qed.

Lemma rev_map_seq {A : Type} (g : nat -> A) (n : nat) :
  rev (map g (seq 0 n)) = map (fun a => g (n - 1 - a)%nat) (seq 0 n).
Proof.
  induction n as [| n IH]; [reflexivity |].
  rewrite seq_S at 1. rewrite map_app, rev_app_distr. simpl rev.
  cbn [app]. rewrite IH. simpl seq. cbn [map].
  replace (S n - 1 - 0)%nat with n by lia. f_equal.
  rewrite <- seq_shift, map_map. apply map_ext_in. intros a Ha.
  apply in_seq in Ha. f_equal. lia.
Qed.

Lemma flip_tabulate {A : Type} (ny nx : nat) (g : nat -> nat -> A) :
  Terrain.flip (tabulate ny nx g) =
  tabulate ny nx (fun a b => g (ny - 1 - a)%nat (nx - 1 - b)%nat).
Proof.
  unfold Terrain.flip, tabulate. rewrite map_map.
  rewrite (map_ext _ (fun a => map (fun b => g a (nx - 1 - b)%nat) (seq 0 nx)))
    by (intros a; apply rev_map_seq).
  apply (rev_map_seq (fun a => map (fun b => g a (nx - 1 - b)%nat) (seq 0 nx))).
Qed.

(** *** Updates by index *)

Lemma length_set_nth {A : Type} (l : list A) (n : nat) (v : A) :
  List.length (set_nth l n v) = List.length l.
Proof.
  revert n. induction l as [| x l IH]; intros [| n]; simpl;
    try reflexivity. now rewrite IH.
Qed.

Lemma nth_set_nth {A : Type} (l : list A) (n k : nat) (v d : A) :
  nth k (set_nth l n v) d =
  if (k =? n)%nat && (n <? List.length l)%nat then v else nth k l d.
Proof.
  revert n k. induction l as [| x l IH]; intros n k.
  - destruct n, k; simpl; try reflexivity; now rewrite andb_false_r.
  - destruct n as [| n], k as [| k]; simpl; try reflexivity.
    rewrite IH. reflexivity.
Qed.

Lemma nth_error_set_nth {A : Type} (l : list A) (n k : nat) (v : A) :
  nth_error (set_nth l n v) k =
  if (k =? n)%nat then option_map (fun _ => v) (nth_error l k)
  else nth_error l k.
Proof.
  revert n k. induction l as [| x l IH]; intros n k.
  - destruct n, k; simpl; try reflexivity.
    now destruct (k =? n)%nat.
  - destruct n as [| n], k as [| k]; simpl; try reflexivity. apply IH.
Qed.

(** *** The minimum of a list of integers *)

Lemma fold_min_spec (l : list Z) (a : Z) :
  let m := fold_left Z.min l a in
  ((m <= a)%Z /\ forall x, In x l -> (m <= x)%Z) /\ (m = a \/ In m l).
Proof.
  revert a. induction l as [| y l IH]; intros a; simpl.
  - split; [split; [lia | intros x []] | now left].
  - destruct (IH (Z.min a y)) as [[Hle Hall] Hin]. split; [split |].
    + lia.
    + intros x [<- | Hx]; [lia | now apply Hall].
    + destruct Hin as [E | Hin]; [| right; now right].
      rewrite E.
      destruct (Z.min_spec a y) as [[_ Em] | [_ Em]];
        [left | right; left]; lia.
Qed.

(** ** Depression filling *)

Module FillFacts.
Import Fill.

Lemma pos_cmp_cont (m n : positive) : Pos.compare_cont Eq m n = Pos.compare m n.
Proof. reflexivity. Qed.

Ltac order_cases :=
  repeat match goal with
         | |- context [Z.compare ?a ?b] =>
             destruct (Z.compare_spec a b); subst
         | H : context [Z.compare ?a ?b] |- _ =>
             destruct (Z.compare_spec a b); subst
         | |- context [Pos.compare_cont Eq ?a ?b] =>
             rewrite (pos_cmp_cont a b); destruct (Pos.compare_spec a b); subst
         | H : context [Pos.compare_cont Eq ?a ?b] |- _ =>
             rewrite (pos_cmp_cont a b) in H; destruct (Pos.compare_spec a b); subst
         end;
  simpl in *; try reflexivity; try discriminate; try lia.

Lemma SFleb_refl (x : float) : isnan x = false -> SFleb x x = true.
Proof.
  destruct x as [s | s | | s m e]; intros H; try discriminate H;
    unfold SFleb, SFcompare; destruct s; order_cases.
Qed.

Lemma SFltb_irrefl (x : float) : SFltb x x = false.
Proof.
  destruct x as [s | s | | s m e];
    unfold SFltb, SFcompare; try destruct s; order_cases.
Qed.

Lemma SFleb_total (x y : float) :
  isnan x = false -> isnan y = false -> SFleb x y = false -> SFleb y x = true.
Proof.
  destruct x as [s | s | | s m e], y as [s' | s' | | s' m' e'];
    intros Hx Hy; try discriminate Hx; try discriminate Hy;
    unfold SFleb, SFcompare; try destruct s; try destruct s';
    intros H; order_cases.
Qed.

Lemma SFleb_trans (x y z : float) :
  SFleb x y = true -> SFleb y z = true -> SFleb x z = true.
Proof.
  destruct x as [s | s | | s m e], y as [s' | s' | | s' m' e'],
    z as [s'' | s'' | | s'' m'' e''];
    unfold SFleb, SFcompare; try destruct s; try destruct s'; try destruct s'';
    intros H1 H2; try discriminate H1; try discriminate H2; try reflexivity;
    order_cases.
Qed.

(** The reduction by [fmin] is below every number it has met. *)
Lemma fold_fmin_lower (l : list float) (acc : float) :
  (isnan acc = false -> SFleb acc acc = true) ->
  let m := fold_left fmin l acc in
  (forall x, In x l -> isnan x = false -> SFleb m x = true) /\
  (isnan acc = false -> SFleb m acc = true).
Proof.
  revert acc. induction l as [| y l IH]; intros acc Hacc; simpl.
  - split; [intros x [] | exact Hacc].
  - assert (Hstep : isnan (fmin acc y) = false ->
                    SFleb (fmin acc y) (fmin acc y) = true)
      by (intros Hn; now apply SFleb_refl).
    destruct (IH (fmin acc y) Hstep) as [Hall Hhead].
    assert (Hy : isnan y = false -> SFleb (fmin acc y) y = true).
    { intros Hn. unfold fmin. rewrite Hn, orb_false_r.
      destruct (SFleb acc y) eqn:E; [exact E | now apply SFleb_refl]. }
    assert (Ha : isnan acc = false -> SFleb (fmin acc y) acc = true).
    { intros Hn. unfold fmin.
      destruct (SFleb acc y) eqn:E; simpl; [now apply SFleb_refl |].
      destruct (isnan y) eqn:Ny; [now apply SFleb_refl |].
      now apply SFleb_total. }
    assert (Hm : isnan (fmin acc y) = false \/
                 (isnan acc = true /\ isnan y = true)).
    { unfold fmin. destruct (SFleb acc y) eqn:E; simpl.
      - left. destruct acc; try reflexivity. discriminate E.
      - destruct (isnan y) eqn:Ny.
        + destruct (isnan acc) eqn:Na; [now right | now left].
        + now left. }
    split.
    + intros x [E | Hx] Hn.
      * subst x. destruct Hm as [Hm | [_ Hm]]; [| congruence].
        apply SFleb_trans with (fmin acc y); [now apply Hhead | now apply Hy].
      * now apply Hall.
    + intros Hn. destruct Hm as [Hm | [Hm _]]; [| congruence].
      apply SFleb_trans with (fmin acc y); [now apply Hhead | now apply Ha].
Qed.

Lemma DataArray_min_lower (a : grid float) (x : float) :
  In x (concat a) -> isnan x = false -> SFleb (DataArray_min a) x = true.
Proof.
  unfold DataArray_min. destruct (concat a) as [| x0 rest]; [intros [] |].
  intros Hin Hn.
  destruct (fold_fmin_lower rest x0 (@SFleb_refl x0)) as [Hall Hhead].
  destruct Hin as [-> | Hin]; [now apply Hhead | now apply Hall].
Qed.

(** Raising a raster to its own minimum changes no cell. *)
Lemma np_maximum_scalar_min (dem : grid float) :
  np_maximum_scalar dem (DataArray_min dem) = dem.
Proof.
  unfold np_maximum_scalar. apply gmap_id_on. intros row x Hrow Hx.
  unfold maximum. destruct (isnan x) eqn:Hn; [now rewrite orb_true_r |].
  rewrite (DataArray_min_lower dem x); [reflexivity | | exact Hn].
  now apply in_grid_concat with row.
Qed.

Lemma np_greater_self (dem : grid float) (i j : nat) :
  mask_at (np_greater dem dem) i j = false.
Proof.
  unfold mask_at, np_greater. rewrite gmap2_diag, cell_gmap.
  destruct (cell _ _ _); simpl; [apply SFltb_irrefl | reflexivity].
Qed.

(** A mask without a [True] cell has no feature. *)
Lemma label_empty (m : grid bool) :
  (forall i j, mask_at m i j = false) ->
  label m = (gmap (fun _ => 0%nat) m, 0%nat).
Proof.
  intros H. unfold label.
  generalize (indices (height m) (width m)) as ps.
  induction ps as [| [i j] ps IH]; simpl; [reflexivity |].
  now rewrite H.
Qed.

Lemma fill_loop_once (fuel : nat) (dem : grid float) :
  fill_loop (S fuel) dem dem = Some dem.
Proof.
  simpl. rewrite np_maximum_scalar_min.
  rewrite (label_empty (np_greater dem dem) (np_greater_self dem)).
  reflexivity.
Qed.




Lemma pit_centre_is_a_sink : ~ drains pit (1%nat, 1%nat).
Proof.
  intros H. inversion H as [p x Hc Hb | p q x y Hp Hq Ha Hle Hd]; subst.
  - destruct Hb as [Hb | [Hb | [Hb | Hb]]]; discriminate Hb.
  - simpl in Hp. injection Hp as <-.
    destruct Ha as (Hne & (H1 & H2) & (H3 & H4)).
    destruct q as [[| [| [| i]]] [| [| [| j]]]]; simpl in *;
      try discriminate Hq; try lia;
      try (injection Hq as <-; discriminate Hle).
    now apply Hne.
Qed.

(** C1, on the pit.  The raster has no cell without data and its centre is
    an interior cell; [fill_depressions] returns the raster as it came, and
    from the centre no path of adjacent cells that never rises reaches the
    boundary: the raster returned is not sink-free. *)
Theorem fill_depressions_keeps_pit :
  no_nodata pit = true /\
  interior pit (1%nat, 1%nat) /\
  (forall fuel, fill_depressions (S fuel) pit = Some pit) /\
  ~ drains pit (1%nat, 1%nat) /\
  ~ sink_free pit.
Proof.
  split; [reflexivity |]. split; [unfold interior; simpl; lia |].
  split; [intros fuel; apply fill_loop_once |].
  split; [exact pit_centre_is_a_sink |].
  intros H. apply pit_centre_is_a_sink. apply H. unfold interior; simpl; lia.
Qed.

End FillFacts.

(** *** The labelling finds the features *)

Module LabelFacts.
Import Fill.

Lemma label_at_set_cell (lab : grid nat) (i j n i' j' : nat) :
  label_at (set_cell lab i j n) i' j' = n \/
  label_at (set_cell lab i j n) i' j' = label_at lab i' j'.
Proof.
  unfold label_at, set_cell, cell.
  destruct (nth_error lab i) as [row |] eqn:Er; [| now right].
  rewrite nth_error_set_nth. destruct (Nat.eqb_spec i' i) as [-> | _];
    [| now right].
  rewrite Er. cbn [option_map]. rewrite nth_error_set_nth.
  destruct (Nat.eqb_spec j' j) as [-> | _]; [| now right].
  destruct (nth_error row j); [now left | now right].
Qed.

(** Flooding writes the label [n] only. *)
Lemma flood_bound (fuel : nat) (m : grid bool) (lab : grid nat) (n : nat)
  (work : list (nat * nat)) (bound : nat) :
  (forall i j, label_at lab i j <= bound) -> n <= bound ->
  forall i j, label_at (flood fuel m lab n work) i j <= bound.
Proof.
  revert lab work. induction fuel as [| fuel IH]; intros lab work Hlab Hn;
    [exact Hlab |].
  destruct work as [| [i0 j0] rest]; [exact Hlab |]. cbn [flood].
  destruct (mask_at m i0 j0 && (label_at lab i0 j0 =? 0)).
  - apply IH; [| exact Hn]. intros i j.
    destruct (label_at_set_cell lab i0 j0 n i j) as [-> | ->];
      [exact Hn | apply Hlab].
  - now apply IH.
Qed.

(** The scan keeps every label below the number of features found so far,
    and that number never decreases. *)
Lemma label_step_invariant (m : grid bool) (lab : grid nat) (n : nat)
  (p : nat * nat) :
  (forall i j, label_at lab i j <= n) ->
  (forall i j, label_at (fst (label_step m (lab, n) p)) i j
               <= snd (label_step m (lab, n) p)) /\
  n <= snd (label_step m (lab, n) p).
Proof.
  intros Hlab. destruct p as [i0 j0]. cbn [label_step].
  destruct (mask_at m i0 j0 && (label_at lab i0 j0 =? 0)); cbn [fst snd].
  - split; [| lia]. apply flood_bound; [| lia].
    intros i j. specialize (Hlab i j). lia.
  - split; [exact Hlab | lia].
Qed.

Lemma label_scan_invariant (m : grid bool) (ps : list (nat * nat))
  (lab : grid nat) (n : nat) :
  (forall i j, label_at lab i j <= n) ->
  (forall i j, label_at (fst (fold_left (label_step m) ps (lab, n))) i j
               <= snd (fold_left (label_step m) ps (lab, n))) /\
  n <= snd (fold_left (label_step m) ps (lab, n)).
Proof.
  revert lab n. induction ps as [| p ps IH]; intros lab n Hlab;
    [split; [exact Hlab | cbn; lia] |].
  cbn [fold_left].
  destruct (label_step_invariant m lab n p Hlab) as [H1 H2].
  destruct (label_step m (lab, n) p) as [lab' n']. cbn [fst snd] in *.
  destruct (IH lab' n' H1) as [H3 H4]. split; [exact H3 | lia].
Qed.

(** A mask with a [True] cell has a feature: the loop of
    [fill_depressions] goes on exactly when the mask is not empty. *)
Lemma label_counts_a_feature (m : grid bool) (i j : nat) :
  i < height m -> j < width m -> mask_at m i j = true ->
  1 <= snd (label m).
Proof.
  intros Hi Hj Hm. unfold label.
  assert (Hin : In (i, j) (indices (height m) (width m)))
    by now apply in_indices.
  apply in_split in Hin. destruct Hin as (l1 & l2 & ->).
  rewrite fold_left_app. cbn [fold_left].
  assert (H0 : forall i' j', label_at (gmap (fun _ : bool => 0) m) i' j' <= 0).
  { intros i' j'. unfold label_at. rewrite cell_gmap.
    destruct (cell m i' j'); cbn; lia. }
  destruct (label_scan_invariant m l1 _ 0 H0) as [H1 _].
  destruct (fold_left (label_step m) l1 (gmap (fun _ : bool => 0) m, 0))
    as [lab1 n1]. cbn [fst snd] in H1.
  assert (H2 : 1 <= snd (label_step m (lab1, n1) (i, j))).
  { cbn [label_step]. rewrite Hm. cbn [andb].
    destruct (Nat.eqb_spec (label_at lab1 i j) 0) as [E | Hne];
      cbn [snd]; [lia |]. specialize (H1 i j). lia. }
  destruct (label_step_invariant m lab1 n1 (i, j) H1) as [H3 _].
  destruct (label_step m (lab1, n1) (i, j)) as [lab2 n2]. cbn [fst snd] in *.
  destruct (label_scan_invariant m l2 lab2 n2 H3) as [_ H4]. lia.
Qed.

End LabelFacts.

(** ** Extended reals *)

Module NumFacts.
Import Num.
Local Open Scope R_scope.

Lemma Rcmp_Lt (a b : R) : a < b -> Rcmp a b = Lt.
Proof.
  intros H. unfold Rcmp. destruct (total_order_T a b) as [[L | E] | G];
    [reflexivity | lra | lra].
Qed.

Lemma Rcmp_Eq (a b : R) : a = b -> Rcmp a b = Eq.
Proof.
  intros H. unfold Rcmp. destruct (total_order_T a b) as [[L | E] | G];
    [lra | reflexivity | lra].
Qed.

Lemma Rcmp_Gt (a b : R) : b < a -> Rcmp a b = Gt.
Proof.
  intros H. unfold Rcmp. destruct (total_order_T a b) as [[L | E] | G];
    [lra | lra | reflexivity].
Qed.

Lemma xdiv_fin (a b : R) : b <> 0 -> xdiv (Fin a) (Fin b) = Fin (a / b).
Proof.
  intros H. unfold xdiv.
  destruct (Rtotal_order b 0) as [L | [E | G]];
    [now rewrite (Rcmp_Lt _ _ L) | contradiction | now rewrite (Rcmp_Gt _ _ G)].
Qed.



Lemma xleb_fin (a b : R) : xleb (Fin a) (Fin b) = true <-> a <= b.
Proof.
  unfold xleb. destruct (Rtotal_order a b) as [L | [E | G]].
  - rewrite (Rcmp_Lt _ _ L). split; [lra | reflexivity].
  - rewrite (Rcmp_Eq _ _ E). split; [lra | reflexivity].
  - rewrite (Rcmp_Gt _ _ G). split; [discriminate | lra].
Qed.


Lemma xadd_nan_r (x : xreal) : xadd x NaN = NaN.
Proof. now destruct x. Qed.

Lemma xmul_nan (x : xreal) : xmul x (xdiv NaN (Fin 100)) = NaN.
Proof. now destruct x. Qed.

Lemma xmul_nan_r (x : xreal) : xmul x NaN = NaN.
Proof. now destruct x. Qed.

End NumFacts.

(** ** Topographic Wetness Index *)

Module TWIFacts.
Import Num NumFacts TWI.
Local Open Scope R_scope.

(** C6. Every cell of the TWI raster is the logarithm of the flow
    accumulation divided by the tangent of the slope plus [epsilon = 0.01],
    the constant being added before the division, and the whole cast to
    single precision; the raster has a cell exactly where both inputs have
    one. *)
Theorem twi_cellwise (round32 : R -> R) (accum_d8 slope : grid xreal)
  (i j : nat) :
  epsilon = 0.01 /\
  cell (twi round32 accum_d8 slope) i j =
  match cell accum_d8 i j, cell slope i j with
  | Some a, Some s => Some (twi_spec round32 a s)
  | _, _ => None
  end.
Proof.
  split; [reflexivity |].
  unfold twi, twi_float64, twi_spec, epsilon.
  rewrite !cell_gmap, cell_gmap2, !cell_gmap.
  destruct (cell accum_d8 i j) as [a |], (cell slope i j) as [s |];
    reflexivity.
Qed.





Section Rounding.

Variable round32 : R -> R.
Hypothesis round32_monotone : forall x y, x <= y -> round32 x <= round32 y.


End Rounding.


End TWIFacts.

(** ** Depth to Water *)

Module DTWFacts.
Import Num NumFacts DTW.
Local Open Scope R_scope.

Lemma in_background (input : grid bool) (q : nat * nat) :
  In q (background input) <-> cell input (fst q) (snd q) = Some false.
Proof.
  unfold background. rewrite in_map_iff. split.
  - intros ([[i j] b] & <- & Hin). apply filter_In in Hin.
    destruct Hin as [Hin Hb]. simpl in *. apply in_enumerate in Hin.
    destruct b; [discriminate Hb | exact Hin].
  - intros Hc. exists (fst q, snd q, false). split; [now destruct q |].
    apply filter_In. split; [now apply in_enumerate | reflexivity].
Qed.

Lemma sqdist_nonneg (p q : nat * nat) : (0 <= sqdist p q)%Z.
Proof.
  unfold sqdist. cbv zeta. apply Z.add_nonneg_nonneg; apply Z.square_nonneg.
Qed.

Lemma sqdist_self (p : nat * nat) : sqdist p p = 0%Z.
Proof. unfold sqdist. cbv zeta. rewrite !Z.sub_diag. reflexivity. Qed.

Lemma sqrt_IZR_le (a b : Z) :
  (0 <= a)%Z -> (a <= b)%Z -> sqrt (IZR a) <= sqrt (IZR b).
Proof.
  intros Ha Hab. apply sqrt_le_1.
  - now apply IZR_le.
  - apply IZR_le. lia.
  - now apply IZR_le.
Qed.

Section External.

Variable FlowAccumulation : grid Fill.float -> grid xreal.
Variable edt_no_background : nat -> nat -> R.

Let edt := distance_transform_edt edt_no_background.

(** The inverted channel mask, cell by cell. *)
Lemma inverted_mask_cell (accum : grid xreal) (t : R) (i j : nat) :
  cell (gmap negb (gmap (fun a => xgeb a (Fin t)) accum)) i j =
  option_map (fun a => negb (xgeb a (Fin t))) (cell accum i j).
Proof. rewrite !cell_gmap. now destruct (cell accum i j). Qed.

Lemma background_channel (accum : grid xreal) (t : R) (q : nat * nat) :
  In q (background (gmap negb (gmap (fun a => xgeb a (Fin t)) accum))) <->
  channel accum t q.
Proof.
  rewrite in_background, inverted_mask_cell. unfold channel. split.
  - destruct (cell accum (fst q) (snd q)) as [a |]; [| discriminate].
    cbn [option_map]. intros H. exists a. split; [reflexivity |].
    injection H as H. now apply negb_false_iff.
  - intros (a & -> & Ha). cbn [option_map]. now rewrite Ha.
Qed.

(** The distance transform at a cell of the raster, when the mask has a
    channel cell: the distance to the nearest one. *)
Lemma edt_nearest (accum : grid xreal) (t : R) (p : nat * nat) (a : xreal)
  (d : R) :
  cell accum (fst p) (snd p) = Some a ->
  nearest_channel_distance accum t p d ->
  cell (edt (gmap negb (gmap (fun a => xgeb a (Fin t)) accum)))
       (fst p) (snd p) = Some (Fin d).
Proof.
  intros Hp [(q & Hq & Hd) Hmin]. unfold edt, distance_transform_edt.
  rewrite cell_gmapi, inverted_mask_cell, Hp. cbn [option_map].
  destruct (xgeb a (Fin t)) eqn:Ha; cbn [negb].
  - (* a channel cell: distance 0 on both sides *)
    assert (Hself : channel accum t p) by (exists a; now split).
    specialize (Hmin p Hself). rewrite sqdist_self, sqrt_0 in Hmin.
    assert (0 <= d) by (rewrite Hd; apply sqrt_pos).
    do 2 f_equal. lra.
  - apply background_channel in Hq.
    destruct (background (gmap negb (gmap (fun a0 => xgeb a0 (Fin t)) accum)))
      as [| q0 qs] eqn:Ebg; [destruct Hq |].
    do 2 f_equal.
    destruct (fold_min_spec (map (sqdist (fst p, snd p)) qs)
                            (sqdist (fst p, snd p) q0)) as [[Hle Hall] Hin].
    set (m := fold_left Z.min (map (sqdist (fst p, snd p)) qs)
                        (sqdist (fst p, snd p) q0)) in *.
    replace (fst p, snd p) with p in * by now destruct p.
    apply Rle_antisym.
    + (* the minimum is below the distance to [q] *)
      rewrite Hd. apply sqrt_IZR_le.
      * destruct Hin as [-> | Hin]; [apply sqdist_nonneg |].
        apply in_map_iff in Hin. destruct Hin as (q' & <- & _).
        apply sqdist_nonneg.
      * destruct Hq as [<- | Hq]; [exact Hle |].
        apply Hall. now apply in_map.
    + (* the minimum is the distance to a channel cell *)
      assert (Hex : exists q', In q' (q0 :: qs) /\ m = sqdist p q').
      { destruct Hin as [E | Hin].
        - exists q0. split; [now left | exact E].
        - apply in_map_iff in Hin. destruct Hin as (q' & E & Hq').
          exists q'. split; [now right | now symmetry]. }
      destruct Hex as (q' & Hq' & ->).
      apply Hmin. apply background_channel. now rewrite Ebg.
Qed.

Lemma dtw_cell (cost slope : grid xreal) (i j : nat) (d s : R) :
  cell cost i j = Some (Fin d) ->
  cell slope i j = Some (Fin s) ->
  cell (gmap2 xmul cost (gmap (fun s => xdiv s (Fin 100)) slope)) i j =
  Some (Fin (d * (s / 100))).
Proof.
  intros Hd Hs. rewrite cell_gmap2, cell_gmap, Hd, Hs. cbn [option_map].
  rewrite xdiv_fin by lra. reflexivity.
Qed.


(** C4, amended.  [calcDTW] never inspects the channel mask and raises no
    error: when no cell reaches the threshold it still returns a raster,
    whose cells are the distance transform's answers for an input without
    background, each multiplied by [slope / 100]. *)
Theorem calcDTW_empty_mask (fia : R) (filled_dem : grid Fill.float)
  (slope : grid xreal) :
  let t := threshold fia in
  let accum_d8 := FlowAccumulation filled_dem in
  (forall i j a, cell accum_d8 i j = Some a -> xgeb a (Fin t) = false) ->
  exists DTW,
    calcDTW FlowAccumulation edt_no_background fia filled_dem slope
    = Return DTW /\
    forall i j a s,
      cell accum_d8 i j = Some a -> cell slope i j = Some s ->
      cell DTW i j =
      Some (xmul (Fin (edt_no_background i j)) (xdiv s (Fin 100))).
Proof.
  intros t accum_d8 Hempty. eexists. split; [reflexivity |].
  intros i j a s Ha Hs.
  rewrite cell_gmap2, cell_gmap, Hs. cbn [option_map].
  unfold distance_transform_edt.
  rewrite cell_gmapi, inverted_mask_cell. fold accum_d8. rewrite Ha.
  cbn [option_map]. fold t. rewrite (Hempty i j a Ha). cbn [negb].
  destruct (background (gmap negb (gmap (fun a0 => xgeb a0 (Fin t)) accum_d8)))
    as [| q qs] eqn:Ebg; [reflexivity |].
  assert (Hq : channel accum_d8 t q)
    by (apply background_channel; rewrite Ebg; now left).
  destruct Hq as (a' & Ha' & Hge). rewrite (Hempty _ _ _ Ha') in Hge.
  discriminate Hge.
Qed.

End External.

Lemma threshold_1 : threshold 1 = 100 / 9.
Proof.
  unfold threshold, resolution. cbn [fst snd].
  change (Z.abs (-30) * Z.abs 30)%Z with 900%Z. lra.
Qed.

Lemma single_cell_below_threshold (i j : nat) (a : xreal) :
  cell [[Fin 1]] i j = Some a -> xgeb a (Fin (threshold 1)) = false.
Proof.
  intros Ha. destruct i as [| i]; [destruct j as [| j] |]; simpl in Ha.
  - injection Ha as <-. rewrite threshold_1. unfold xgeb.
    apply not_true_is_false. rewrite xleb_fin. lra.
  - now destruct j.
  - now destruct i.
Qed.

(** A raster of one cell: its flow accumulation is 1, below the threshold
    of [fia = 1], so the channel mask is empty; [calcDTW] returns a raster
    all the same and raises nothing. *)
Lemma calcDTW_single_cell_returns :
  (forall i j a, cell [[Fin 1]] i j = Some a ->
                 xgeb a (Fin (threshold 1)) = false) /\
  forall nb, exists DTW,
    calcDTW (fun _ => [[Fin 1]]) nb 1 [[Fill.f64_1]] [[Fin 0]] = Return DTW.
Proof.
  split; [exact single_cell_below_threshold |].
  intros nb. eexists. reflexivity.
Qed.

Lemma calcDTW_empty_mask_witness :
  exists DTW,
    calcDTW (fun _ => [[Fin 1]]) (fun _ _ => 7) 1 [[Fill.f64_1]] [[Fin 50]]
    = Return DTW /\
    cell DTW 0 0 = Some (xmul (Fin 7) (xdiv (Fin 50) (Fin 100))).
Proof.
  destruct (calcDTW_empty_mask (fun _ => [[Fin 1]]) (fun _ _ => 7) 1
              [[Fill.f64_1]] [[Fin 50]] single_cell_below_threshold)
    as (DTW & E & H).
  exists DTW. split; [exact E |].
  apply (H 0%nat 0%nat (Fin 1) (Fin 50)); reflexivity.
Defined.

(** A channel cell whose slope is missing (not-a-number) gets not-a-number,
    not 0: the product [0 * nan]. *)
Lemma calcDTW_nodata_slope :
  forall nb, exists DTW,
    calcDTW (fun _ => [[Fin 20]]) nb 1 [[Fill.f64_1]] [[NaN]] = Return DTW /\
    cell DTW 0 0 = Some NaN.
Proof.
  intros nb. eexists. split; [reflexivity |].
  rewrite cell_gmap2, cell_gmap. unfold distance_transform_edt.
  rewrite cell_gmapi, !cell_gmap.
  cbn [cell nth_error option_map]. now rewrite xmul_nan.
Qed.


End DTWFacts.

(** ** Neighbourhood kernels *)

Module KernelFacts.
Import Kernel.
Local Open Scope string_scope.
Local Open Scope Z_scope.

(** C8. On the window (5, 5): the [queen] kernel is all ones and sums to
    25; the [rook] kernel is the centre row and the centre column and sums
    to [2 * 5 - 1 = 9]; the [bishop] kernel is the two diagonals and sums to
    9, the centre being counted once. *)
Theorem create_kernel_5x5 :
  (exists k, create_kernel (5, 5) "queen" = Return k /\
             forallb (forallb (Z.eqb 1)) k = true /\ ksum k = 25) /\
  (exists k, create_kernel (5, 5) "rook" = Return k /\
             k = [[0; 0; 1; 0; 0];
                  [0; 0; 1; 0; 0];
                  [1; 1; 1; 1; 1];
                  [0; 0; 1; 0; 0];
                  [0; 0; 1; 0; 0]] /\
             ksum k = 2 * 5 - 1) /\
  (exists k, create_kernel (5, 5) "bishop" = Return k /\
             k = [[1; 0; 0; 0; 1];
                  [0; 1; 0; 1; 0];
                  [0; 0; 1; 0; 0];
                  [0; 1; 0; 1; 0];
                  [1; 0; 0; 0; 1]] /\
             ksum k = 9).
Proof.
  repeat split; eexists; (split; [vm_compute; reflexivity |]);
    split; reflexivity.
Qed.

(** [create_kernel] itself checks nothing: the window check is the caller's,
    and an even window gets its kernel. *)
Lemma create_kernel_even_window :
  create_kernel (4, 4) "queen" =
  Return [[1; 1; 1; 1]; [1; 1; 1; 1]; [1; 1; 1; 1]; [1; 1; 1; 1]].
Proof. reflexivity. Qed.

(** On a window that is not square the bishop's diagonals start from the
    top corners and stop after as many rows as the window has columns: the
    kernel is not centred on the window. *)
Lemma create_kernel_bishop_rectangle :
  create_kernel (3, 5) "bishop" =
  Return [[1; 0; 1];
          [0; 1; 0];
          [1; 0; 1];
          [0; 0; 0];
          [0; 0; 0]].
Proof. reflexivity. Qed.

Lemma odd_window (k : Z) : 3 <= k -> k mod 2 <> 0 -> 2 * (k / 2) + 1 = k.
Proof.
  intros H1 H2. pose proof (Z.div_mod k 2).
  pose proof (Z.mod_pos_bound k 2). lia.
Qed.

(** On a window that passes the check the kernel is built without error. *)
Lemma create_kernel_returns (kx ky : Z) (method : string) :
  3 <= kx -> 3 <= ky -> kx mod 2 <> 0 -> ky mod 2 <> 0 ->
  exists k, create_kernel (kx, ky) method = Return k.
Proof.
  intros Hx Hy Ox Oy. unfold create_kernel.
  replace (kx <? 0) with false by (symmetry; apply Z.ltb_ge; lia).
  replace (ky <? 0) with false by (symmetry; apply Z.ltb_ge; lia).
  cbn [orb np_zeros].
  replace (ky =? 0) with false by (symmetry; apply Z.eqb_neq; lia).
  replace (kx =? 0) with false by (symmetry; apply Z.eqb_neq; lia).
  assert (Hfit : mask_fits (mkview ky kx 0 kx 1) (ky / 2) (kx / 2) = true).
  { unfold mask_fits. cbn [rows cols].
    rewrite (odd_window ky Hy Oy), (odd_window kx Hx Ox), !Z.eqb_refl.
    reflexivity. }
  rewrite Hfit.
  repeat match goal with
         | |- context [String.eqb method ?s] => destruct (String.eqb method s)
         end; cbn [bind]; eexists; reflexivity.
Qed.

End KernelFacts.

(** *** Buffers and views *)

Module BufferFacts.
Import Kernel.
Local Open Scope Z_scope.

Lemma in_range (n z : Z) : In z (range n) <-> 0 <= z < n.
Proof.
  unfold range. rewrite in_map_iff. split.
  - intros (k & <- & Hk). apply in_seq in Hk. lia.
  - intros Hz. exists (Z.to_nat z). split; [lia |]. apply in_seq. lia.
Qed.

Lemma in_all_cells (nr nc r c : Z) :
  In (r, c) (all_cells nr nc) <-> 0 <= r < nr /\ 0 <= c < nc.
Proof.
  unfold all_cells. rewrite in_flat_map. split.
  - intros (r' & Hr & Hin). apply in_map_iff in Hin.
    destruct Hin as (c' & E & Hc). injection E as <- <-.
    apply in_range in Hr. apply in_range in Hc. now split.
  - intros [Hr Hc]. exists r. split; [now apply in_range |].
    apply in_map. now apply in_range.
Qed.

Lemma length_store (b : buffer) (a x : Z) :
  List.length (store b a x) = List.length b.
Proof. apply length_set_nth. Qed.

Lemma load_store (b : buffer) (a x A : Z) :
  0 <= a < Z.of_nat (List.length b) -> 0 <= A ->
  load (store b a x) A = if a =? A then x else load b A.
Proof.
  intros Ha HA. unfold load, store. rewrite nth_set_nth.
  replace (Z.to_nat a <? List.length b)%nat with true
    by (symmetry; apply Nat.ltb_lt; lia).
  rewrite andb_true_r.
  destruct (Z.eqb_spec a A) as [-> | Hne].
  - now rewrite Nat.eqb_refl.
  - replace (Z.to_nat A =? Z.to_nat a)%nat with false; [reflexivity |].
    symmetry. apply Nat.eqb_neq. lia.
Qed.

Lemma length_assign (v : view) (targets : list (Z * Z)) (x : Z) (b : buffer) :
  List.length (assign v targets x b) = List.length b.
Proof.
  unfold assign. revert b. induction targets as [| t ts IH]; intros b;
    [reflexivity |].
  simpl. now rewrite IH, length_store.
Qed.

(** A cell read after an assignment: the value assigned if the cell is
    among the targets, the former value otherwise. *)
Lemma load_assign (v : view) (targets : list (Z * Z)) (x : Z) (b : buffer)
  (A : Z) :
  (forall rc, In rc targets ->
              0 <= addr v (fst rc) (snd rc) < Z.of_nat (List.length b)) ->
  0 <= A ->
  load (assign v targets x b) A =
  if existsb (fun rc => addr v (fst rc) (snd rc) =? A) targets then x
  else load b A.
Proof.
  unfold assign. revert b. induction targets as [| t ts IH]; intros b Hin HA;
    [reflexivity |].
  cbn [fold_left existsb]. rewrite IH.
  - rewrite load_store by (try apply Hin; try assumption; now left).
    destruct (addr v (fst t) (snd t) =? A); simpl;
      [now destruct (existsb _ ts) | reflexivity].
  - intros rc Hrc. rewrite length_store. apply Hin. now right.
  - exact HA.
Qed.

Section Window.

Variables ny nx : nat.

Let ky := Z.of_nat ny.
Let kx := Z.of_nat nx.
Let kernel := mkview ky kx 0 kx 1.

Let in_window := Kernel.in_window ky kx.

Lemma addr_kernel (r c : Z) : addr kernel r c = r * kx + c.
Proof. unfold addr, kernel. cbn [offset rstride cstride]. lia. Qed.

Lemma addr_in_buffer (rc : Z * Z) :
  in_window rc -> 0 <= addr kernel (fst rc) (snd rc) < ky * kx.
Proof. intros [Hr Hc]. rewrite addr_kernel. nia. Qed.

Lemma addr_injective (rc rc' : Z * Z) :
  in_window rc -> in_window rc' ->
  addr kernel (fst rc) (snd rc) = addr kernel (fst rc') (snd rc') ->
  rc = rc'.
Proof.
  intros [Hr Hc] [Hr' Hc']. rewrite !addr_kernel. intros E.
  destruct rc as [r c], rc' as [r' c']. cbn [fst snd] in *.
  assert (r = r') by nia. subst r'. f_equal. lia.
Qed.

(** Assignment through the kernel's own view, read back at a cell of the
    window. *)
Lemma load_assign_kernel (targets : list (Z * Z)) (x : Z) (b : buffer)
  (a c : nat) (member : bool) :
  List.length b = Z.to_nat (ky * kx) ->
  (forall rc, In rc targets -> in_window rc) ->
  (a < ny)%nat -> (c < nx)%nat ->
  (member = true <-> In (Z.of_nat a, Z.of_nat c) targets) ->
  load (assign kernel targets x b) (addr kernel (Z.of_nat a) (Z.of_nat c)) =
  if member then x else load b (addr kernel (Z.of_nat a) (Z.of_nat c)).
Proof.
  intros Hlen Hin Ha Hc Hmem.
  assert (Hw : in_window (Z.of_nat a, Z.of_nat c))
    by (unfold in_window, Kernel.in_window, ky, kx; cbn [fst snd]; lia).
  rewrite load_assign.
  - replace (existsb _ targets) with member; [reflexivity |].
    apply eq_true_iff_eq. rewrite Hmem, existsb_exists. split.
    + intros H. exists (Z.of_nat a, Z.of_nat c). split; [exact H |].
      apply Z.eqb_refl.
    + intros (rc & Hrc & E). apply Z.eqb_eq in E.
      now rewrite <- (addr_injective rc _ (Hin rc Hrc) Hw E).
  - intros rc Hrc. rewrite Hlen.
    pose proof (addr_in_buffer rc (Hin rc Hrc)). lia.
  - pose proof (addr_in_buffer _ Hw) as H. cbn [fst snd] in H. lia.
Qed.

Lemma tolist_kernel (b : buffer) :
  tolist b kernel =
  tabulate ny nx (fun a c => load b (addr kernel (Z.of_nat a) (Z.of_nat c))).
Proof.
  unfold tolist, tabulate, range. cbn [rows cols kernel].
  unfold ky, kx. rewrite !Nat2Z.id, map_map.
  apply map_ext. intros a. now rewrite map_map.
Qed.

Lemma load_zeros (n : nat) (A : Z) : load (repeat 0 n) A = 0.
Proof. unfold load. apply nth_repeat. Qed.

(** Writing through the flipped view is writing the mirrored cells. *)
Lemma assign_fliplr (targets : list (Z * Z)) (x : Z) (b : buffer) :
  assign (fliplr kernel) targets x b =
  assign kernel (map (fun rc => (fst rc, kx - 1 - snd rc)) targets) x b.
Proof.
  unfold assign. revert b. induction targets as [| t ts IH]; intros b;
    [reflexivity |].
  cbn [fold_left map]. rewrite IH. do 2 f_equal.
  unfold addr, fliplr, kernel. cbn [offset rstride cstride cols fst snd]. lia.
Qed.

End Window.

End BufferFacts.

(** *** The kernels as sets of cells *)

Module KernelShapes.
Import Kernel BufferFacts Terrain.
Local Open Scope string_scope.
Local Open Scope Z_scope.

Lemma half_odd (c : nat) : Z.of_nat (2 * c + 1) / 2 = Z.of_nat c.
Proof.
  pose proof (Z.div_mod (Z.of_nat (2 * c + 1)) 2).
  pose proof (Z.mod_pos_bound (Z.of_nat (2 * c + 1)) 2). lia.
Qed.

Lemma diagonal_index (n m : Z) :
  0 <= m < n -> (m * (n + 1)) / n = m /\ (m * (n + 1)) mod n = m.
Proof.
  intros H. replace (m * (n + 1)) with (m + m * n) by lia.
  rewrite Z.div_add, Z.mod_add by lia.
  rewrite Z.div_small, Z.mod_small by lia. lia.
Qed.

Section Shapes.

Variables cy cx : nat.

Let ny := (2 * cy + 1)%nat.
Let nx := (2 * cx + 1)%nat.
Let ky := Z.of_nat ny.
Let kx := Z.of_nat nx.
Let kernel := mkview ky kx 0 kx 1.
Let b0 := repeat 0 (Z.to_nat (ky * kx)).
Let jy := Z.of_nat cy.
Let jx := Z.of_nat cx.

Lemma length_b0 : List.length b0 = Z.to_nat (ky * kx).
Proof. apply repeat_length. Qed.

(** Reading the kernel after one assignment to a buffer [b]. *)
Lemma shape_after (targets : list (Z * Z)) (x : Z) (b : buffer)
  (member before : nat -> nat -> bool) (vb : Z) :
  List.length b = Z.to_nat (ky * kx) ->
  (forall rc, In rc targets -> in_window ky kx rc) ->
  (forall a c, (a < ny)%nat -> (c < nx)%nat ->
               (member a c = true <-> In (Z.of_nat a, Z.of_nat c) targets)) ->
  (forall a c, (a < ny)%nat -> (c < nx)%nat ->
               load b (addr kernel (Z.of_nat a) (Z.of_nat c)) =
               if before a c then vb else 0) ->
  forall a c, (a < ny)%nat -> (c < nx)%nat ->
    load (assign kernel targets x b) (addr kernel (Z.of_nat a) (Z.of_nat c)) =
    if member a c then x else if before a c then vb else 0.
Proof.
  intros Hlen Hin Hmem Hb a c Ha Hc.
  transitivity (if member a c then x
                else load b (addr kernel (Z.of_nat a) (Z.of_nat c))).
  - exact (load_assign_kernel ny nx targets x b a c (member a c) Hlen Hin
             Ha Hc (Hmem a c Ha Hc)).
  - now rewrite Hb.
Qed.

Lemma kernel_of_buffer (b : buffer) (chi : nat -> nat -> bool) :
  (forall a c, (a < ny)%nat -> (c < nx)%nat ->
               load b (addr kernel (Z.of_nat a) (Z.of_nat c)) =
               if chi a c then 1 else 0) ->
  tolist b kernel = kernel_of ny nx chi.
Proof.
  intros H. unfold kernel, ky, kx. rewrite tolist_kernel.
  unfold kernel_of. apply tabulate_ext. exact H.
Qed.

(** *** queen *)

Lemma queen_shape :
  tolist (assign kernel (all_cells ky kx) 1 b0) kernel =
  kernel_of ny nx chi_queen.
Proof.
  apply kernel_of_buffer. intros a c Ha Hc.
  rewrite (shape_after (all_cells ky kx) 1 b0 chi_queen (fun _ _ => false) 0
             length_b0); try assumption.
  - reflexivity.
  - intros [r c'] H. now apply in_all_cells in H.
  - intros a' c' Ha' Hc'. unfold chi_queen. split; [intros _ | reflexivity].
    apply in_all_cells. unfold ky, kx. lia.
  - intros a' c' _ _. apply load_zeros.
Qed.

(** *** rook *)

Lemma in_row_cells (r c : Z) :
  In (r, c) (row_cells kernel jy) <-> r = jy /\ 0 <= c < kx.
Proof.
  unfold row_cells. cbn [cols kernel]. rewrite in_map_iff. split.
  - intros (c' & E & H). injection E as <- <-. apply in_range in H. now split.
  - intros [-> H]. exists c. split; [reflexivity | now apply in_range].
Qed.

Lemma in_col_cells (r c : Z) :
  In (r, c) (col_cells kernel jx) <-> c = jx /\ 0 <= r < ky.
Proof.
  unfold col_cells. cbn [rows kernel]. rewrite in_map_iff. split.
  - intros (r' & E & H). injection E as <- <-. apply in_range in H. now split.
  - intros [-> H]. exists r. split; [reflexivity | now apply in_range].
Qed.

Lemma rook_shape :
  tolist (assign kernel (col_cells kernel jx) 1
            (assign kernel (row_cells kernel jy) 1 b0)) kernel =
  kernel_of ny nx (chi_rook cy cx).
Proof.
  apply kernel_of_buffer. intros a c Ha Hc.
  rewrite (shape_after (col_cells kernel jx) 1 _
             (fun _ c => (c =? cx)%nat) (fun a _ => (a =? cy)%nat) 1);
    try assumption.
  - unfold chi_rook. now destruct (c =? cx)%nat, (a =? cy)%nat.
  - rewrite length_assign. apply length_b0.
  - intros [r c'] H. apply in_col_cells in H. unfold in_window, jx, kx, nx in *.
    cbn [fst snd]. lia.
  - intros a' c' Ha' Hc'. rewrite in_col_cells, Nat.eqb_eq.
    unfold jx, ky. lia.
  - intros a' c' Ha' Hc'.
    rewrite (shape_after (row_cells kernel jy) 1 b0
               (fun a _ => (a =? cy)%nat) (fun _ _ => false) 0 length_b0);
      try assumption.
    + now destruct (a' =? cy)%nat.
    + intros [r c''] H. apply in_row_cells in H.
      unfold in_window, jy, ky, ny in *. cbn [fst snd]. lia.
    + intros a'' c'' Ha'' Hc''. rewrite in_row_cells, Nat.eqb_eq.
      unfold jy, kx. lia.
    + intros a'' c'' _ _. apply load_zeros.
Qed.

(** *** circle and annulus *)

Lemma in_disc_cells (bound : Z) (strict : bool) (a c : nat) :
  (a < ny)%nat -> (c < nx)%nat ->
  In (Z.of_nat a, Z.of_nat c) (disc_cells jy jx bound strict) <->
  (if strict then sqnorm cy cx a c <? bound else sqnorm cy cx a c <=? bound)
  = true.
Proof.
  intros Ha Hc. unfold disc_cells. rewrite filter_In, in_all_cells.
  cbn [fst snd]. unfold sqnorm, jy, jx. cbv zeta.
  split; [intros [_ H]; exact H | intros H; split; [| exact H]].
  unfold ny, nx in *. lia.
Qed.

Lemma disc_cells_in_window (bound : Z) (strict : bool) (rc : Z * Z) :
  In rc (disc_cells jy jx bound strict) -> in_window ky kx rc.
Proof.
  unfold disc_cells. rewrite filter_In. intros [H _]. destruct rc as [r c].
  apply in_all_cells in H. unfold in_window, ky, kx, ny, nx, jy, jx in *.
  cbn [fst snd]. lia.
Qed.

Lemma circle_shape :
  tolist (assign kernel (disc_cells jy jx (jx * jx) false) 1 b0) kernel =
  kernel_of ny nx (chi_circle cy cx).
Proof.
  apply kernel_of_buffer. intros a c Ha Hc.
  rewrite (shape_after (disc_cells jy jx (jx * jx) false) 1 b0
             (chi_circle cy cx) (fun _ _ => false) 0 length_b0);
    try assumption.
  - reflexivity.
  - apply disc_cells_in_window.
  - intros a' c' Ha' Hc'. rewrite (in_disc_cells _ false a' c' Ha' Hc').
    reflexivity.
  - intros a' c' _ _. apply load_zeros.
Qed.

Lemma annulus_shape :
  tolist (assign kernel (disc_cells jy jx ((jx - 1) * (jx - 1)) true) 0
            (assign kernel (disc_cells jy jx (jx * jx) false) 1 b0)) kernel =
  kernel_of ny nx (chi_annulus cy cx).
Proof.
  apply kernel_of_buffer. intros a c Ha Hc.
  rewrite (shape_after (disc_cells jy jx ((jx - 1) * (jx - 1)) true) 0 _
             (fun a c => sqnorm cy cx a c <? (jx - 1) * (jx - 1))
             (chi_circle cy cx) 1);
    try assumption.
  - unfold chi_annulus, jx.
    now destruct (sqnorm cy cx a c <? _), (chi_circle cy cx a c).
  - rewrite length_assign. apply length_b0.
  - apply disc_cells_in_window.
  - intros a' c' Ha' Hc'. rewrite (in_disc_cells _ true a' c' Ha' Hc').
    reflexivity.
  - intros a' c' Ha' Hc'.
    rewrite (shape_after (disc_cells jy jx (jx * jx) false) 1 b0
               (chi_circle cy cx) (fun _ _ => false) 0 length_b0);
      try assumption.
    + now destruct (chi_circle cy cx a' c').
    + apply disc_cells_in_window.
    + intros a'' c'' Ha'' Hc''.
      rewrite (in_disc_cells _ false a'' c'' Ha'' Hc''). reflexivity.
    + intros a'' c'' _ _. apply load_zeros.
Qed.

(** *** bishop, on a square window *)

Hypothesis square : cy = cx.

Lemma diagonal_targets (v : view) :
  rows v = kx -> cols v = kx ->
  forall x b,
    fill_diagonal v x b = assign v (map (fun m => (m, m)) (range kx)) x b.
Proof.
  intros Hr Hc x b. unfold fill_diagonal. rewrite Hr, Hc. f_equal.
  rewrite Z.min_id.
  replace (kx * kx + (kx + 1) - 1) with (kx * (kx + 1)) by lia.
  rewrite Z.div_mul by (unfold kx; lia).
  rewrite map_map. apply map_ext_in. intros m Hm. apply in_range in Hm.
  destruct (diagonal_index kx m Hm) as [-> ->]. reflexivity.
Qed.

Lemma in_diagonal (r c : Z) :
  In (r, c) (map (fun m => (m, m)) (range kx)) <-> r = c /\ 0 <= r < kx.
Proof.
  rewrite in_map_iff. split.
  - intros (m & E & H). injection E as <- <-. apply in_range in H. now split.
  - intros [<- H]. exists r. split; [reflexivity | now apply in_range].
Qed.

Lemma in_antidiagonal (r c : Z) :
  In (r, c) (map (fun rc => (fst rc, kx - 1 - snd rc))
                 (map (fun m => (m, m)) (range kx))) <->
  c = kx - 1 - r /\ 0 <= r < kx.
Proof.
  rewrite map_map. cbn [fst snd]. rewrite in_map_iff. split.
  - intros (m & E & H). injection E as <- <-. apply in_range in H. now split.
  - intros [-> H]. exists r. split; [reflexivity | now apply in_range].
Qed.

Lemma bishop_shape :
  tolist (fill_diagonal (fliplr kernel) 1 (fill_diagonal kernel 1 b0)) kernel =
  kernel_of ny nx (chi_bishop cx).
Proof.
  assert (Hk : ky = kx) by (unfold ky, kx, ny, nx; rewrite square; reflexivity).
  rewrite (diagonal_targets kernel) by (cbn [rows cols kernel]; auto).
  rewrite (diagonal_targets (fliplr kernel))
    by (cbn [rows cols kernel fliplr]; auto).
  change (fliplr kernel) with (fliplr (mkview (Z.of_nat ny) (Z.of_nat nx) 0
                                              (Z.of_nat nx) 1)).
  rewrite assign_fliplr. fold kx ky kernel.
  apply kernel_of_buffer. intros a c Ha Hc.
  rewrite (shape_after _ 1 _ (fun a c => (a + c =? 2 * cx)%nat)
             (fun a c => (a =? c)%nat) 1);
    try assumption.
  - unfold chi_bishop. now destruct (a + c =? 2 * cx)%nat, (a =? c)%nat.
  - rewrite length_assign. apply length_b0.
  - intros [r c'] H. apply in_antidiagonal in H.
    unfold in_window. cbn [fst snd]. lia.
  - intros a' c' Ha' Hc'. rewrite in_antidiagonal, Nat.eqb_eq.
    unfold kx, nx. lia.
  - intros a' c' Ha' Hc'.
    rewrite (shape_after _ 1 b0 (fun a c => (a =? c)%nat)
               (fun _ _ => false) 0 length_b0);
      try assumption.
    + now destruct (a' =? c')%nat.
    + intros [r c''] H. apply in_diagonal in H.
      unfold in_window. cbn [fst snd]. lia.
    + intros a'' c'' Ha'' Hc''. rewrite in_diagonal, Nat.eqb_eq.
      unfold kx, nx in *. lia.
    + intros a'' c'' _ _. apply load_zeros.
Qed.

End Shapes.

End KernelShapes.

(** ** Sums over a window and the focal mean *)

Module SumFacts.
Import Terrain.
Local Open Scope R_scope.

Lemma Rsum_app (l m : list R) : Rsum (l ++ m) = Rsum l + Rsum m.
Proof.
  induction l as [| x l IH]; simpl; [lra | rewrite IH; lra].
Qed.

Lemma Rsum_seq (f : nat -> R) (n : nat) : Rsum (map f (seq 0 n)) = sumn n f.
Proof.
  induction n as [| n IH]; [reflexivity |].
  rewrite seq_S, map_app, Rsum_app, IH. simpl. lra.
Qed.

Lemma sumn_ext (n : nat) (f g : nat -> R) :
  (forall a, (a < n)%nat -> f a = g a) -> sumn n f = sumn n g.
Proof.
  induction n as [| n IH]; intros H; simpl; [reflexivity |].
  rewrite IH by (intros a Ha; apply H; lia). rewrite (H n) by lia.
  reflexivity.
Qed.

Lemma sumn_shift (n : nat) (f : nat -> R) :
  sumn (S n) f = f O + sumn n (fun a => f (S a)).
Proof.
  induction n as [| n IH]; [simpl; lra |].
  change (sumn (S (S n)) f) with (sumn (S n) f + f (S n)).
  rewrite IH. simpl. lra.
Qed.

Lemma sumn_rev (n : nat) (f : nat -> R) :
  sumn n (fun a => f (n - 1 - a)%nat) = sumn n f.
Proof.
  induction n as [| n IH]; [reflexivity |].
  rewrite sumn_shift. simpl sumn at 2. rewrite <- IH.
  replace (S n - 1 - 0)%nat with n by lia.
  rewrite (sumn_ext n (fun a => f (S n - 1 - S a)%nat)
                    (fun a => f (n - 1 - a)%nat))
    by (intros a Ha; f_equal; lia).
  lra.
Qed.

Lemma sumn_plus (n : nat) (f g : nat -> R) :
  sumn n (fun a => f a + g a) = sumn n f + sumn n g.
Proof. induction n as [| n IH]; simpl; [lra | rewrite IH; lra]. Qed.

Lemma sumn_scal (n : nat) (c : R) (f : nat -> R) :
  sumn n (fun a => c * f a) = c * sumn n f.
Proof. induction n as [| n IH]; simpl; [lra | rewrite IH; lra]. Qed.

Lemma sumn_opp (n : nat) (f : nat -> R) :
  sumn n (fun a => - f a) = - sumn n f.
Proof. induction n as [| n IH]; simpl; [lra | rewrite IH; lra]. Qed.

Lemma sumn_zero (n : nat) : sumn n (fun _ => 0) = 0.
Proof. induction n as [| n IH]; simpl; [lra | rewrite IH; lra]. Qed.

Lemma sumn_nonneg (n : nat) (f : nat -> R) :
  (forall a, (a < n)%nat -> 0 <= f a) -> 0 <= sumn n f.
Proof.
  induction n as [| n IH]; intros H; simpl; [lra |].
  assert (0 <= sumn n f) by (apply IH; intros a Ha; apply H; lia).
  assert (0 <= f n) by (apply H; lia). lra.
Qed.

Lemma sumn_ge_term (n : nat) (f : nat -> R) (k : nat) :
  (forall a, (a < n)%nat -> 0 <= f a) -> (k < n)%nat -> f k <= sumn n f.
Proof.
  induction n as [| n IH]; intros H Hk; [lia |]. simpl.
  assert (0 <= sumn n f) by (apply sumn_nonneg; intros a Ha; apply H; lia).
  assert (0 <= f n) by (apply H; lia).
  destruct (Nat.eq_dec k n) as [-> | Hne]; [lra |].
  assert (f k <= sumn n f) by (apply IH; [intros a Ha; apply H; lia | lia]).
  lra.
Qed.

(** Double sums over a window. *)

Lemma sum2_ext (ny nx : nat) (f g : nat -> nat -> R) :
  (forall a b, (a < ny)%nat -> (b < nx)%nat -> f a b = g a b) ->
  sum2 ny nx f = sum2 ny nx g.
Proof.
  intros H. unfold sum2. apply sumn_ext. intros a Ha.
  apply sumn_ext. intros b Hb. now apply H.
Qed.

Lemma sum2_rev (ny nx : nat) (f : nat -> nat -> R) :
  sum2 ny nx (fun a b => f (ny - 1 - a)%nat (nx - 1 - b)%nat) = sum2 ny nx f.
Proof.
  unfold sum2.
  rewrite (sumn_rev ny (fun a => sumn nx (fun b => f a (nx - 1 - b)%nat))).
  apply sumn_ext. intros a _. apply (sumn_rev nx (fun b => f a b)).
Qed.

Lemma sum2_plus (ny nx : nat) (f g : nat -> nat -> R) :
  sum2 ny nx (fun a b => f a b + g a b) = sum2 ny nx f + sum2 ny nx g.
Proof.
  unfold sum2. rewrite <- sumn_plus. apply sumn_ext. intros a _.
  apply sumn_plus.
Qed.

Lemma sum2_scal (ny nx : nat) (c : R) (f : nat -> nat -> R) :
  sum2 ny nx (fun a b => c * f a b) = c * sum2 ny nx f.
Proof.
  unfold sum2. rewrite <- sumn_scal. apply sumn_ext. intros a _.
  apply sumn_scal.
Qed.



End SumFacts.

Module ConvFacts.
Import Num NumFacts Terrain SumFacts.
Local Open Scope R_scope.

Lemma Rsum_flat_map {A B : Type} (v : B -> R) (F : A -> list B) (l : list A) :
  Rsum (map v (flat_map F l)) = Rsum (map (fun a => Rsum (map v (F a))) l).
Proof.
  induction l as [| a l IH]; [reflexivity |].
  simpl. now rewrite map_app, Rsum_app, IH.
Qed.

Lemma filter_flat_map {A B : Type} (P : B -> bool) (F : A -> list B)
  (l : list A) :
  filter P (flat_map F l) = flat_map (fun a => filter P (F a)) l.
Proof.
  induction l as [| a l IH]; [reflexivity |].
  simpl. now rewrite filter_app, IH.
Qed.

Lemma Rsum_filter_map {A B : Type} (v : B -> R) (P : B -> bool) (G : A -> B)
  (l : list A) :
  Rsum (map v (filter P (map G l))) =
  Rsum (map (fun b => if P (G b) then v (G b) else 0) l).
Proof.
  induction l as [| b l IH]; [reflexivity |].
  simpl. destruct (P (G b)); simpl; rewrite IH; lra.
Qed.

(** The sum of a function over the taps of a tabulated window. *)
Lemma Rsum_taps {B : Type} (v : nat * nat * B -> R) (P : nat * nat * B -> bool)
  (ny nx : nat) (g : nat -> nat -> B) :
  Rsum (map v (filter P (enumerate (tabulate ny nx g)))) =
  sum2 ny nx (fun a b => if P (a, b, g a b) then v (a, b, g a b) else 0).
Proof.
  rewrite enumerate_tabulate, filter_flat_map, Rsum_flat_map.
  unfold sum2. rewrite <- Rsum_seq. f_equal. apply map_ext. intros a.
  rewrite Rsum_filter_map. apply Rsum_seq.
Qed.

Lemma in_taps {B : Type} (P : nat * nat * B -> bool) (ny nx : nat)
  (g : nat -> nat -> B) (a b : nat) (w : B) :
  In (a, b, w) (filter P (enumerate (tabulate ny nx g))) ->
  (a < ny)%nat /\ (b < nx)%nat /\ w = g a b /\ P (a, b, w) = true.
Proof.
  intros H. apply filter_In in H. destruct H as [H HP].
  apply in_enumerate in H.
  assert (Ha : (a < ny)%nat).
  { unfold cell in H. destruct (nth_error (tabulate ny nx g) a) eqn:E;
      [| discriminate H].
    assert (Hlt : (a < List.length (tabulate ny nx g))%nat)
      by (apply nth_error_Some; congruence).
    unfold tabulate in Hlt. now rewrite length_map, length_seq in Hlt. }
  assert (Hb : (b < nx)%nat).
  { unfold cell, tabulate in H. rewrite nth_error_map, nth_error_seq in H.
    replace (a <? ny)%nat with true in H by (symmetry; now apply Nat.ltb_lt).
    cbn [option_map] in H.
    assert (Hlt : (b < List.length (map (fun b0 => g (0 + a)%nat b0) (seq 0 nx)))%nat)
      by (apply nth_error_Some; congruence).
    now rewrite length_map, length_seq in Hlt. }
  rewrite (cell_tabulate ny nx g a b Ha Hb) in H. injection H as <-.
  repeat split; assumption.
Qed.

(** The accumulation of a correlation over taps that all carry the weight
    [u] and all read finite values. *)
Lemma fold_taps (arr : grid xreal) (cval : xreal) (cy cx : Z) (i j : nat)
  (u : R) (val : nat -> nat -> R) (ts : list (nat * nat * xreal)) (c : R) :
  (forall a b wt, In (a, b, wt) ts ->
     wt = Fin u /\
     fetch arr cval (Z.of_nat i + Z.of_nat a - cy) (Z.of_nat j + Z.of_nat b - cx)
     = Fin (val a b)) ->
  fold_left
    (fun tmp t =>
       let '(a, b, wt) := t in
       xadd tmp (xmul wt (fetch arr cval (Z.of_nat i + Z.of_nat a - cy)
                                (Z.of_nat j + Z.of_nat b - cx))))
    ts (Fin c)
  = Fin (c + Rsum (map (fun t => u * val (fst (fst t)) (snd (fst t))) ts)).
Proof.
  revert c. induction ts as [| [[a b] wt] ts IH]; intros c H.
  - simpl. f_equal. lra.
  - cbn [fold_left map Rsum fold_right fst snd].
    destruct (H a b wt (or_introl eq_refl)) as [-> ->].
    cbn [xmul xadd]. rewrite IH by (intros a' b' wt' Hin; apply H; now right).
    f_equal. unfold Rsum. lra.
Qed.

Lemma fold_from_nan (arr : grid xreal) (cval : xreal) (cy cx : Z) (i j : nat)
  (ts : list (nat * nat * xreal)) :
  fold_left
    (fun tmp t =>
       let '(a, b, wt) := t in
       xadd tmp (xmul wt (fetch arr cval (Z.of_nat i + Z.of_nat a - cy)
                                (Z.of_nat j + Z.of_nat b - cx))))
    ts NaN
  = NaN.
Proof.
  induction ts as [| [[a b] wt] ts IH]; [reflexivity |].
  cbn [fold_left xadd]. exact IH.
Qed.

(** One tap that reads not-a-number makes the whole accumulation
    not-a-number. *)
Lemma fold_taps_nan (arr : grid xreal) (cval : xreal) (cy cx : Z) (i j : nat)
  (ts : list (nat * nat * xreal)) (acc : xreal) (a b : nat) (wt : xreal) :
  In (a, b, wt) ts ->
  fetch arr cval (Z.of_nat i + Z.of_nat a - cy) (Z.of_nat j + Z.of_nat b - cx)
  = NaN ->
  fold_left
    (fun tmp t =>
       let '(a, b, wt) := t in
       xadd tmp (xmul wt (fetch arr cval (Z.of_nat i + Z.of_nat a - cy)
                                (Z.of_nat j + Z.of_nat b - cx))))
    ts acc
  = NaN.
Proof.
  revert acc. induction ts as [| [[a' b'] wt'] ts IH]; intros acc Hin Hf;
    [destruct Hin |].
  cbn [fold_left]. destruct Hin as [E | Hin].
  - injection E as -> -> ->. rewrite Hf, xmul_nan_r, xadd_nan_r.
    apply fold_from_nan.
  - now apply IH.
Qed.

Lemma correlate_cell (arr weights : grid xreal) (cval : xreal) (cy cx : Z)
  (i j : nat) :
  cell (correlate arr weights cval cy cx) i j =
  option_map
    (fun _ =>
       fold_left
         (fun tmp t =>
            let '(a, b, wt) := t in
            xadd tmp (xmul wt (fetch arr cval (Z.of_nat i + Z.of_nat a - cy)
                                     (Z.of_nat j + Z.of_nat b - cx))))
         (filter (fun t => significant (snd t)) (enumerate weights)) (Fin 0))
    (cell arr i j).
Proof. unfold correlate. now rewrite cell_gmapi. Qed.

Lemma DBL_EPSILON_pos : 0 < DBL_EPSILON.
Proof. unfold DBL_EPSILON. apply Rinv_0_lt_compat. apply pow_lt. lra. Qed.

Lemma insignificant_zero : significant (Fin 0) = false.
Proof.
  unfold significant. rewrite Rabs_R0.
  now rewrite (Rcmp_Lt _ _ DBL_EPSILON_pos).
Qed.

Lemma centre_odd (c : nat) : centre (2 * c + 1) = Z.of_nat c.
Proof.
  unfold centre.
  replace (Z.of_nat (2 * c + 1)) with (1 + 2 * Z.of_nat c)%Z by lia.
  rewrite Z.even_add_mul_2. cbn [Z.even].
  pose proof (Z.div_mod (1 + 2 * Z.of_nat c) 2).
  pose proof (Z.mod_pos_bound (1 + 2 * Z.of_nat c) 2). lia.
Qed.

Lemma IZR_fold_add (l : list Z) (z : Z) :
  IZR (fold_left Z.add l z) = IZR z + Rsum (map IZR l).
Proof.
  revert z. induction l as [| x l IH]; intros z; simpl; [lra |].
  rewrite IH, plus_IZR. lra.
Qed.

(** The sum of a 0/1 kernel counts its cells. *)
Lemma ksum_kernel_of (ny nx : nat) (chi : nat -> nat -> bool) :
  IZR (Kernel.ksum (kernel_of ny nx chi)) = sum2 ny nx (ind chi).
Proof.
  unfold Kernel.ksum, kernel_of. rewrite IZR_fold_add.
  unfold tabulate. rewrite <- flat_map_concat_map, Rsum_flat_map.
  unfold sum2. rewrite <- Rsum_seq. rewrite Rplus_0_l. f_equal.
  apply map_ext. intros a. rewrite map_map, Rsum_seq.
  apply sumn_ext. intros b _. unfold ind. now destruct (chi a b).
Qed.

Section Window.

Variables cy cx : nat.
Variable chi : nat -> nat -> bool.

Let ny := (2 * cy + 1)%nat.
Let nx := (2 * cx + 1)%nat.
Let N := sum2 ny nx (ind chi).
Let taps := reflected ny nx chi.

Hypothesis kernel_not_empty : 0 < N.

(** The normalised weights, in the order in which the correlation reads
    them. *)
Let weight (a b : nat) : xreal :=
  xdiv (Fin (IZR (if taps a b then 1 else 0)))
       (Fin (IZR (Kernel.ksum (kernel_of ny nx chi)))).

Lemma weight_value (a b : nat) :
  weight a b = Fin (if taps a b then 1 / N else 0).
Proof.
  unfold weight. rewrite ksum_kernel_of. fold ny nx N.
  rewrite xdiv_fin by lra. f_equal.
  destruct (taps a b); [reflexivity | unfold Rdiv; lra].
Qed.

Lemma taps_count : sum2 ny nx (ind taps) = N.
Proof. apply (sum2_rev ny nx (ind chi)). Qed.

Lemma focal_mean_unfold (arr : grid xreal) :
  focal_mean arr (kernel_of ny nx chi) =
  correlate arr (tabulate ny nx weight) NaN (Z.of_nat cy) (Z.of_nat cx).
Proof.
  unfold focal_mean, convolve. cbv zeta.
  assert (E : gmap (fun k => xdiv (Fin (IZR k))
                                (Fin (IZR (Kernel.ksum (kernel_of ny nx chi)))))
                   (kernel_of ny nx chi)
              = tabulate ny nx
                  (fun a b =>
                     xdiv (Fin (IZR (if chi a b then 1 else 0)))
                          (Fin (IZR (Kernel.ksum (kernel_of ny nx chi))))))
    by (unfold kernel_of at 2; now rewrite gmap_tabulate).
  rewrite E, height_tabulate, width_tabulate by (unfold ny; lia).
  rewrite flip_tabulate.
  assert (Hcy : centre ny = Z.of_nat cy) by apply centre_odd.
  assert (Hcx : centre nx = Z.of_nat cx) by apply centre_odd.
  rewrite Hcy, Hcx. reflexivity.
Qed.

Lemma taps_on_kernel (a b : nat) (wt : xreal) :
  In (a, b, wt) (filter (fun t => significant (snd t))
                        (enumerate (tabulate ny nx weight))) ->
  (a < ny)%nat /\ (b < nx)%nat /\ taps a b = true /\
  wt = Fin (1 / N) /\ significant (Fin (1 / N)) = true.
Proof.
  intros Hin. apply in_taps in Hin.
  destruct Hin as (Ha & Hb & -> & Hsig). cbn [snd] in Hsig.
  rewrite weight_value in *. destruct (taps a b).
  - repeat split; assumption.
  - rewrite insignificant_zero in Hsig. discriminate Hsig.
Qed.

(** Were the weights too small to be kept, the focal mean would be 0. *)
Lemma focal_mean_insignificant (arr : grid xreal) (i j : nat) (x : xreal) :
  significant (Fin (1 / N)) = false ->
  cell arr i j = Some x ->
  cell (focal_mean arr (kernel_of ny nx chi)) i j = Some (Fin 0).
Proof.
  intros Esig Hx. rewrite focal_mean_unfold, correlate_cell, Hx.
  cbn [option_map]. f_equal.
  destruct (filter (fun t => significant (snd t))
                   (enumerate (tabulate ny nx weight)))
    as [| [[a b] wt] ts'] eqn:Ets; [reflexivity |].
  destruct (taps_on_kernel a b wt) as (_ & _ & _ & _ & Habs);
    [rewrite Ets; now left | congruence].
Qed.

(** The focal mean at a cell whose window reads the plane
    [p * row + q * column + r] on every cell of the kernel: the value of the
    plane at the cell, plus the drift of the kernel. *)
Lemma focal_mean_plane_cell (arr : grid xreal) (p q r : R) (i j : nat)
  (x : xreal) :
  significant (Fin (1 / N)) = true ->
  cell arr i j = Some x ->
  (forall a b, (a < ny)%nat -> (b < nx)%nat -> taps a b = true ->
     fetch arr NaN (Z.of_nat i + Z.of_nat a - Z.of_nat cy)
                   (Z.of_nat j + Z.of_nat b - Z.of_nat cx)
     = Fin (p * (INR i + INR a - INR cy) + q * (INR j + INR b - INR cx) + r)) ->
  cell (focal_mean arr (kernel_of ny nx chi)) i j =
  Some (Fin (p * INR i + q * INR j + (r + drift cy cx chi p q))).
Proof.
  intros Esig Hx Hwin. rewrite focal_mean_unfold, correlate_cell, Hx.
  cbn [option_map]. f_equal.
  set (val := fun a b : nat =>
                p * (INR i + INR a - INR cy) + q * (INR j + INR b - INR cx) + r).
  rewrite (fold_taps arr NaN (Z.of_nat cy) (Z.of_nat cx) i j (1 / N) val).
  - f_equal. rewrite Rsum_taps. cbn [fst snd].
    rewrite (sum2_ext ny nx _
               (fun a b => (1 / N * (p * INR i + q * INR j + r)) * ind taps a b
                           + ((1 / N * p) * (ind taps a b * (INR a - INR cy))
                              + (1 / N * q) * (ind taps a b * (INR b - INR cx))))).
    + rewrite sum2_plus, sum2_plus, !sum2_scal, taps_count.
      unfold drift. fold ny nx N taps. field. lra.
    + intros a b Ha Hb. rewrite weight_value. unfold ind, val.
      destruct (taps a b).
      * rewrite Esig. lra.
      * rewrite insignificant_zero. lra.
  - intros a b wt Hin.
    destruct (taps_on_kernel a b wt Hin) as (Ha & Hb & Hc & -> & _).
    split; [reflexivity |]. now apply Hwin.
Qed.

(** The focal mean is not-a-number at a cell whose window reads
    not-a-number on a cell of the kernel: outside the raster, for one. *)
Lemma focal_mean_nan_cell (arr : grid xreal) (i j a b : nat) (x : xreal) :
  significant (Fin (1 / N)) = true ->
  cell arr i j = Some x ->
  (a < ny)%nat -> (b < nx)%nat -> taps a b = true ->
  fetch arr NaN (Z.of_nat i + Z.of_nat a - Z.of_nat cy)
                (Z.of_nat j + Z.of_nat b - Z.of_nat cx) = NaN ->
  cell (focal_mean arr (kernel_of ny nx chi)) i j = Some NaN.
Proof.
  intros Esig Hx Ha Hb Hc Hf. rewrite focal_mean_unfold, correlate_cell, Hx.
  cbn [option_map]. f_equal.
  apply fold_taps_nan with a b (weight a b); [| exact Hf].
  apply filter_In. split.
  - apply in_enumerate. now apply cell_tabulate.
  - cbn [snd]. now rewrite weight_value, Hc.
Qed.

(** *** The plane *)

Variables H W : nat.
Variables p q r : R.

Let dem := plane H W p q r.
Let kernel := kernel_of ny nx chi.
Let smoothed_dem := focal_mean dem kernel.
Let d := drift cy cx chi p q.

Lemma cell_plane (r' : R) (i j : nat) :
  (i < H)%nat -> (j < W)%nat ->
  cell (plane H W p q r') i j = Some (Fin (p * INR i + q * INR j + r')).
Proof. intros Hi Hj. unfold plane. now rewrite cell_tabulate. Qed.

(** Reading an array at the offset [(a, b)] of the window centred on
    [(i, j)], when the window lies inside the array. *)
Lemma fetch_inside (arr : grid xreal) (i j a b : nat) :
  (cy <= i)%nat -> (cx <= j)%nat ->
  fetch arr NaN (Z.of_nat i + Z.of_nat a - Z.of_nat cy)
                (Z.of_nat j + Z.of_nat b - Z.of_nat cx)
  = match cell arr (i + a - cy) (j + b - cx) with
    | Some x => x
    | None => NaN
    end.
Proof.
  intros Hi Hj. unfold fetch.
  replace (Z.of_nat i + Z.of_nat a - Z.of_nat cy)%Z
    with (Z.of_nat (i + a - cy)) by lia.
  replace (Z.of_nat j + Z.of_nat b - Z.of_nat cx)%Z
    with (Z.of_nat (j + b - cx)) by lia.
  rewrite !Nat2Z.id.
  replace (Z.of_nat (i + a - cy) <? 0)%Z with false
    by (symmetry; apply Z.ltb_ge; lia).
  replace (Z.of_nat (j + b - cx) <? 0)%Z with false
    by (symmetry; apply Z.ltb_ge; lia).
  reflexivity.
Qed.

Lemma INR_offset (i a c : nat) :
  (c <= i)%nat -> INR (i + a - c) = INR i + INR a - INR c.
Proof. intros Hc. rewrite minus_INR by lia. now rewrite plus_INR. Qed.

(** The smoothed raster is the plane, moved by the drift, wherever the
    window fits. *)
Lemma smoothed_plane (i j : nat) :
  significant (Fin (1 / N)) = true ->
  (cy <= i)%nat -> (i + cy < H)%nat -> (cx <= j)%nat -> (j + cx < W)%nat ->
  cell smoothed_dem i j = Some (Fin (p * INR i + q * INR j + (r + d))).
Proof.
  intros Esig Hi1 Hi2 Hj1 Hj2. unfold smoothed_dem, kernel, dem.
  apply focal_mean_plane_cell with (Fin (p * INR i + q * INR j + r)).
  - exact Esig.
  - apply cell_plane; lia.
  - intros a b Ha Hb _. rewrite fetch_inside by assumption.
    unfold ny in Ha. unfold nx in Hb.
    rewrite cell_plane by lia. now rewrite !INR_offset.
Qed.

(** The TPI of a plane is minus the drift of the kernel wherever the window
    of the second focal mean reads smoothed cells only. *)
Lemma tpi_plane (i j : nat) :
  (2 * cy <= i)%nat -> (i + 2 * cy < H)%nat ->
  (2 * cx <= j)%nat -> (j + 2 * cx < W)%nat ->
  cell (gmap2 xsub smoothed_dem (focal_mean smoothed_dem kernel)) i j
  = Some (Fin (if significant (Fin (1 / N)) then - d else 0)).
Proof.
  intros Hi1 Hi2 Hj1 Hj2. rewrite cell_gmap2.
  destruct (significant (Fin (1 / N))) eqn:Esig.
  - rewrite (smoothed_plane i j Esig) by lia.
    unfold kernel.
    rewrite (focal_mean_plane_cell smoothed_dem p q (r + d) i j
               (Fin (p * INR i + q * INR j + (r + d))) Esig).
    + cbn [xsub xopp xadd]. do 2 f_equal. fold d. lra.
    + apply smoothed_plane; [exact Esig | lia | lia | lia | lia].
    + intros a b Ha Hb _. rewrite fetch_inside by lia.
      unfold ny in Ha. unfold nx in Hb.
      rewrite (smoothed_plane (i + a - cy) (j + b - cx) Esig) by lia.
      rewrite !INR_offset by lia. reflexivity.
  - assert (E1 : cell smoothed_dem i j = Some (Fin 0)).
    { unfold smoothed_dem, kernel.
      apply focal_mean_insignificant with (Fin (p * INR i + q * INR j + r));
        [exact Esig | apply cell_plane; lia]. }
    rewrite E1. unfold kernel.
    rewrite (focal_mean_insignificant smoothed_dem i j (Fin 0) Esig E1).
    cbn [xsub xopp xadd]. do 2 f_equal. lra.
Qed.



End Window.

End ConvFacts.

(** ** Multi-scale terrain indices *)

Module TerrainFacts.
Import Num NumFacts Kernel KernelFacts Terrain.
Local Open Scope string_scope.
Local Open Scope R_scope.

Lemma not_window_error_return {A : Type} (a : A) : ~ window_error (Return a).
Proof. intros [H | H]; discriminate H. Qed.

Lemma not_window_error_too_small {A : Type} :
  ~ window_error (@Raise A too_small).
Proof. intros [H | H]; discriminate H. Qed.

(** C5. [terrain_indices] answers with one of the two errors of its window
    check exactly when a side of the window is even or the smaller side is
    below 3, whatever the raster, the unit and the method are; on an odd
    window of sides at least 3 neither error is raised. *)
Theorem terrain_indices_window_check (filled_dem : grid xreal) (w : Z * Z)
  (unit method : string) :
  window_error (terrain_indices filled_dem w unit method) <-> invalid_window w.
Proof.
  unfold terrain_indices, invalid_window.
  destruct (Z.min (fst w) (snd w) <? 3)%Z eqn:Emin.
  { apply Z.ltb_lt in Emin. split; [intros _; now right; right | intros _; now left]. }
  apply Z.ltb_ge in Emin.
  destruct ((fst w mod 2 =? 0) || (snd w mod 2 =? 0))%Z eqn:Epar.
  { split; [intros _ | intros _; now right].
    apply orb_true_iff in Epar. rewrite !Z.eqb_eq in Epar.
    rewrite (Zmod_even (fst w)), (Zmod_even (snd w)) in Epar.
    destruct (Z.even (fst w)), (Z.even (snd w)); try (now left);
      try (right; now left).
    destruct Epar; discriminate. }
  apply orb_false_iff in Epar. rewrite !Z.eqb_neq in Epar.
  destruct Epar as [Ox Oy].
  split.
  - intros Herr. exfalso. revert Herr.
    destruct w as [kx ky]. cbn [fst snd] in *.
    destruct (create_kernel_returns kx ky method) as [k ->]; try lia.
    cbn [bind].
    destruct (np_gradient (focal_mean filled_dem k)) as [[dz_dx dz_dy] | e] eqn:Eg.
    + cbn [bind]. apply not_window_error_return.
    + cbn [bind]. unfold np_gradient in Eg.
      destruct ((height (focal_mean filled_dem k) <? 2)%nat
                || (width (focal_mean filled_dem k) <? 2)%nat);
        [| discriminate Eg].
      injection Eg as <-. apply not_window_error_too_small.
  - intros [He | [He | Hlt]]; [| | lia].
    + rewrite Zmod_even, He in Ox. now elim Ox.
    + rewrite Zmod_even, He in Oy. now elim Oy.
Qed.

End TerrainFacts.

Module ShapeFacts.
Import Kernel KernelFacts BufferFacts KernelShapes Terrain SumFacts.
Local Open Scope string_scope.

Lemma create_kernel_shape (cy cx : nat) (method : string) :
  (method = "bishop" -> cy = cx) ->
  create_kernel (Z.of_nat (2 * cx + 1), Z.of_nat (2 * cy + 1)) method =
  Return (kernel_of (2 * cy + 1) (2 * cx + 1) (chi_of method cy cx)).
Proof.
  intros Hsq. unfold create_kernel, chi_of, np_zeros.
  replace (Z.of_nat (2 * cx + 1) <? 0)%Z with false
    by (symmetry; apply Z.ltb_ge; lia).
  replace (Z.of_nat (2 * cy + 1) <? 0)%Z with false
    by (symmetry; apply Z.ltb_ge; lia).
  cbn [orb]. rewrite !half_odd.
  replace (Z.of_nat (2 * cy + 1) =? 0)%Z with false
    by (symmetry; apply Z.eqb_neq; lia).
  replace (Z.of_nat (2 * cx + 1) =? 0)%Z with false
    by (symmetry; apply Z.eqb_neq; lia).
  assert (Hfit : mask_fits (mkview (Z.of_nat (2 * cy + 1)) (Z.of_nat (2 * cx + 1))
                                   0 (Z.of_nat (2 * cx + 1)) 1)
                           (Z.of_nat cy) (Z.of_nat cx) = true).
  { unfold mask_fits. cbn [rows cols].
    apply andb_true_iff. split; apply Z.eqb_eq; lia. }
  rewrite Hfit.
  destruct (String.eqb_spec method "queen") as [_ | _];
    [cbn [bind]; f_equal; apply queen_shape |].
  destruct (String.eqb_spec method "rook") as [_ | _];
    [cbn [bind]; f_equal; apply rook_shape |].
  destruct (String.eqb_spec method "bishop") as [E | _];
    [cbn [bind]; f_equal; apply bishop_shape; now apply Hsq |].
  destruct (String.eqb_spec method "circle") as [_ | _];
    [cbn [bind]; f_equal; apply circle_shape |].
  destruct (String.eqb_spec method "annulus") as [_ | _];
    [cbn [bind]; f_equal; apply annulus_shape |].
  cbn [bind]. f_equal. apply kernel_of_buffer. intros a c _ _.
  apply load_zeros.
Qed.

Lemma sqnorm_reflect (cy cx a b : nat) :
  (a < 2 * cy + 1)%nat -> (b < 2 * cx + 1)%nat ->
  sqnorm cy cx (2 * cy + 1 - 1 - a) (2 * cx + 1 - 1 - b) = sqnorm cy cx a b.
Proof.
  intros Ha Hb. unfold sqnorm. cbv zeta.
  replace (Z.of_nat (2 * cy + 1 - 1 - a) - Z.of_nat cy)%Z
    with (- (Z.of_nat a - Z.of_nat cy))%Z by lia.
  replace (Z.of_nat (2 * cx + 1 - 1 - b) - Z.of_nat cx)%Z
    with (- (Z.of_nat b - Z.of_nat cx))%Z by lia.
  ring.
Qed.

(** Every kernel of the list is its own reflection through the centre. *)
Lemma chi_of_symmetric (cy cx : nat) (method : string) :
  (method = "bishop" -> cy = cx) ->
  forall a b, (a < 2 * cy + 1)%nat -> (b < 2 * cx + 1)%nat ->
    chi_of method cy cx (2 * cy + 1 - 1 - a)%nat (2 * cx + 1 - 1 - b)%nat
    = chi_of method cy cx a b.
Proof.
  intros Hsq a b Ha Hb. unfold chi_of.
  destruct (String.eqb_spec method "queen") as [_ | _]; [reflexivity |].
  destruct (String.eqb_spec method "rook") as [_ | _].
  { unfold chi_rook. f_equal; apply eq_true_iff_eq; rewrite !Nat.eqb_eq; lia. }
  destruct (String.eqb_spec method "bishop") as [E | _].
  { specialize (Hsq E). subst cy. unfold chi_bishop.
    f_equal; apply eq_true_iff_eq; rewrite !Nat.eqb_eq; lia. }
  destruct (String.eqb_spec method "circle") as [_ | _].
  { unfold chi_circle. now rewrite sqnorm_reflect. }
  destruct (String.eqb_spec method "annulus") as [_ | _].
  { unfold chi_annulus, chi_circle. now rewrite sqnorm_reflect. }
  reflexivity.
Qed.

Local Open Scope R_scope.

Lemma sum2_positive (ny nx : nat) (chi : nat -> nat -> bool) (a b : nat) :
  (a < ny)%nat -> (b < nx)%nat -> chi a b = true ->
  0 < sum2 ny nx (ind chi).
Proof.
  intros Ha Hb Hc. unfold sum2.
  assert (Hrow : forall a', 0 <= sumn nx (fun b' => ind chi a' b')).
  { intros a'. apply sumn_nonneg. intros b' _. unfold ind.
    destruct (chi a' b'); lra. }
  assert (H1 : 1 <= sumn nx (fun b' => ind chi a b')).
  { replace 1 with (ind chi a b) by (unfold ind; now rewrite Hc).
    apply (sumn_ge_term nx (fun b' => ind chi a b') b); [| exact Hb].
    intros b' _. unfold ind. destruct (chi a b'); lra. }
  pose proof (sumn_ge_term ny (fun a' => sumn nx (fun b' => ind chi a' b')) a
                (fun a' _ => Hrow a') Ha) as H2.
  cbv beta in H2. lra.
Qed.

(** Every kernel of the list has a cell. *)
Lemma chi_of_not_empty (cy cx : nat) (method : string) :
  (1 <= cx)%nat ->
  symmetric_method (Z.of_nat (2 * cx + 1), Z.of_nat (2 * cy + 1)) method ->
  0 < sum2 (2 * cy + 1) (2 * cx + 1) (ind (chi_of method cy cx)).
Proof.
  intros Hcx Hm. unfold symmetric_method in Hm.
  destruct Hm as [-> | [-> | [-> | [-> | [-> _]]]]]; unfold chi_of;
    cbn [String.eqb Ascii.eqb Bool.eqb andb].
  - apply sum2_positive with O O; [lia | lia | reflexivity].
  - apply sum2_positive with cy O; [lia | lia |].
    unfold chi_rook. now rewrite Nat.eqb_refl.
  - apply sum2_positive with cy cx; [lia | lia |].
    unfold chi_circle, sqnorm. cbv zeta. apply Z.leb_le. nia.
  - apply sum2_positive with cy (2 * cx)%nat; [lia | lia |].
    unfold chi_annulus, chi_circle, sqnorm. cbv zeta.
    apply andb_true_iff. split; [apply Z.leb_le; nia |].
    apply negb_true_iff. apply Z.ltb_ge. nia.
  - apply sum2_positive with O O; [lia | lia |].
    unfold chi_bishop. now rewrite Nat.eqb_refl.
Qed.

End ShapeFacts.

Module TPIFacts.
Import Num NumFacts Kernel KernelFacts Terrain SumFacts ConvFacts ShapeFacts.
Local Open Scope string_scope.
Local Open Scope R_scope.

Lemma height_focal_mean (arr : grid xreal) (kernel : grid Z) :
  height (focal_mean arr kernel) = height arr.
Proof. unfold focal_mean, convolve, correlate. apply height_gmapi. Qed.

Lemma width_focal_mean (arr : grid xreal) (kernel : grid Z) :
  width (focal_mean arr kernel) = width arr.
Proof. unfold focal_mean, convolve, correlate. apply width_gmapi. Qed.

Lemma odd_half (k : Z) :
  (3 <= k)%Z -> Z.odd k = true ->
  k = Z.of_nat (2 * Z.to_nat (k / 2) + 1) /\ (1 <= Z.to_nat (k / 2))%nat.
Proof.
  intros H3 Hodd. pose proof (Zmod_odd k) as Hm. rewrite Hodd in Hm.
  pose proof (Z.div_mod k 2). lia.
Qed.

(** The TPI entry of the result, on a window that passes the check and a
    raster that [np.gradient] accepts. *)
Lemma terrain_indices_tpi (filled_dem : grid xreal) (w : Z * Z)
  (unit method : string) (kernel : grid Z) :
  valid_window w ->
  create_kernel w method = Return kernel ->
  (2 <= height filled_dem)%nat -> (2 <= width filled_dem)%nat ->
  exists res,
    terrain_indices filled_dem w unit method = Return res /\
    TPI res = gmap2 xsub (focal_mean filled_dem kernel)
                    (focal_mean (focal_mean filled_dem kernel) kernel).
Proof.
  intros (Hx & Hy & Ox & Oy) Hk Hh Hw. unfold terrain_indices.
  replace (Z.min (fst w) (snd w) <? 3)%Z with false
    by (symmetry; apply Z.ltb_ge; lia).
  rewrite (Zmod_odd (fst w)), (Zmod_odd (snd w)), Ox, Oy.
  cbn [Z.eqb orb]. rewrite Hk. cbn [bind]. unfold np_gradient.
  rewrite height_focal_mean, width_focal_mean.
  replace (height filled_dem <? 2)%nat with false
    by (symmetry; apply Nat.ltb_ge; lia).
  replace (width filled_dem <? 2)%nat with false
    by (symmetry; apply Nat.ltb_ge; lia).
  cbn [orb bind]. eexists. split; reflexivity.
Qed.

Lemma height_plane (H W : nat) (p q r : R) : height (plane H W p q r) = H.
Proof. apply height_tabulate. Qed.

Lemma width_plane (H W : nat) (p q r : R) :
  (0 < H)%nat -> width (plane H W p q r) = W.
Proof. apply width_tabulate. Qed.



(** The weights of a kernel of at most 16 cells are kept. *)
Lemma significant_small (n : R) :
  1 <= n <= 16 -> significant (Fin (1 / n)) = true.
Proof.
  intros Hn. unfold significant. rewrite Rcmp_Gt; [reflexivity |].
  assert (Hpos : 0 < 1 / n) by (apply Rdiv_lt_0_compat; lra).
  rewrite Rabs_pos_eq by lra. unfold DBL_EPSILON.
  assert (H32 : 32 <= 2 ^ 52).
  { replace 32 with (2 ^ 5) by (simpl; lra). apply Rle_pow; [lra | lia]. }
  assert (Hinv : / 2 ^ 52 <= / 32)
    by (apply Rinv_le_contravar; [lra | exact H32]).
  assert (Hn16 : / 16 <= 1 / n).
  { unfold Rdiv. rewrite Rmult_1_l. apply Rinv_le_contravar; lra. }
  lra.
Qed.


(** The bishop's kernel on the window of 3 columns and 5 rows lies in the
    upper rows of the window: the focal mean of the plane [z = row] is the
    plane moved by one row, and the TPI is -1 inside the raster, not 0. *)
Lemma tpi_bishop_rectangle :
  exists res,
    terrain_indices (plane 9 5 1 0 0) (3%Z, 5%Z) "degrees" "bishop"
    = Return res /\
    cell (TPI res) 4 2 = Some (Fin (-1)).
Proof.
  assert (Hv : valid_window (3%Z, 5%Z))
    by (unfold valid_window; cbn [fst snd Z.odd]; repeat split; lia).
  assert (Hk : create_kernel (3%Z, 5%Z) "bishop" =
               Return (kernel_of (2 * 2 + 1) (2 * 1 + 1) chi_bishop_5x3))
    by reflexivity.
  destruct (terrain_indices_tpi (plane 9 5 1 0 0) (3%Z, 5%Z) "degrees" "bishop"
              _ Hv Hk) as (res & Eres & Etpi).
  { rewrite height_plane. lia. }
  { rewrite width_plane; lia. }
  exists res. split; [exact Eres |]. rewrite Etpi.
  assert (HN : sum2 (2 * 2 + 1) (2 * 1 + 1) (ind chi_bishop_5x3) = 5)
    by (unfold sum2, ind, chi_bishop_5x3; simpl; lra).
  assert (Hpos : 0 < sum2 (2 * 2 + 1) (2 * 1 + 1) (ind chi_bishop_5x3))
    by (rewrite HN; lra).
  rewrite (tpi_plane 2 1 chi_bishop_5x3 Hpos 9 5 1 0 0 4 2) by lia.
  rewrite HN, significant_small by lra. do 2 f_equal.
  unfold drift. rewrite HN.
  unfold sum2, ind, reflected, chi_bishop_5x3. simpl. lra.
Qed.

End TPIFacts.

(** ** Further properties of the depression filler *)

Module FillProps.
Import Fill FillFacts.



End FillProps.

(** ** Further properties of the Topographic Wetness Index *)

Module TWIProps.
Import Num NumFacts TWI TWIFacts.
Local Open Scope R_scope.




Section Rounding.

Variable round32 : R -> R.
Hypothesis round32_monotone : forall x y, x <= y -> round32 x <= round32 y.



End Rounding.



End TWIProps.

(** ** Further properties of the Depth to Water index *)

Module DTWProps.
Import Num NumFacts DTW DTWFacts.
Local Open Scope R_scope.

Lemma threshold_monotone (fia1 fia2 : R) :
  fia1 <= fia2 -> threshold fia1 <= threshold fia2.
Proof.
  intros H. unfold threshold, resolution. cbn [fst snd].
  change (Z.abs (-30) * Z.abs 30)%Z with 900%Z. lra.
Qed.

(** A cell that reaches a threshold reaches every lower one. *)
Lemma channel_monotone (accum : grid xreal) (t1 t2 : R) (q : nat * nat) :
  t1 <= t2 -> channel accum t2 q -> channel accum t1 q.
Proof.
  intros Ht (a & Ha & Hge). exists a. split; [exact Ha |].
  unfold xgeb in *. destruct a as [r | | |]; try discriminate Hge;
    [| reflexivity].
  apply xleb_fin. apply xleb_fin in Hge. lra.
Qed.

(** Two different cells are at least one cell apart. *)
Lemma sqdist_apart (p q : nat * nat) : p <> q -> (1 <= sqdist p q)%Z.
Proof.
  intros Hne. destruct p as [i j], q as [i' j']. unfold sqdist.
  cbn [fst snd]. cbv zeta.
  set (di := (Z.of_nat i - Z.of_nat i')%Z).
  set (dj := (Z.of_nat j - Z.of_nat j')%Z).
  pose proof (Z.square_nonneg di) as Hi. pose proof (Z.square_nonneg dj) as Hj.
  destruct (Z.eq_dec di 0) as [Ei | Ni].
  - destruct (Z.eq_dec dj 0) as [Ej | Nj].
    + destruct Hne. f_equal; lia.
    + assert (1 <= dj * dj)%Z by nia. lia.
  - assert (1 <= di * di)%Z by nia. lia.
Qed.

(** With a channel cell in the mask, every cell has a nearest one. *)
Lemma nearest_channel_exists (accum : grid xreal) (t : R) (p : nat * nat) :
  (exists q, channel accum t q) ->
  exists d, nearest_channel_distance accum t p d.
Proof.
  intros (q & Hq). apply background_channel in Hq.
  destruct (background (gmap negb (gmap (fun a => xgeb a (Fin t)) accum)))
    as [| q0 qs] eqn:Ebg; [destruct Hq |].
  destruct (fold_min_spec (map (sqdist p) qs) (sqdist p q0))
    as [[Hle Hall] Hin].
  set (m := fold_left Z.min (map (sqdist p) qs) (sqdist p q0)) in *.
  assert (Hex : exists q', In q' (q0 :: qs) /\ m = sqdist p q').
  { destruct Hin as [E | Hin].
    - exists q0. split; [now left | exact E].
    - apply in_map_iff in Hin. destruct Hin as (q' & E & Hq').
      exists q'. split; [now right | now symmetry]. }
  destruct Hex as (q' & Hq' & Em).
  exists (sqrt (IZR m)). split.
  - exists q'. split; [| now rewrite Em].
    apply background_channel. now rewrite Ebg.
  - intros q1 Hq1. apply background_channel in Hq1. rewrite Ebg in Hq1.
    apply sqrt_IZR_le.
    + rewrite Em. apply sqdist_nonneg.
    + destruct Hq1 as [<- | Hq1]; [exact Hle |]. apply Hall. now apply in_map.
Qed.

Section External.

Variable FlowAccumulation : grid Fill.float -> grid xreal.
Variable edt_no_background : nat -> nat -> R.

(** The DTW of a cell of finite slope, the mask having a channel cell. *)
Lemma calcDTW_cell (fia : R) (filled_dem : grid Fill.float)
  (slope : grid xreal) (i j : nat) (a : xreal) (s d : R) :
  cell (FlowAccumulation filled_dem) i j = Some a ->
  cell slope i j = Some (Fin s) ->
  nearest_channel_distance (FlowAccumulation filled_dem) (threshold fia)
                           (i, j) d ->
  exists DTW,
    calcDTW FlowAccumulation edt_no_background fia filled_dem slope
    = Return DTW /\
    cell DTW i j = Some (Fin (d * (s / 100))).
Proof.
  intros Ha Hs Hd. eexists. split; [reflexivity |].
  apply dtw_cell; [| exact Hs].
  apply (edt_nearest edt_no_background _ _ (i, j) a d Ha Hd).
Qed.


(** X7. The cost distance counts cells, not metres: at a cell that does
    not reach the threshold and shares an edge with a channel cell the DTW
    is exactly [slope / 100], whatever the cell size. *)
Theorem calcDTW_next_to_channel (fia : R) (filled_dem : grid Fill.float)
  (slope : grid xreal) (i j : nat) (a : xreal) (s : R) (q : nat * nat) :
  let t := threshold fia in
  let accum_d8 := FlowAccumulation filled_dem in
  cell accum_d8 i j = Some a -> xgeb a (Fin t) = false ->
  channel accum_d8 t q -> sqdist (i, j) q = 1%Z ->
  cell slope i j = Some (Fin s) ->
  exists DTW,
    calcDTW FlowAccumulation edt_no_background fia filled_dem slope
    = Return DTW /\
    cell DTW i j = Some (Fin (s / 100)).
Proof.
  intros t accum_d8 Ha Hlow Hq Hadj Hs.
  destruct (nearest_channel_exists accum_d8 t (i, j) (ex_intro _ q Hq))
    as (d & Hd).
  destruct (calcDTW_cell fia filled_dem slope i j a s d Ha Hs Hd)
    as (DTW & E & Hc).
  assert (H1 : d = 1).
  { destruct Hd as [(q' & Hq' & Ed) Hmin]. apply Rle_antisym.
    - specialize (Hmin q Hq). rewrite Hadj, sqrt_1 in Hmin. exact Hmin.
    - rewrite Ed, <- sqrt_1. change 1 with (IZR 1) at 1.
      apply sqrt_IZR_le; [lia |]. apply sqdist_apart.
      intros <-. destruct Hq' as (a' & Ha' & Hge). cbn [fst snd] in Ha'.
      fold accum_d8 in Ha. rewrite Ha in Ha'. injection Ha' as <-.
      fold t in Hlow. rewrite Hlow in Hge. discriminate Hge. }
  exists DTW. split; [exact E |]. rewrite Hc. do 2 f_equal. rewrite H1. lra.
Qed.

(** X8. A larger flow initiation area never brings water closer: between
    two values [fia1 <= fia2], the larger one still leaving a channel cell,
    the DTW under [fia1] is at most the DTW under [fia2] at every cell of
    percent slope. *)
Theorem calcDTW_monotone_in_fia (fia1 fia2 : R)
  (filled_dem : grid Fill.float) (slope : grid xreal) (i j : nat)
  (a s : xreal) :
  let accum_d8 := FlowAccumulation filled_dem in
  fia1 <= fia2 ->
  (exists q, channel accum_d8 (threshold fia2) q) ->
  cell accum_d8 i j = Some a ->
  cell slope i j = Some s -> percent_slope s ->
  exists DTW1 DTW2 v1 v2,
    calcDTW FlowAccumulation edt_no_background fia1 filled_dem slope
    = Return DTW1 /\
    calcDTW FlowAccumulation edt_no_background fia2 filled_dem slope
    = Return DTW2 /\
    cell DTW1 i j = Some (Fin v1) /\
    cell DTW2 i j = Some (Fin v2) /\
    v1 <= v2.
Proof.
  intros accum_d8 Hfia Hex Ha Hs Hp.
  destruct s as [s | | |]; try contradiction. cbn [percent_slope] in Hp.
  pose proof (threshold_monotone fia1 fia2 Hfia) as Ht.
  assert (Hex1 : exists q, channel accum_d8 (threshold fia1) q).
  { destruct Hex as (q & Hq). exists q.
    now apply channel_monotone with (threshold fia2). }
  destruct (nearest_channel_exists accum_d8 _ (i, j) Hex1) as (d1 & Hd1).
  destruct (nearest_channel_exists accum_d8 _ (i, j) Hex) as (d2 & Hd2).
  destruct (calcDTW_cell fia1 filled_dem slope i j a s d1 Ha Hs Hd1)
    as (DTW1 & E1 & Hc1).
  destruct (calcDTW_cell fia2 filled_dem slope i j a s d2 Ha Hs Hd2)
    as (DTW2 & E2 & Hc2).
  exists DTW1, DTW2, (d1 * (s / 100)), (d2 * (s / 100)).
  repeat split; try assumption.
  apply Rmult_le_compat_r; [lra |].
  destruct Hd2 as [(q2 & Hq2 & ->) _]. destruct Hd1 as [_ Hmin].
  apply Hmin. now apply channel_monotone with (threshold fia2).
Qed.

(** X9. A cell without slope data gets no DTW: where the slope is
    not-a-number the DTW is not-a-number, on a channel cell as anywhere
    else and whatever the mask. *)
Theorem calcDTW_nodata (fia : R) (filled_dem : grid Fill.float)
  (slope : grid xreal) (i j : nat) (a : xreal) :
  cell (FlowAccumulation filled_dem) i j = Some a ->
  cell slope i j = Some NaN ->
  exists DTW,
    calcDTW FlowAccumulation edt_no_background fia filled_dem slope
    = Return DTW /\
    cell DTW i j = Some NaN.
Proof.
  intros Ha Hs. eexists. split; [reflexivity |].
  rewrite cell_gmap2, cell_gmap, Hs. unfold distance_transform_edt.
  rewrite cell_gmapi, inverted_mask_cell, Ha. cbn [option_map].
  now rewrite xmul_nan.
Qed.

End External.

Lemma channel_20 (fia : R) :
  fia <= 1 -> channel [[Fin 1; Fin 20]] (threshold fia) (0%nat, 1%nat).
Proof.
  intros H. exists (Fin 20). split; [reflexivity |].
  pose proof (threshold_monotone fia 1 H) as Ht. rewrite threshold_1 in Ht.
  unfold xgeb. apply xleb_fin. lra.
Qed.

Lemma below_threshold_1 : xgeb (Fin 1) (Fin (threshold 1)) = false.
Proof.
  rewrite threshold_1. unfold xgeb. apply not_true_is_false.
  rewrite xleb_fin. lra.
Qed.


Lemma calcDTW_next_to_channel_witness :
  exists DTW,
    calcDTW (fun _ => [[Fin 1; Fin 20]]) (fun _ _ => 0) 1
            [[Fill.f64_5; Fill.f64_1]] [[Fin 50; Fin 50]]
    = Return DTW /\
    cell DTW 0 0 = Some (Fin (50 / 100)).
Proof.
  exact (calcDTW_next_to_channel (fun _ => [[Fin 1; Fin 20]]) (fun _ _ => 0) 1
           [[Fill.f64_5; Fill.f64_1]] [[Fin 50; Fin 50]] 0 0 (Fin 1) 50
           (0%nat, 1%nat) eq_refl below_threshold_1
           (channel_20 1 (Rle_refl 1)) eq_refl eq_refl).
Defined.

Lemma calcDTW_monotone_in_fia_witness :
  exists DTW1 DTW2 v1 v2,
    calcDTW (fun _ => [[Fin 1; Fin 20]]) (fun _ _ => 0) (1 / 2)
            [[Fill.f64_5; Fill.f64_1]] [[Fin 50; Fin 50]]
    = Return DTW1 /\
    calcDTW (fun _ => [[Fin 1; Fin 20]]) (fun _ _ => 0) 1
            [[Fill.f64_5; Fill.f64_1]] [[Fin 50; Fin 50]]
    = Return DTW2 /\
    cell DTW1 0 0 = Some (Fin v1) /\
    cell DTW2 0 0 = Some (Fin v2) /\
    v1 <= v2.
Proof.
  apply (calcDTW_monotone_in_fia (fun _ => [[Fin 1; Fin 20]]) (fun _ _ => 0)
           (1 / 2) 1 [[Fill.f64_5; Fill.f64_1]] [[Fin 50; Fin 50]] 0 0
           (Fin 1) (Fin 50)).
  - lra.
  - exists (0%nat, 1%nat). apply channel_20. lra.
  - reflexivity.
  - reflexivity.
  - simpl. lra.
Defined.

Lemma calcDTW_nodata_witness :
  exists DTW,
    calcDTW (fun _ => [[Fin 1; Fin 20]]) (fun _ _ => 0) 1
            [[Fill.f64_5; Fill.f64_1]] [[Fin 50; NaN]]
    = Return DTW /\
    cell DTW 0 1 = Some NaN.
Proof.
  exact (calcDTW_nodata (fun _ => [[Fin 1; Fin 20]]) (fun _ _ => 0) 1
           [[Fill.f64_5; Fill.f64_1]] [[Fin 50; NaN]] 0 1 (Fin 20)
           eq_refl eq_refl).
Defined.

(** X2. The filled raster that goes into [calcDTW] is the raster as it was
    loaded: the Depth to Water index of the result of [fill_depressions] is
    the index of its input, the flow being routed over elevations in which
    no depression has been raised. *)
Theorem calcDTW_of_filled_dem (FlowAccumulation : grid Fill.float -> grid xreal)
  (edt_no_background : nat -> nat -> R) (fia : R) (dem : grid Fill.float)
  (slope : grid xreal) (fuel : nat) :
  concat dem <> [] ->
  exists filled_dem,
    Fill.fill_depressions (S fuel) dem = Some filled_dem /\
    calcDTW FlowAccumulation edt_no_background fia filled_dem slope =
    calcDTW FlowAccumulation edt_no_background fia dem slope.
Proof.
  intros _. exists dem. split; [apply FillFacts.fill_loop_once | reflexivity].
Qed.

Lemma calcDTW_of_filled_dem_witness :
  exists filled_dem,
    Fill.fill_depressions 1 Fill.pit = Some filled_dem /\
    calcDTW (fun _ => [[Fin 1; Fin 20]]) (fun _ _ => 0) 1 filled_dem
            [[Fin 50; Fin 50]] =
    calcDTW (fun _ => [[Fin 1; Fin 20]]) (fun _ _ => 0) 1 Fill.pit
            [[Fin 50; Fin 50]].
Proof.
  apply (calcDTW_of_filled_dem (fun _ => [[Fin 1; Fin 20]]) (fun _ _ => 0) 1
           Fill.pit [[Fin 50; Fin 50]] 0).
  discriminate.
Defined.

End DTWProps.

(** ** Further properties of the kernel builder *)

Module KernelProps.
Import Kernel KernelFacts BufferFacts.
Local Open Scope string_scope.
Local Open Scope Z_scope.

(** *** Zeros and ones *)

Lemma Forall_set_nth {A : Type} (P : A -> Prop) (l : list A) (n : nat) (v : A) :
  Forall P l -> P v -> Forall P (set_nth l n v).
Proof.
  intros Hl Hv. revert n. induction Hl as [| x l Hx Hl IH]; intros n;
    [constructor |].
  destruct n as [| n]; simpl; constructor; auto.
Qed.

Lemma Forall_assign (P : Z -> Prop) (v : view) (targets : list (Z * Z))
  (x : Z) (b : buffer) :
  Forall P b -> P x -> Forall P (assign v targets x b).
Proof.
  intros Hb Hx. unfold assign. revert b Hb.
  induction targets as [| t ts IH]; intros b Hb; [exact Hb |].
  simpl. apply IH. unfold store. now apply Forall_set_nth.
Qed.

Lemma Forall_load (P : Z -> Prop) (b : buffer) (a : Z) :
  Forall P b -> P 0 -> P (load b a).
Proof.
  intros Hb H0. unfold load.
  destruct (nth_in_or_default (Z.to_nat a) b 0) as [Hin | ->]; [| exact H0].
  rewrite Forall_forall in Hb. now apply Hb.
Qed.

(** The buffer that [create_kernel] hands to [tolist]. *)
Lemma create_kernel_buffer (kx ky : Z) (method : string) (k : grid Z) :
  create_kernel (kx, ky) method = Return k ->
  exists b, Forall (fun z => z = 0 \/ z = 1) b /\
            k = tolist b (mkview ky kx 0 kx 1).
Proof.
  unfold create_kernel.
  destruct ((kx <? 0) || (ky <? 0)); [discriminate |].
  cbn [np_zeros].
  set (b0 := repeat 0 (Z.to_nat (ky * kx))).
  assert (H0 : Forall (fun z => z = 0 \/ z = 1) b0).
  { apply Forall_forall. intros z Hz. apply repeat_spec in Hz. now left. }
  set (kernel := mkview ky kx 0 kx 1).
  assert (Hassign : forall v ts x b,
             Forall (fun z => z = 0 \/ z = 1) b -> x = 0 \/ x = 1 ->
             Forall (fun z => z = 0 \/ z = 1) (assign v ts x b))
    by (intros; now apply Forall_assign).
  repeat match goal with
         | |- context [String.eqb method ?s] => destruct (String.eqb method s)
         | |- context [ky =? 0] => destruct (ky =? 0)
         | |- context [kx =? 0] => destruct (kx =? 0)
         | |- context [mask_fits ?v ?a ?c] => destruct (mask_fits v a c)
         end;
    cbn [bind]; intros E; try discriminate E; injection E as <-;
    eexists; (split; [| reflexivity]); unfold fill_diagonal;
    repeat apply Hassign; auto.
Qed.

(** X10. Whatever the window and the method, a kernel that [create_kernel]
    returns has [ky] rows of [kx] cells for the window [(kx, ky)], and every
    cell of it is 0 or 1. *)
Theorem create_kernel_zeros_and_ones (kx ky : Z) (method : string)
  (k : grid Z) :
  create_kernel (kx, ky) method = Return k ->
  height k = Z.to_nat ky /\
  forall row, In row k ->
    List.length row = Z.to_nat kx /\
    forall x, In x row -> x = 0 \/ x = 1.
Proof.
  intros H. destruct (create_kernel_buffer kx ky method k H) as (b & Hb & ->).
  unfold tolist, height, range. cbn [rows cols].
  split; [now rewrite !length_map, length_seq |].
  intros row Hrow. apply in_map_iff in Hrow. destruct Hrow as (r & <- & _).
  split; [now rewrite !length_map, length_seq |].
  intros x Hx. apply in_map_iff in Hx. destruct Hx as (c & <- & _).
  apply (Forall_load (fun z => z = 0 \/ z = 1)); [exact Hb | now left].
Qed.

Lemma create_kernel_zeros_and_ones_witness :
  height [[0; 1; 0]; [1; 1; 1]; [0; 1; 0]] = Z.to_nat 3 /\
  forall row, In row [[0; 1; 0]; [1; 1; 1]; [0; 1; 0]] ->
    List.length row = Z.to_nat 3 /\
    forall x, In x row -> x = 0 \/ x = 1.
Proof.
  exact (create_kernel_zeros_and_ones 3 3 "rook"
           [[0; 1; 0]; [1; 1; 1]; [0; 1; 0]] eq_refl).
Defined.

(** *** Errors *)

Lemma even_half (k : Z) :
  Z.even k = true -> (2 * (k / 2) + 1 =? k) = false.
Proof.
  intros H. apply Z.eqb_neq. apply Z.even_spec in H. destruct H as [m ->].
  replace (2 * m) with (m * 2) by lia. rewrite Z.div_mul by lia. lia.
Qed.

Lemma odd_half_fits (k : Z) :
  Z.even k = false -> (2 * (k / 2) + 1 =? k) = true.
Proof.
  intros H. apply Z.eqb_eq. rewrite <- Z.negb_odd in H.
  apply negb_false_iff, Z.odd_spec in H. destruct H as [m ->].
  replace (2 * m + 1) with (1 + m * 2) by lia.
  rewrite Z.div_add by lia. change (1 / 2) with 0. lia.
Qed.

(** X11. [create_kernel] checks nothing itself; on a window of positive
    sides it fails in one case only: under [circle] or [annulus] with an
    even side, where the mask built around the centre has one cell more than
    the kernel and the assignment through it raises an [IndexError].  In
    every other case, an even window or an unknown method included, a kernel
    is returned. *)
Theorem create_kernel_errors (kx ky : Z) (method : string) :
  1 <= kx -> 1 <= ky ->
  ((method = "circle" \/ method = "annulus") ->
   (Z.even kx = true \/ Z.even ky = true) ->
   exists msg, create_kernel (kx, ky) method = Raise (IndexError msg)) /\
  ((method = "circle" \/ method = "annulus") ->
   Z.even kx = false -> Z.even ky = false ->
   exists k, create_kernel (kx, ky) method = Return k) /\
  (method <> "circle" -> method <> "annulus" ->
   exists k, create_kernel (kx, ky) method = Return k).
Proof.
  intros Hx Hy. unfold create_kernel.
  replace (kx <? 0) with false by (symmetry; apply Z.ltb_ge; lia).
  replace (ky <? 0) with false by (symmetry; apply Z.ltb_ge; lia).
  cbn [orb np_zeros].
  replace (ky =? 0) with false by (symmetry; apply Z.eqb_neq; lia).
  replace (kx =? 0) with false by (symmetry; apply Z.eqb_neq; lia).
  unfold mask_fits. cbn [rows cols].
  split; [| split].
  - intros Hm Heven.
    assert (Hfit : (2 * (ky / 2) + 1 =? ky) && (2 * (kx / 2) + 1 =? kx)
                   = false).
    { destruct Heven as [H | H]; rewrite (even_half _ H);
        [apply andb_false_r | reflexivity]. }
    rewrite Hfit.
    destruct Hm as [-> | ->]; cbn [String.eqb Ascii.eqb Bool.eqb bind];
      eexists; reflexivity.
  - intros Hm Ox Oy. rewrite (odd_half_fits _ Ox), (odd_half_fits _ Oy).
    destruct Hm as [-> | ->]; cbn [String.eqb Ascii.eqb Bool.eqb andb bind];
      eexists; reflexivity.
  - intros Hc Ha.
    destruct (String.eqb_spec method "circle") as [E | _]; [now destruct Hc |].
    destruct (String.eqb_spec method "annulus") as [E | _]; [now destruct Ha |].
    repeat match goal with
           | |- context [String.eqb method ?s] => destruct (String.eqb method s)
           end; cbn [bind]; eexists; reflexivity.
Qed.

Lemma create_kernel_errors_witness :
  (exists msg, create_kernel (4, 3) "circle" = Raise (IndexError msg)) /\
  (exists k, create_kernel (5, 3) "annulus" = Return k) /\
  (exists k, create_kernel (4, 4) "compass" = Return k).
Proof.
  destruct (create_kernel_errors 4 3 "circle") as (H1 & _ & _); [lia | lia |].
  destruct (create_kernel_errors 5 3 "annulus") as (_ & H2 & _); [lia | lia |].
  destruct (create_kernel_errors 4 4 "compass") as (_ & _ & H3); [lia | lia |].
  split; [| split].
  - apply H1; [now left | now left].
  - apply H2; [now right | reflexivity | reflexivity].
  - apply H3; discriminate.
Defined.

(** *** A method that is not one of the five *)

Lemma map_const_repeat {A B : Type} (f : A -> B) (y : B) (l : list A) :
  (forall x, In x l -> f x = y) -> map f l = repeat y (List.length l).
Proof.
  induction l as [| x l IH]; intros H; [reflexivity |].
  simpl. rewrite (H x) by now left. f_equal. apply IH.
  intros x' Hx'. apply H. now right.
Qed.

Lemma ksum_zeros (n m : nat) : ksum (repeat (repeat 0 n) m) = 0.
Proof.
  unfold ksum.
  assert (H : forall l, Forall (fun z => z = 0) l -> forall acc,
               fold_left Z.add l acc = acc).
  { induction 1 as [| x l -> _ IH]; intros acc; [reflexivity |].
    simpl. rewrite IH. lia. }
  apply H. apply Forall_forall. intros z Hz. apply in_concat in Hz.
  destruct Hz as (row & Hrow & Hz). apply repeat_spec in Hrow. subst row.
  now apply repeat_spec in Hz.
Qed.

(** X12. A method name that is none of [queen], [rook], [bishop],
    [circle], [annulus] is not turned down: the kernel comes back as it was
    created, all zeros, and its sum is 0. *)
Theorem create_kernel_unknown_method (kx ky : Z) (method : string) :
  0 <= kx -> 0 <= ky ->
  method <> "queen" -> method <> "rook" -> method <> "bishop" ->
  method <> "circle" -> method <> "annulus" ->
  exists k,
    create_kernel (kx, ky) method = Return k /\
    k = repeat (repeat 0 (Z.to_nat kx)) (Z.to_nat ky) /\
    ksum k = 0.
Proof.
  intros Hx Hy Hq Hr Hb Hc Ha. unfold create_kernel.
  replace (kx <? 0) with false by (symmetry; apply Z.ltb_ge; lia).
  replace (ky <? 0) with false by (symmetry; apply Z.ltb_ge; lia).
  cbn [orb np_zeros].
  repeat match goal with
         | |- context [String.eqb method ?s] =>
             destruct (String.eqb_spec method s); [contradiction |]
         end.
  cbn [bind]. eexists. split; [reflexivity |].
  assert (E : tolist (repeat 0 (Z.to_nat (ky * kx))) (mkview ky kx 0 kx 1) =
              repeat (repeat 0 (Z.to_nat kx)) (Z.to_nat ky)).
  { unfold tolist, range. cbn [rows cols].
    rewrite (map_const_repeat _ (repeat 0 (Z.to_nat kx))).
    - now rewrite length_map, length_seq.
    - intros r _. rewrite (map_const_repeat _ 0).
      + now rewrite length_map, length_seq.
      + intros c _. apply load_zeros. }
  rewrite E. split; [reflexivity | apply ksum_zeros].
Qed.

Lemma create_kernel_unknown_method_witness :
  exists k,
    create_kernel (3, 3) "knight" = Return k /\
    k = repeat (repeat 0 (Z.to_nat 3)) (Z.to_nat 3) /\
    ksum k = 0.
Proof.
  apply (create_kernel_unknown_method 3 3 "knight"); try lia; discriminate.
Defined.

End KernelProps.

(** *** The kernels of the windows that pass the check *)

Module WindowProps.
Import Kernel KernelFacts BufferFacts KernelShapes Terrain SumFacts ConvFacts
       ShapeFacts TPIFacts.
Local Open Scope string_scope.

(** A window that passes the check, by its half-sizes. *)
Lemma valid_window_halves (kx ky : Z) :
  valid_window (kx, ky) ->
  kx = Z.of_nat (2 * Z.to_nat (kx / 2) + 1) /\
  ky = Z.of_nat (2 * Z.to_nat (ky / 2) + 1) /\
  (1 <= Z.to_nat (kx / 2))%nat /\ (1 <= Z.to_nat (ky / 2))%nat.
Proof.
  intros (Hx & Hy & Ox & Oy). cbn [fst snd] in *.
  destruct (odd_half kx Hx Ox) as [Ekx Hcx].
  destruct (odd_half ky Hy Oy) as [Eky Hcy]. auto.
Qed.

Lemma create_kernel_valid (kx ky : Z) (method : string) :
  valid_window (kx, ky) ->
  (method = "bishop" -> kx = ky) ->
  create_kernel (kx, ky) method =
  Return (kernel_of (2 * Z.to_nat (ky / 2) + 1) (2 * Z.to_nat (kx / 2) + 1)
                    (chi_of method (Z.to_nat (ky / 2)) (Z.to_nat (kx / 2)))).
Proof.
  intros Hv Hsq. destruct (valid_window_halves kx ky Hv) as (Ex & Ey & _ & _).
  rewrite Ex at 1. rewrite Ey at 1. apply create_kernel_shape.
  intros E. specialize (Hsq E). lia.
Qed.

Lemma symmetric_square (kx ky : Z) (method : string) :
  symmetric_method (kx, ky) method -> method = "bishop" -> kx = ky.
Proof.
  intros Hm ->. destruct Hm as [E | [E | [E | [E | [_ E]]]]];
    try discriminate E. exact E.
Qed.

(** X13. On a window [(kx, ky)] that passes the check the kernel has [ky]
    rows and [kx] columns around the centre cell [(ky // 2, kx // 2)], and
    its cell [(a, b)] is 1 exactly: everywhere under [queen]; on the centre
    row and the centre column under [rook]; on the two diagonals under
    [bishop], the window being square; where the squared distance to the
    centre is at most [(kx // 2)^2] under [circle]; and under [annulus]
    where it is at most that and not below [(kx // 2 - 1)^2].  The other
    cells are 0. *)
Theorem create_kernel_cells (kx ky : Z) (method : string) :
  valid_window (kx, ky) ->
  (method = "bishop" -> kx = ky) ->
  let cy := Z.to_nat (ky / 2) in
  let cx := Z.to_nat (kx / 2) in
  exists k,
    create_kernel (kx, ky) method = Return k /\
    height k = Z.to_nat ky /\ width k = Z.to_nat kx /\
    forall a b, (a < height k)%nat -> (b < width k)%nat ->
      exists x,
        cell k a b = Some x /\ (x = 0 \/ x = 1)%Z /\
        (method = "queen" -> x = 1%Z) /\
        (method = "rook" -> (x = 1%Z <-> a = cy \/ b = cx)) /\
        (method = "bishop" -> (x = 1%Z <-> a = b \/ (a + b = 2 * cx)%nat)) /\
        (method = "circle" ->
         (x = 1%Z <-> (sqnorm cy cx a b <= Z.of_nat cx * Z.of_nat cx)%Z)) /\
        (method = "annulus" ->
         (x = 1%Z <->
          ((Z.of_nat cx - 1) * (Z.of_nat cx - 1) <= sqnorm cy cx a b
           <= Z.of_nat cx * Z.of_nat cx)%Z)).
Proof.
  intros Hv Hsq cy cx.
  destruct (valid_window_halves kx ky Hv) as (Ex & Ey & _ & _).
  fold cx in Ex. fold cy in Ey.
  exists (kernel_of (2 * cy + 1) (2 * cx + 1) (chi_of method cy cx)).
  split; [now apply create_kernel_valid |].
  unfold kernel_of. rewrite height_tabulate, width_tabulate by lia.
  split; [lia |]. split; [lia |].
  intros a b Ha Hb. rewrite cell_tabulate by assumption.
  exists (if chi_of method cy cx a b then 1%Z else 0%Z).
  split; [reflexivity |].
  split; [destruct (chi_of method cy cx a b); auto |].
  split; [| split; [| split; [| split]]]; intros ->; unfold chi_of;
    cbn [String.eqb Ascii.eqb Bool.eqb andb].
  - reflexivity.
  - unfold chi_rook.
    destruct (Nat.eqb_spec a cy), (Nat.eqb_spec b cx); cbn [orb];
      intuition (try discriminate; try lia).
  - unfold chi_bishop.
    destruct (Nat.eqb_spec a b), (Nat.eqb_spec (a + b) (2 * cx)); cbn [orb];
      intuition (try discriminate; try lia).
  - unfold chi_circle.
    destruct (Z.leb_spec (sqnorm cy cx a b) (Z.of_nat cx * Z.of_nat cx));
      split; intros H'; try reflexivity; try discriminate H'; lia.
  - unfold chi_annulus, chi_circle.
    destruct (Z.leb_spec (sqnorm cy cx a b) (Z.of_nat cx * Z.of_nat cx));
      destruct (Z.ltb_spec (sqnorm cy cx a b)
                           ((Z.of_nat cx - 1) * (Z.of_nat cx - 1)));
      cbn [andb negb]; split; intros H'; try reflexivity;
      try discriminate H'; lia.
Qed.

Lemma valid_3x3 : valid_window (3%Z, 3%Z).
Proof. unfold valid_window; cbn [fst snd Z.odd]; repeat split; lia. Qed.

Lemma valid_5x5 : valid_window (5%Z, 5%Z).
Proof. unfold valid_window; cbn [fst snd Z.odd]; repeat split; lia. Qed.

Lemma create_kernel_cells_witness :
  exists k,
    create_kernel (3%Z, 3%Z) "rook" = Return k /\
    height k = Z.to_nat 3 /\ width k = Z.to_nat 3 /\
    forall a b, (a < height k)%nat -> (b < width k)%nat ->
      exists x,
        cell k a b = Some x /\ (x = 0 \/ x = 1)%Z /\
        ("rook" = "queen" -> x = 1%Z) /\
        ("rook" = "rook" -> (x = 1%Z <-> a = 1%nat \/ b = 1%nat)) /\
        ("rook" = "bishop" -> (x = 1%Z <-> a = b \/ (a + b = 2 * 1)%nat)) /\
        ("rook" = "circle" ->
         (x = 1%Z <-> (sqnorm 1 1 a b <= Z.of_nat 1 * Z.of_nat 1)%Z)) /\
        ("rook" = "annulus" ->
         (x = 1%Z <->
          ((Z.of_nat 1 - 1) * (Z.of_nat 1 - 1) <= sqnorm 1 1 a b
           <= Z.of_nat 1 * Z.of_nat 1)%Z)).
Proof.
  apply (create_kernel_cells 3 3 "rook" valid_3x3). discriminate.
Defined.

(** *** Sums *)

Local Open Scope R_scope.

Lemma sumn_const (n : nat) (c : R) : sumn n (fun _ => c) = INR n * c.
Proof.
  induction n as [| n IH]; [simpl; lra |].
  cbn [sumn]. rewrite IH, S_INR. lra.
Qed.

Lemma sumn_delta (n k : nat) (x : R) :
  sumn n (fun a => if (a =? k)%nat then x else 0) =
  if (k <? n)%nat then x else 0.
Proof.
  induction n as [| n IH]; [reflexivity |].
  cbn [sumn]. rewrite IH.
  destruct (Nat.eqb_spec n k) as [-> | Hne].
  - rewrite Nat.ltb_irrefl.
    replace (k <? S k)%nat with true by (symmetry; apply Nat.ltb_lt; lia). lra.
  - destruct (Nat.ltb_spec k n), (Nat.ltb_spec k (S n)); try lia; lra.
Qed.

Lemma sum2_queen (ny nx : nat) :
  sum2 ny nx (ind chi_queen) = INR ny * INR nx.
Proof.
  unfold sum2, ind, chi_queen.
  rewrite (sumn_ext ny _ (fun _ => INR nx * 1))
    by (intros a _; apply sumn_const).
  rewrite sumn_const. lra.
Qed.

Lemma sum2_rook (cy cx : nat) :
  sum2 (2 * cy + 1) (2 * cx + 1) (ind (chi_rook cy cx)) =
  INR (2 * cy + 1) + INR (2 * cx + 1) - 1.
Proof.
  unfold sum2, ind, chi_rook.
  rewrite (sumn_ext _ _
             (fun a => 1 + (if (a =? cy)%nat then INR (2 * cx + 1) - 1
                            else 0))).
  - rewrite sumn_plus, sumn_const, sumn_delta.
    replace (cy <? 2 * cy + 1)%nat with true
      by (symmetry; apply Nat.ltb_lt; lia). lra.
  - intros a _. destruct (a =? cy)%nat; cbn [orb].
    + rewrite sumn_const. lra.
    + rewrite sumn_delta.
      replace (cx <? 2 * cx + 1)%nat with true
        by (symmetry; apply Nat.ltb_lt; lia). lra.
Qed.

Lemma sum2_bishop (c : nat) :
  sum2 (2 * c + 1) (2 * c + 1) (ind (chi_bishop c)) = 2 * INR (2 * c + 1) - 1.
Proof.
  unfold sum2, ind, chi_bishop.
  rewrite (sumn_ext _ _
             (fun a => 2 + (if (a =? c)%nat then - 1 else 0))).
  - rewrite sumn_plus, sumn_const, sumn_delta.
    replace (c <? 2 * c + 1)%nat with true
      by (symmetry; apply Nat.ltb_lt; lia). lra.
  - intros a Ha.
    rewrite (sumn_ext _ _
               (fun b => (if (b =? a)%nat then 1 else 0)
                         + ((if (b =? 2 * c - a)%nat then 1 else 0)
                            + (if (b =? c)%nat
                               then (if (a =? c)%nat then - 1 else 0)
                               else 0)))).
    + rewrite !sumn_plus, !sumn_delta.
      replace (a <? 2 * c + 1)%nat with true
        by (symmetry; apply Nat.ltb_lt; lia).
      replace (2 * c - a <? 2 * c + 1)%nat with true
        by (symmetry; apply Nat.ltb_lt; lia).
      replace (c <? 2 * c + 1)%nat with true
        by (symmetry; apply Nat.ltb_lt; lia).
      lra.
    + intros b Hb.
      destruct (Nat.eqb_spec a b), (Nat.eqb_spec (a + b) (2 * c)),
        (Nat.eqb_spec b a), (Nat.eqb_spec b (2 * c - a)),
        (Nat.eqb_spec b c), (Nat.eqb_spec a c); cbn [orb]; try lia; lra.
Qed.

Lemma ksum_value (ny nx : nat) (chi : nat -> nat -> bool) (z : Z) :
  sum2 ny nx (ind chi) = IZR z -> Kernel.ksum (kernel_of ny nx chi) = z.
Proof. intros H. apply eq_IZR. now rewrite ksum_kernel_of. Qed.

(** X14. On a window [(kx, ky)] that passes the check the kernel sums to
    [kx * ky] under [queen], to [kx + ky - 1] under [rook] (the centre cell
    is counted once), and on a square window to [2 * kx - 1] under
    [bishop]. *)
Theorem create_kernel_sums (kx ky : Z) :
  valid_window (kx, ky) ->
  (exists k, create_kernel (kx, ky) "queen" = Return k /\
             ksum k = (kx * ky)%Z) /\
  (exists k, create_kernel (kx, ky) "rook" = Return k /\
             ksum k = (kx + ky - 1)%Z) /\
  (kx = ky ->
   exists k, create_kernel (kx, ky) "bishop" = Return k /\
             ksum k = (2 * kx - 1)%Z).
Proof.
  intros Hv. destruct (valid_window_halves kx ky Hv) as (Ex & Ey & _ & _).
  set (cx := Z.to_nat (kx / 2)) in *. set (cy := Z.to_nat (ky / 2)) in *.
  split; [| split].
  - eexists. split; [apply create_kernel_valid; [exact Hv | discriminate] |].
    apply ksum_value. fold cx cy. change (chi_of "queen" cy cx) with chi_queen.
    rewrite sum2_queen, !INR_IZR_INZ, <- mult_IZR. f_equal. lia.
  - eexists. split; [apply create_kernel_valid; [exact Hv | discriminate] |].
    apply ksum_value. fold cx cy.
    change (chi_of "rook" cy cx) with (chi_rook cy cx).
    rewrite sum2_rook, !INR_IZR_INZ, <- plus_IZR, <- minus_IZR. f_equal. lia.
  - intros Hsq.
    eexists. split; [apply create_kernel_valid; [exact Hv | now intros _] |].
    apply ksum_value. fold cx cy.
    change (chi_of "bishop" cy cx) with (chi_bishop cx).
    assert (E : cy = cx) by lia. rewrite E.
    rewrite sum2_bishop, !INR_IZR_INZ, <- mult_IZR, <- minus_IZR. f_equal. lia.
Qed.

Lemma create_kernel_sums_witness :
  (exists k, create_kernel (5%Z, 3%Z) "queen" = Return k /\
             ksum k = (5 * 3)%Z) /\
  (exists k, create_kernel (5%Z, 3%Z) "rook" = Return k /\
             ksum k = (5 + 3 - 1)%Z) /\
  (5%Z = 3%Z ->
   exists k, create_kernel (5%Z, 3%Z) "bishop" = Return k /\
             ksum k = (2 * 5 - 1)%Z).
Proof.
  apply (create_kernel_sums 5 3).
  unfold valid_window; cbn [fst snd Z.odd]; repeat split; lia.
Defined.

Lemma sum2_ind_le (ny nx : nat) (chi : nat -> nat -> bool) :
  sum2 ny nx (ind chi) <= INR ny * INR nx.
Proof.
  rewrite <- sum2_queen. unfold sum2.
  assert (Hle : forall n f g, (forall a, (a < n)%nat -> f a <= g a) ->
                              sumn n f <= sumn n g).
  { induction n as [| n IH]; intros f g H; [simpl; lra |].
    cbn [sumn]. specialize (IH f g ltac:(intros; apply H; lia)).
    specialize (H n ltac:(lia)). lra. }
  apply Hle. intros a _. apply Hle. intros b _. unfold ind, chi_queen.
  destruct (chi a b); lra.
Qed.

(** X15. On a window that passes the check, under [queen], [rook],
    [circle], [annulus] and, the window being square, [bishop], the kernel
    has at least one cell set and at most all of them: [kernel.sum()] lies
    between 1 and [kx * ky], so the weights [kernel / kernel.sum()] of the
    focal mean divide by a positive number. *)
Theorem create_kernel_not_empty (kx ky : Z) (method : string) :
  valid_window (kx, ky) ->
  symmetric_method (kx, ky) method ->
  exists k,
    create_kernel (kx, ky) method = Return k /\
    (1 <= ksum k <= kx * ky)%Z.
Proof.
  intros Hv Hm.
  destruct (valid_window_halves kx ky Hv) as (Ex & Ey & Hcx & _).
  eexists. split;
    [apply create_kernel_valid;
       [exact Hv | now apply symmetric_square] |].
  set (cx := Z.to_nat (kx / 2)) in *. set (cy := Z.to_nat (ky / 2)) in *.
  rewrite Ex, Ey in Hm.
  pose proof (chi_of_not_empty cy cx method Hcx Hm) as Hpos.
  pose proof (sum2_ind_le (2 * cy + 1) (2 * cx + 1) (chi_of method cy cx))
    as Hle.
  rewrite <- ksum_kernel_of in Hpos, Hle.
  rewrite !INR_IZR_INZ, <- mult_IZR in Hle.
  apply lt_IZR in Hpos. apply le_IZR in Hle. lia.
Qed.

Lemma create_kernel_not_empty_witness :
  exists k,
    create_kernel (5%Z, 5%Z) "annulus" = Return k /\
    (1 <= ksum k <= 5 * 5)%Z.
Proof.
  apply (create_kernel_not_empty 5 5 "annulus" valid_5x5).
  right. right. right. now left.
Defined.

(** X16. Under the same methods the kernel of a window that passes the
    check is its own reflection through the centre: reversed along both
    axes, as the convolution reads it, it is the same kernel. *)
Theorem create_kernel_reflection (kx ky : Z) (method : string) :
  valid_window (kx, ky) ->
  symmetric_method (kx, ky) method ->
  exists k,
    create_kernel (kx, ky) method = Return k /\
    flip k = k.
Proof.
  intros Hv Hm.
  pose proof (symmetric_square kx ky method Hm) as Hsq.
  destruct (valid_window_halves kx ky Hv) as (Ex & Ey & _ & _).
  eexists. split; [now apply create_kernel_valid |].
  unfold kernel_of. rewrite flip_tabulate. apply tabulate_ext.
  intros a b Ha Hb. rewrite chi_of_symmetric; [reflexivity | | lia | lia].
  intros E. specialize (Hsq E). lia.
Qed.

Lemma create_kernel_reflection_witness :
  exists k,
    create_kernel (5%Z, 5%Z) "bishop" = Return k /\
    flip k = k.
Proof.
  apply (create_kernel_reflection 5 5 "bishop" valid_5x5).
  right. right. right. right. now split.
Defined.

(** X17. On a window of 3 columns the annulus is the circle: the inner
    radius is 0 and nothing is cut out.  From 5 columns on the annulus
    leaves the centre cell out, which the circle keeps. *)
Theorem create_kernel_annulus (kx ky : Z) :
  valid_window (kx, ky) ->
  exists circle annulus,
    create_kernel (kx, ky) "circle" = Return circle /\
    create_kernel (kx, ky) "annulus" = Return annulus /\
    (kx = 3%Z -> annulus = circle) /\
    (5 <= kx ->
     cell circle (Z.to_nat (ky / 2)) (Z.to_nat (kx / 2)) = Some 1%Z /\
     cell annulus (Z.to_nat (ky / 2)) (Z.to_nat (kx / 2)) = Some 0%Z)%Z.
Proof.
  intros Hv. destruct (valid_window_halves kx ky Hv) as (Ex & Ey & Hcx & _).
  do 2 eexists.
  split; [apply create_kernel_valid; [exact Hv | discriminate] |].
  split; [apply create_kernel_valid; [exact Hv | discriminate] |].
  set (cx := Z.to_nat (kx / 2)) in *. set (cy := Z.to_nat (ky / 2)) in *.
  change (chi_of "circle" cy cx) with (chi_circle cy cx).
  change (chi_of "annulus" cy cx) with (chi_annulus cy cx).
  split.
  - intros E3. unfold kernel_of. apply tabulate_ext. intros a b _ _.
    unfold chi_annulus.
    assert (E : cx = 1%nat) by lia. rewrite E.
    replace (sqnorm cy 1 a b <? (Z.of_nat 1 - 1) * (Z.of_nat 1 - 1))%Z
      with false; [now rewrite andb_true_r |].
    symmetry. apply Z.ltb_ge. unfold sqnorm. cbv zeta.
    change ((Z.of_nat 1 - 1) * (Z.of_nat 1 - 1))%Z with 0%Z.
    apply Z.add_nonneg_nonneg; apply Z.square_nonneg.
  - intros H5. unfold kernel_of. rewrite !cell_tabulate by lia.
    assert (E0 : sqnorm cy cx cy cx = 0%Z)
      by (unfold sqnorm; cbv zeta; rewrite !Z.sub_diag; reflexivity).
    unfold chi_annulus, chi_circle. rewrite E0.
    replace (0 <=? Z.of_nat cx * Z.of_nat cx)%Z with true
      by (symmetry; apply Z.leb_le; nia).
    assert (Hc2 : (1 <= Z.of_nat cx - 1)%Z) by lia.
    replace (0 <? (Z.of_nat cx - 1) * (Z.of_nat cx - 1))%Z with true
      by (symmetry; apply Z.ltb_lt; nia).
    split; reflexivity.
Qed.

Lemma create_kernel_annulus_witness :
  exists circle annulus,
    create_kernel (3%Z, 3%Z) "circle" = Return circle /\
    create_kernel (3%Z, 3%Z) "annulus" = Return annulus /\
    (3%Z = 3%Z -> annulus = circle) /\
    (5 <= 3 ->
     cell circle (Z.to_nat (3 / 2)) (Z.to_nat (3 / 2)) = Some 1%Z /\
     cell annulus (Z.to_nat (3 / 2)) (Z.to_nat (3 / 2)) = Some 0%Z)%Z.
Proof. exact (create_kernel_annulus 3 3 valid_3x3). Defined.

End WindowProps.

(** ** Further properties of the terrain indices *)

Module TerrainProps.
Import Num NumFacts Kernel KernelFacts Terrain TerrainFacts SumFacts ConvFacts
       ShapeFacts TPIFacts.
Local Open Scope string_scope.
Local Open Scope R_scope.

(** The rasters behind the five entries of a result. *)
Lemma terrain_indices_inv (filled_dem : grid xreal) (w : Z * Z)
  (unit method : string) (res : TerrainIndexSet) :
  terrain_indices filled_dem w unit method = Return res ->
  exists kernel dz_dx dz_dy,
    create_kernel w method = Return kernel /\
    np_gradient (focal_mean filled_dem kernel) = Return (dz_dx, dz_dy) /\
    let smoothed_dem := focal_mean filled_dem kernel in
    let slope_k := gmap xarctan (gmap2 xhypot dz_dx dz_dy) in
    let aspect_k :=
      gmap (fun a => if xltb a (Fin 0) then xadd a (Fin (2 * PI)) else a)
           (gmap (fun a => xsub (Fin (- PI / 2)) a)
                 (gmap2 xarctan2 dz_dy dz_dx)) in
    let aspect_k :=
      if String.eqb unit "degrees" then gmap xdegrees aspect_k else aspect_k in
    let dz2_dx2 := gmap2 xsub (focal_mean dz_dx kernel) dz_dx in
    let dz2_dy2 := gmap2 xsub (focal_mean dz_dy kernel) dz_dy in
    let dz2_dxdy :=
      gmap2 xsub (focal_mean dz_dx kernel) (focal_mean dz_dy kernel) in
    let cos_a := gmap xcos aspect_k in
    let sin_a := gmap xsin aspect_k in
    let cross :=
      gmap2 xmul (gmap2 xmul (gmap (xmul (Fin 2)) dz2_dxdy) sin_a) cos_a in
    Slope res =
      (if String.eqb unit "degrees" then gmap xdegrees slope_k else slope_k) /\
    Curvature res = gmap2 xadd dz2_dx2 dz2_dy2 /\
    Profile_curvature res =
      gmap2 xadd (gmap2 xadd (gmap2 xmul dz2_dy2 (gmap sq cos_a))
                             (gmap2 xmul dz2_dx2 (gmap sq sin_a)))
                 cross /\
    Planform_curvature res =
      gmap2 xsub (gmap2 xadd (gmap2 xmul dz2_dy2 (gmap sq sin_a))
                             (gmap2 xmul dz2_dx2 (gmap sq cos_a)))
                 cross /\
    TPI res = gmap2 xsub smoothed_dem (focal_mean smoothed_dem kernel).
Proof.
  unfold terrain_indices.
  destruct (Z.min (fst w) (snd w) <? 3)%Z; [discriminate |].
  destruct ((fst w mod 2 =? 0) || (snd w mod 2 =? 0))%Z; [discriminate |].
  destruct (create_kernel w method) as [kernel | e]; [| discriminate].
  cbn [bind].
  destruct (np_gradient (focal_mean filled_dem kernel))
    as [[dz_dx dz_dy] | e] eqn:Eg; [| discriminate].
  cbn [bind]. intros E. injection E as <-.
  exists kernel, dz_dx, dz_dy. cbn [Slope Curvature Profile_curvature
                                     Planform_curvature TPI].
  repeat split; try reflexivity. exact Eg.
Qed.

(** On a window that passes the check and a raster of two rows and two
    columns at least, the indices are computed. *)
Lemma terrain_indices_return (filled_dem : grid xreal) (w : Z * Z)
  (unit method : string) (kernel : grid Z) :
  valid_window w ->
  create_kernel w method = Return kernel ->
  (2 <= height filled_dem)%nat -> (2 <= width filled_dem)%nat ->
  exists res, terrain_indices filled_dem w unit method = Return res.
Proof.
  intros Hv Hk Hh Hw.
  destruct (terrain_indices_tpi filled_dem w unit method kernel Hv Hk Hh Hw)
    as (res & E & _).
  now exists res.
Qed.

(** *** Shapes *)

Lemma height_gmap {A B : Type} (f : A -> B) (g : grid A) :
  height (gmap f g) = height g.
Proof. apply length_map. Qed.

Lemma width_gmap {A B : Type} (f : A -> B) (g : grid A) :
  width (gmap f g) = width g.
Proof. destruct g as [| row g]; [reflexivity | apply length_map]. Qed.

Lemma length_zip_with {A B C : Type} (f : A -> B -> C) (l : list A)
  (m : list B) :
  List.length (zip_with f l m) = Nat.min (List.length l) (List.length m).
Proof.
  revert m. induction l as [| x l IH]; intros [| y m]; simpl; auto.
Qed.

Lemma height_gmap2 {A B C : Type} (f : A -> B -> C) (g : grid A) (h : grid B) :
  height (gmap2 f g h) = Nat.min (height g) (height h).
Proof. apply length_zip_with. Qed.

Lemma width_gmap2 {A B C : Type} (f : A -> B -> C) (g : grid A) (h : grid B) :
  width (gmap2 f g h) = Nat.min (width g) (width h).
Proof.
  destruct g as [| r g], h as [| r' h]; simpl; try reflexivity.
  - now rewrite Nat.min_0_r.
  - apply length_zip_with.
Qed.

Lemma np_gradient_shape (f dz_dx dz_dy : grid xreal) :
  np_gradient f = Return (dz_dx, dz_dy) ->
  (height dz_dx = height f /\ width dz_dx = width f) /\
  (height dz_dy = height f /\ width dz_dy = width f) /\
  (2 <= height f)%nat /\ (2 <= width f)%nat.
Proof.
  unfold np_gradient.
  destruct (height f <? 2)%nat eqn:Eh; [discriminate |].
  destruct (width f <? 2)%nat eqn:Ew; [discriminate |].
  cbn [orb]. intros E. injection E as <- <-.
  rewrite !height_gmapi, !width_gmapi.
  apply Nat.ltb_ge in Eh, Ew. auto.
Qed.

Ltac shape :=
  repeat first
    [ rewrite height_gmap | rewrite width_gmap
    | rewrite height_gmap2 | rewrite width_gmap2
    | rewrite height_focal_mean | rewrite width_focal_mean ].

Lemma indices_shape (filled_dem : grid xreal) (w : Z * Z)
  (unit method : string) (res : TerrainIndexSet) :
  terrain_indices filled_dem w unit method = Return res ->
  Forall (fun index => height index = height filled_dem /\
                       width index = width filled_dem)
         [Slope res; Curvature res; Profile_curvature res;
          Planform_curvature res; TPI res].
Proof.
  intros H. apply terrain_indices_inv in H.
  destruct H as (kernel & dz_dx & dz_dy & _ & Hg & H). cbv zeta in H.
  destruct H as (-> & -> & -> & -> & ->).
  apply np_gradient_shape in Hg.
  rewrite height_focal_mean, width_focal_mean in Hg.
  destruct Hg as ((Hx1 & Hx2) & (Hy1 & Hy2) & _).
  repeat constructor;
    destruct (String.eqb unit "degrees"); shape;
    rewrite ?Hx1, ?Hx2, ?Hy1, ?Hy2; lia.
Qed.

(** X18. Each of the five rasters that [terrain_indices] returns has the
    shape of the elevation raster: as many rows and as many columns. *)
Theorem terrain_indices_shape (filled_dem : grid xreal) (w : Z * Z)
  (unit method : string) (res : TerrainIndexSet) :
  terrain_indices filled_dem w unit method = Return res ->
  Forall (fun index => height index = height filled_dem /\
                       width index = width filled_dem)
         [Slope res; Curvature res; Profile_curvature res;
          Planform_curvature res; TPI res].
Proof. apply indices_shape. Qed.

Lemma terrain_indices_shape_witness :
  exists res,
    terrain_indices (plane 5 5 1 2 3) (3%Z, 3%Z) "degrees" "queen"
    = Return res /\
    Forall (fun index => height index = height (plane 5 5 1 2 3) /\
                         width index = width (plane 5 5 1 2 3))
           [Slope res; Curvature res; Profile_curvature res;
            Planform_curvature res; TPI res].
Proof.
  assert (Hv : valid_window (3%Z, 3%Z))
    by (unfold valid_window; cbn [fst snd Z.odd]; repeat split; lia).
  destruct (terrain_indices_return (plane 5 5 1 2 3) (3%Z, 3%Z) "degrees"
              "queen" _ Hv eq_refl) as (res & E).
  - rewrite height_plane. lia.
  - rewrite width_plane; lia.
  - exists res. split; [exact E |].
    exact (terrain_indices_shape _ _ _ _ res E).
Defined.

(** X19. A window that passes the check does not make the raster pass:
    on a raster of a single row or a single column the gradient of the
    smoothed raster cannot be taken and [terrain_indices] fails with the
    array library's [ValueError], whatever the method; on two rows and two
    columns at least the indices are returned. *)
Theorem terrain_indices_small_raster (filled_dem : grid xreal) (w : Z * Z)
  (unit method : string) :
  valid_window w ->
  (1 <= height filled_dem)%nat -> (1 <= width filled_dem)%nat ->
  ((height filled_dem < 2)%nat \/ (width filled_dem < 2)%nat ->
   terrain_indices filled_dem w unit method = Raise too_small) /\
  ((2 <= height filled_dem)%nat -> (2 <= width filled_dem)%nat ->
   exists res, terrain_indices filled_dem w unit method = Return res).
Proof.
  intros Hv _ _. pose proof Hv as (Hx & Hy & Ox & Oy).
  destruct (create_kernel_returns (fst w) (snd w) method) as [kernel Hk];
    try assumption.
  { rewrite Zmod_odd, Ox. discriminate. }
  { rewrite Zmod_odd, Oy. discriminate. }
  rewrite <- surjective_pairing in Hk.
  split.
  - intros Hsmall. unfold terrain_indices.
    replace (Z.min (fst w) (snd w) <? 3)%Z with false
      by (symmetry; apply Z.ltb_ge; lia).
    rewrite (Zmod_odd (fst w)), (Zmod_odd (snd w)), Ox, Oy.
    cbn [Z.eqb orb]. rewrite Hk. cbn [bind]. unfold np_gradient.
    rewrite height_focal_mean, width_focal_mean.
    replace ((height filled_dem <? 2)%nat || (width filled_dem <? 2)%nat)
      with true; [reflexivity |].
    symmetry. apply orb_true_iff.
    destruct Hsmall; [left | right]; now apply Nat.ltb_lt.
  - intros Hh Hw. now apply terrain_indices_return with kernel.
Qed.

Lemma terrain_indices_small_raster_witness :
  ((height [[Fin 1; Fin 2; Fin 3]] < 2)%nat \/
   (width [[Fin 1; Fin 2; Fin 3]] < 2)%nat ->
   terrain_indices [[Fin 1; Fin 2; Fin 3]] (3%Z, 3%Z) "degrees" "queen"
   = Raise too_small) /\
  ((2 <= height [[Fin 1; Fin 2; Fin 3]])%nat ->
   (2 <= width [[Fin 1; Fin 2; Fin 3]])%nat ->
   exists res,
     terrain_indices [[Fin 1; Fin 2; Fin 3]] (3%Z, 3%Z) "degrees" "queen"
     = Return res).
Proof.
  apply (terrain_indices_small_raster [[Fin 1; Fin 2; Fin 3]] (3%Z, 3%Z)
           "degrees" "queen").
  - unfold valid_window; cbn [fst snd Z.odd]; repeat split; lia.
  - simpl. lia.
  - simpl. lia.
Defined.

(** *** The unit *)

(** X20. The unit reaches the slope and, through the aspect, the profile
    and planform curvatures only: the TPI and the curvature are the same
    under every unit.  A unit other than ["degrees"] is not turned down; it
    leaves the slope in radians, and the slope in degrees is that slope
    converted. *)
Theorem terrain_indices_unit (filled_dem : grid xreal) (w : Z * Z)
  (unit method : string) (res : TerrainIndexSet) :
  terrain_indices filled_dem w unit method = Return res ->
  unit <> "degrees" ->
  exists res_degrees,
    terrain_indices filled_dem w "degrees" method = Return res_degrees /\
    TPI res_degrees = TPI res /\
    Curvature res_degrees = Curvature res /\
    Slope res_degrees = gmap xdegrees (Slope res).
Proof.
  unfold terrain_indices. intros H Hu.
  destruct (Z.min (fst w) (snd w) <? 3)%Z; [discriminate |].
  destruct ((fst w mod 2 =? 0) || (snd w mod 2 =? 0))%Z; [discriminate |].
  destruct (create_kernel w method) as [kernel | e]; [| discriminate].
  cbn [bind] in *.
  destruct (np_gradient (focal_mean filled_dem kernel))
    as [[dz_dx dz_dy] | e]; [| discriminate].
  cbn [bind] in *. injection H as <-.
  destruct (String.eqb_spec unit "degrees") as [E | _]; [contradiction |].
  eexists. split; [reflexivity |].
  cbn [TPI Curvature Slope String.eqb Ascii.eqb Bool.eqb].
  repeat split; reflexivity.
Qed.

Lemma terrain_indices_unit_witness :
  exists res res_degrees,
    terrain_indices (plane 5 5 1 2 3) (3%Z, 3%Z) "radians" "queen"
    = Return res /\
    terrain_indices (plane 5 5 1 2 3) (3%Z, 3%Z) "degrees" "queen"
    = Return res_degrees /\
    TPI res_degrees = TPI res /\
    Curvature res_degrees = Curvature res /\
    Slope res_degrees = gmap xdegrees (Slope res).
Proof.
  assert (Hv : valid_window (3%Z, 3%Z))
    by (unfold valid_window; cbn [fst snd Z.odd]; repeat split; lia).
  destruct (terrain_indices_return (plane 5 5 1 2 3) (3%Z, 3%Z) "radians"
              "queen" _ Hv eq_refl) as (res & E).
  - rewrite height_plane. lia.
  - rewrite width_plane; lia.
  - exists res.
    destruct (terrain_indices_unit _ _ _ _ res E) as (res' & H);
      [discriminate |].
    exists res'. split; [exact E | exact H].
Defined.

(** *** The slope *)

Lemma xhypot_range (x y : xreal) :
  xhypot x y = NaN \/ xhypot x y = PInf \/
  exists r, xhypot x y = Fin r /\ 0 <= r.
Proof.
  destruct x as [a | | |], y as [b | | |]; cbn [xhypot]; auto.
  right. right. eexists. split; [reflexivity | apply sqrt_pos].
Qed.

Lemma atan_nonneg (r : R) : 0 <= r -> 0 <= atan r.
Proof.
  intros [H | <-]; [| rewrite atan_0; lra].
  left. rewrite <- atan_0. now apply atan_increasing.
Qed.

Lemma xarctan_hypot_range (x y : xreal) :
  xarctan (xhypot x y) = NaN \/
  exists v, xarctan (xhypot x y) = Fin v /\ 0 <= v <= PI / 2.
Proof.
  destruct (xhypot_range x y) as [-> | [-> | (r & -> & Hr)]]; cbn [xarctan].
  - now left.
  - right. eexists. split; [reflexivity |]. pose proof PI2_RGT_0. lra.
  - right. eexists. split; [reflexivity |].
    pose proof (atan_bound r). pose proof (atan_nonneg r Hr). lra.
Qed.

(** X21. A slope is never negative and never beyond a right angle: every
    cell of the slope raster is not-a-number or a number of [0, 90] in
    degrees, of [0, pi/2] under any other unit. *)
Theorem terrain_indices_slope_range (filled_dem : grid xreal) (w : Z * Z)
  (unit method : string) (res : TerrainIndexSet) (i j : nat) (s : xreal) :
  terrain_indices filled_dem w unit method = Return res ->
  cell (Slope res) i j = Some s ->
  s = NaN \/
  exists v, s = Fin v /\
            0 <= v <= (if String.eqb unit "degrees" then 90 else PI / 2).
Proof.
  intros H Hs. apply terrain_indices_inv in H.
  destruct H as (kernel & dz_dx & dz_dy & _ & _ & H). cbv zeta in H.
  destruct H as (E & _). rewrite E in Hs. clear E.
  assert (Hrad : forall s',
             cell (gmap xarctan (gmap2 xhypot dz_dx dz_dy)) i j = Some s' ->
             s' = NaN \/ exists v, s' = Fin v /\ 0 <= v <= PI / 2).
  { intros s'. rewrite cell_gmap, cell_gmap2.
    destruct (cell dz_dx i j) as [x |], (cell dz_dy i j) as [y |];
      try discriminate.
    cbn [option_map]. intros E. injection E as <-.
    apply xarctan_hypot_range. }
  destruct (String.eqb unit "degrees"); [| now apply Hrad].
  rewrite cell_gmap in Hs.
  destruct (cell (gmap xarctan (gmap2 xhypot dz_dx dz_dy)) i j) as [s' |];
    [| discriminate].
  cbn [option_map] in Hs. injection Hs as <-.
  destruct (Hrad s' eq_refl) as [-> | (v & -> & Hv)]; [now left |].
  right. unfold xdegrees. cbn [xmul]. eexists. split; [reflexivity |].
  pose proof PI_RGT_0 as Hpi.
  assert (H180 : 0 < 180 / PI) by (apply Rdiv_lt_0_compat; lra).
  split; [apply Rmult_le_pos; lra |].
  replace 90 with (PI / 2 * (180 / PI)) by (field; lra).
  apply Rmult_le_compat_r; lra.
Qed.

Lemma terrain_indices_slope_range_witness :
  exists res,
    terrain_indices (plane 5 5 1 2 3) (3%Z, 3%Z) "degrees" "queen"
    = Return res /\
    forall s, cell (Slope res) 2 2 = Some s ->
      s = NaN \/
      exists v, s = Fin v /\
                0 <= v <= (if String.eqb "degrees" "degrees" then 90
                           else PI / 2).
Proof.
  assert (Hv : valid_window (3%Z, 3%Z))
    by (unfold valid_window; cbn [fst snd Z.odd]; repeat split; lia).
  destruct (terrain_indices_return (plane 5 5 1 2 3) (3%Z, 3%Z) "degrees"
              "queen" _ Hv eq_refl) as (res & E).
  - rewrite height_plane. lia.
  - rewrite width_plane; lia.
  - exists res. split; [exact E |]. intros s.
    exact (terrain_indices_slope_range _ _ _ _ res 2 2 s E).
Defined.

(** *** The curvatures *)






Lemma xsin_fin (x : xreal) (c : R) :
  xsin x = Fin c -> exists a, x = Fin a /\ c = sin a.
Proof.
  destruct x as [a | | |]; cbn [xsin]; try discriminate.
  intros E. injection E as <-. now exists a.
Qed.



End TerrainProps.

(** *** Planes *)

Module PlaneProps.
Import Num NumFacts Kernel KernelFacts Terrain TerrainFacts SumFacts ConvFacts
       ShapeFacts TPIFacts WindowProps TerrainProps.
Local Open Scope string_scope.
Local Open Scope R_scope.

(** *** The gradient *)



(** *** Weights that the filter keeps *)

Lemma significant_weight (n : R) (m : Z) :
  0 < n -> n <= IZR m -> (m < 2 ^ 52)%Z -> significant (Fin (1 / n)) = true.
Proof.
  intros Hn Hm Hlt. unfold significant. rewrite Rcmp_Gt; [reflexivity |].
  assert (Hpos : 0 < 1 / n) by (apply Rdiv_lt_0_compat; lra).
  rewrite Rabs_pos_eq by lra. unfold DBL_EPSILON.
  assert (Hm' : IZR m < 2 ^ 52).
  { change 2 with (IZR 2). rewrite pow_IZR. now apply IZR_lt. }
  unfold Rdiv. rewrite Rmult_1_l.
  apply Rinv_lt_contravar; [| lra].
  apply Rmult_lt_0_compat; [lra | apply pow_lt; lra].
Qed.



Section Plane.

Variables cy cx : nat.
Variable chi : nat -> nat -> bool.

Let ny := (2 * cy + 1)%nat.
Let nx := (2 * cx + 1)%nat.
Let N := sum2 ny nx (ind chi).

Hypothesis kernel_not_empty : 0 < N.
Hypothesis weights_kept : significant (Fin (1 / N)) = true.

Variables H W : nat.
Variables p q r : R.

Let dem := plane H W p q r.
Let kernel := kernel_of ny nx chi.
Let smoothed_dem := focal_mean dem kernel.
Let d := drift cy cx chi p q.

Variables dz_dx dz_dy : grid xreal.
Hypothesis gradient : np_gradient smoothed_dem = Return (dz_dx, dz_dy).










End Plane.

Lemma valid_window_weights (kx ky : Z) (method : string) :
  valid_window (kx, ky) ->
  symmetric_method (kx, ky) method ->
  (kx * ky < 2 ^ 52)%Z ->
  let cy := Z.to_nat (ky / 2) in
  let cx := Z.to_nat (kx / 2) in
  let N := sum2 (2 * cy + 1) (2 * cx + 1) (ind (chi_of method cy cx)) in
  0 < N /\ significant (Fin (1 / N)) = true.
Proof.
  intros Hv Hm Hlt cy cx N.
  destruct (valid_window_halves kx ky Hv) as (Ex & Ey & Hcx & _).
  fold cx in Ex, Hcx. fold cy in Ey.
  assert (Hpos : 0 < N).
  { apply chi_of_not_empty; [exact Hcx |]. now rewrite <- Ex, <- Ey. }
  split; [exact Hpos |].
  apply significant_weight with (kx * ky)%Z; [exact Hpos | | exact Hlt].
  unfold N. rewrite Ex at 1. rewrite Ey at 1.
  rewrite mult_IZR, <- !INR_IZR_INZ, Rmult_comm. apply sum2_ind_le.
Qed.








End PlaneProps.

(** *** The border of the raster *)

Module BorderProps.
Import Num NumFacts Kernel KernelFacts Terrain TerrainFacts SumFacts ConvFacts
       ShapeFacts TPIFacts WindowProps TerrainProps PlaneProps.
Local Open Scope string_scope.
Local Open Scope R_scope.

Lemma shaped_focal_mean (H W : nat) (arr : grid xreal) (kernel : grid Z) :
  shaped H W arr -> shaped H W (focal_mean arr kernel).
Proof.
  intros Hs i j. rewrite <- (Hs i j). unfold focal_mean, convolve.
  rewrite correlate_cell. destruct (cell arr i j) as [x |]; cbn [option_map].
  - split; intros _; eexists; reflexivity.
  - split; intros [x E]; discriminate E.
Qed.

Lemma shaped_height (H W : nat) (arr : grid xreal) :
  shaped H W arr -> (1 <= W)%nat -> (H <= height arr)%nat.
Proof.
  intros Hs HW. destruct H as [| H]; [lia |].
  destruct (proj2 (Hs H 0%nat)) as [x Hx]; [lia |].
  unfold cell in Hx. destruct (nth_error arr H) as [row |] eqn:E;
    [| discriminate Hx].
  assert (H < List.length arr)%nat by (apply nth_error_Some; congruence).
  unfold height. lia.
Qed.

Lemma shaped_width (H W : nat) (arr : grid xreal) :
  shaped H W arr -> (1 <= H)%nat -> (W <= width arr)%nat.
Proof.
  intros Hs HH. destruct W as [| W]; [lia |].
  destruct (proj2 (Hs 0%nat W)) as [x Hx]; [lia |].
  unfold cell in Hx. destruct arr as [| row arr]; [discriminate Hx |].
  cbn [nth_error width] in *.
  assert (W < List.length row)%nat by (apply nth_error_Some; congruence).
  lia.
Qed.

(** Beyond the raster the filter reads the fill value. *)
Lemma fetch_beyond (H W : nat) (arr : grid xreal) (i j : Z) :
  shaped H W arr ->
  (i < 0 \/ Z.of_nat H <= i \/ j < 0 \/ Z.of_nat W <= j)%Z ->
  fetch arr NaN i j = NaN.
Proof.
  intros Hs Hout. unfold fetch.
  destruct ((i <? 0) || (j <? 0))%Z eqn:E; [reflexivity |].
  apply orb_false_iff in E. rewrite !Z.ltb_ge in E.
  destruct (cell arr (Z.to_nat i) (Z.to_nat j)) as [x |] eqn:Ex;
    [| reflexivity].
  destruct (proj1 (Hs _ _) (ex_intro _ x Ex)). lia.
Qed.

Section Border.

Variables cy cx : nat.
Variable chi : nat -> nat -> bool.

Let ny := (2 * cy + 1)%nat.
Let nx := (2 * cx + 1)%nat.
Let N := sum2 ny nx (ind chi).
Let kernel := kernel_of ny nx chi.

Hypothesis kernel_not_empty : 0 < N.
Hypothesis weights_kept : significant (Fin (1 / N)) = true.

(** The kernel, as the correlation reads it, has a cell on each side of the
    window. *)
Hypothesis top : exists b, (b < nx)%nat /\ reflected ny nx chi 0 b = true.
Hypothesis bottom :
  exists b, (b < nx)%nat /\ reflected ny nx chi (2 * cy) b = true.
Hypothesis left : exists a, (a < ny)%nat /\ reflected ny nx chi a 0 = true.
Hypothesis right :
  exists a, (a < ny)%nat /\ reflected ny nx chi a (2 * cx) = true.

Variables H W : nat.

(** The focal mean is not-a-number wherever one side of the window reads
    not-a-number along its whole length. *)
Lemma focal_mean_nan_side (arr : grid xreal) (i j : nat) (x : xreal) :
  cell arr i j = Some x ->
  (forall b, fetch arr NaN (Z.of_nat i - Z.of_nat cy)
                   (Z.of_nat j + Z.of_nat b - Z.of_nat cx) = NaN) \/
  (forall b, fetch arr NaN (Z.of_nat i + Z.of_nat cy)
                   (Z.of_nat j + Z.of_nat b - Z.of_nat cx) = NaN) \/
  (forall a, fetch arr NaN (Z.of_nat i + Z.of_nat a - Z.of_nat cy)
                   (Z.of_nat j - Z.of_nat cx) = NaN) \/
  (forall a, fetch arr NaN (Z.of_nat i + Z.of_nat a - Z.of_nat cy)
                   (Z.of_nat j + Z.of_nat cx) = NaN) ->
  cell (focal_mean arr kernel) i j = Some NaN.
Proof.
  intros Hx Hside.
  destruct Hside as [Hf | [Hf | [Hf | Hf]]].
  - destruct top as (b & Hb & Hc).
    apply (focal_mean_nan_cell cy cx chi kernel_not_empty arr i j 0 b x
             weights_kept Hx); [unfold ny; lia | exact Hb | exact Hc |].
    replace (Z.of_nat i + Z.of_nat 0 - Z.of_nat cy)%Z
      with (Z.of_nat i - Z.of_nat cy)%Z by lia.
    apply Hf.
  - destruct bottom as (b & Hb & Hc).
    apply (focal_mean_nan_cell cy cx chi kernel_not_empty arr i j (2 * cy) b x
             weights_kept Hx); [unfold ny; lia | exact Hb | exact Hc |].
    replace (Z.of_nat i + Z.of_nat (2 * cy) - Z.of_nat cy)%Z
      with (Z.of_nat i + Z.of_nat cy)%Z by lia.
    apply Hf.
  - destruct left as (a & Ha & Hc).
    apply (focal_mean_nan_cell cy cx chi kernel_not_empty arr i j a 0 x
             weights_kept Hx); [exact Ha | unfold nx; lia | exact Hc |].
    replace (Z.of_nat j + Z.of_nat 0 - Z.of_nat cx)%Z
      with (Z.of_nat j - Z.of_nat cx)%Z by lia.
    apply Hf.
  - destruct right as (a & Ha & Hc).
    apply (focal_mean_nan_cell cy cx chi kernel_not_empty arr i j a (2 * cx) x
             weights_kept Hx); [exact Ha | unfold nx; lia | exact Hc |].
    replace (Z.of_nat j + Z.of_nat (2 * cx) - Z.of_nat cx)%Z
      with (Z.of_nat j + Z.of_nat cx)%Z by lia.
    apply Hf.
Qed.

Variable dem : grid xreal.
Hypothesis dem_shape : shaped H W dem.

Let smoothed_dem := focal_mean dem kernel.

(** The smoothed raster is not-a-number within half a window of the
    border. *)
Lemma smoothed_nan (i j : nat) (x : xreal) :
  cell smoothed_dem i j = Some x ->
  (i < cy \/ H <= i + cy \/ j < cx \/ W <= j + cx)%nat ->
  x = NaN.
Proof.
  intros Hx Hband.
  assert (Hd : exists y, cell dem i j = Some y).
  { apply dem_shape. apply (shaped_focal_mean H W dem kernel dem_shape).
    now exists x. }
  destruct Hd as (y & Hy).
  assert (E : cell smoothed_dem i j = Some NaN).
  { apply (focal_mean_nan_side dem i j y Hy).
    destruct Hband as [Hb | [Hb | [Hb | Hb]]];
      [left | right; left | right; right; left | right; right; right];
      intros k; apply (fetch_beyond H W dem _ _ dem_shape); lia. }
  congruence.
Qed.

(** So the filter reads not-a-number in the smoothed raster from that band
    on outwards. *)
Lemma fetch_smoothed_nan (i j : Z) :
  (i < Z.of_nat cy \/ Z.of_nat H <= i + Z.of_nat cy \/
   j < Z.of_nat cx \/ Z.of_nat W <= j + Z.of_nat cx)%Z ->
  fetch smoothed_dem NaN i j = NaN.
Proof.
  intros Hband. unfold fetch.
  destruct ((i <? 0) || (j <? 0))%Z eqn:E; [reflexivity |].
  apply orb_false_iff in E. rewrite !Z.ltb_ge in E.
  destruct (cell smoothed_dem (Z.to_nat i) (Z.to_nat j)) as [x |] eqn:Ex;
    [| reflexivity].
  apply (smoothed_nan _ _ x Ex). lia.
Qed.

(** The TPI is not-a-number within a whole window of the border. *)
Lemma tpi_nan (i j : nat) :
  (i < H)%nat -> (j < W)%nat ->
  (i < 2 * cy \/ H <= i + 2 * cy \/ j < 2 * cx \/ W <= j + 2 * cx)%nat ->
  cell (gmap2 xsub smoothed_dem (focal_mean smoothed_dem kernel)) i j
  = Some NaN.
Proof.
  intros Hi Hj Hband.
  assert (Hs : shaped H W smoothed_dem)
    by apply (shaped_focal_mean H W dem kernel dem_shape).
  destruct (proj2 (Hs i j) (conj Hi Hj)) as (s & Es).
  assert (Ef : cell (focal_mean smoothed_dem kernel) i j = Some NaN).
  { apply (focal_mean_nan_side smoothed_dem i j s Es).
    destruct Hband as [Hb | [Hb | [Hb | Hb]]];
      [left | right; left | right; right; left | right; right; right];
      intros k; apply fetch_smoothed_nan; lia. }
  rewrite cell_gmap2, Es, Ef. unfold xsub. cbn [xopp].
  now rewrite xadd_nan_r.
Qed.

End Border.

(** The five kernels of a square window have a cell on each side of it. *)
Lemma chi_of_sides (c : nat) (method : string) :
  symmetric_method (Z.of_nat (2 * c + 1), Z.of_nat (2 * c + 1)) method ->
  (1 <= c)%nat ->
  let n := (2 * c + 1)%nat in
  let taps := reflected n n (chi_of method c c) in
  (exists b, (b < n)%nat /\ taps 0%nat b = true) /\
  (exists b, (b < n)%nat /\ taps (2 * c)%nat b = true) /\
  (exists a, (a < n)%nat /\ taps a 0%nat = true) /\
  (exists a, (a < n)%nat /\ taps a (2 * c)%nat = true).
Proof.
  intros Hm Hc n taps.
  assert (Hsym : forall a b, (a < n)%nat -> (b < n)%nat ->
                             taps a b = chi_of method c c a b).
  { intros a b Ha Hb. unfold taps, reflected.
    apply chi_of_symmetric; [reflexivity | exact Ha | exact Hb]. }
  assert (Hchi : chi_of method c c 0 c = true /\
                 chi_of method c c (2 * c) c = true /\
                 chi_of method c c c 0 = true /\
                 chi_of method c c c (2 * c) = true \/
                 chi_of method c c 0 0 = true /\
                 chi_of method c c (2 * c) (2 * c) = true).
  { destruct Hm as [-> | [-> | [-> | [-> | [-> _]]]]]; unfold chi_of;
      cbn [String.eqb Ascii.eqb Bool.eqb andb].
    - left. repeat split.
    - left. unfold chi_rook. rewrite Nat.eqb_refl.
      repeat split; apply orb_true_r.
    - left. unfold chi_circle, sqnorm. cbv zeta.
      repeat split; apply Z.leb_le; nia.
    - left. unfold chi_annulus, chi_circle, sqnorm. cbv zeta.
      repeat split; apply andb_true_iff; split;
        try (apply Z.leb_le; nia); apply negb_true_iff, Z.ltb_ge; nia.
    - right. unfold chi_bishop. now rewrite !Nat.eqb_refl. }
  unfold n in *.
  destruct Hchi as [(H1 & H2 & H3 & H4) | (H1 & H2)].
  - repeat split; exists c; (split; [lia |]); rewrite Hsym by lia; assumption.
  - repeat split; [exists 0%nat | exists (2 * c)%nat | exists 0%nat
                   | exists (2 * c)%nat];
      (split; [lia |]); rewrite Hsym by lia; assumption.
Qed.

(** X25. The focal mean fills the cells beyond the raster with
    not-a-number, and the TPI takes two focal means: on a square window
    [(k, k)] that passes the check, of fewer than 2^52 cells, and whatever
    the elevations are, the TPI is not-a-number at every cell nearer than
    [2 * (k // 2)] cells to a border of the raster.  On a raster of at most
    [4 * (k // 2)] rows or columns no cell is left. *)
Theorem tpi_nan_near_border (H W : nat) (filled_dem : grid xreal) (k : Z)
  (unit method : string) :
  valid_window (k, k) ->
  symmetric_method (k, k) method ->
  (k * k < 2 ^ 52)%Z ->
  shaped H W filled_dem ->
  (2 <= H)%nat -> (2 <= W)%nat ->
  exists res,
    terrain_indices filled_dem (k, k) unit method = Return res /\
    forall i j,
      (i < H)%nat -> (j < W)%nat ->
      (i < 2 * Z.to_nat (k / 2) \/ H <= i + 2 * Z.to_nat (k / 2) \/
       j < 2 * Z.to_nat (k / 2) \/ W <= j + 2 * Z.to_nat (k / 2))%nat ->
      cell (TPI res) i j = Some NaN.
Proof.
  intros Hv Hm Hlt Hs HH HW.
  destruct (valid_window_weights k k method Hv Hm Hlt) as (Hpos & Hsig).
  destruct (valid_window_halves k k Hv) as (Ek & _ & Hc & _).
  set (c := Z.to_nat (k / 2)) in *.
  pose proof (create_kernel_valid k k method Hv
                (symmetric_square k k method Hm)) as Hk.
  fold c in Hk.
  destruct (terrain_indices_tpi filled_dem (k, k) unit method _ Hv Hk)
    as (res & E & Etpi).
  { pose proof (shaped_height H W filled_dem Hs). lia. }
  { pose proof (shaped_width H W filled_dem Hs). lia. }
  exists res. split; [exact E |]. intros i j Hi Hj Hband. rewrite Etpi.
  rewrite Ek in Hm.
  destruct (chi_of_sides c method Hm Hc) as (Ht & Hb & Hl & Hr).
  exact (tpi_nan c c (chi_of method c c) Hpos Hsig Ht Hb Hl Hr H W
           filled_dem Hs i j Hi Hj Hband).
Qed.

Lemma shaped_plane (H W : nat) (p q r : R) : shaped H W (plane H W p q r).
Proof.
  intros i j. split.
  - intros (x & Hx). unfold plane, tabulate, cell in Hx.
    rewrite nth_error_map in Hx.
    destruct (nth_error (seq 0 H) i) as [a |] eqn:Ea; [| discriminate Hx].
    cbn [option_map] in Hx. rewrite nth_error_map in Hx.
    destruct (nth_error (seq 0 W) j) as [b |] eqn:Eb; [| discriminate Hx].
    assert (Hi : (i < List.length (seq 0 H))%nat)
      by (apply nth_error_Some; congruence).
    assert (Hj : (j < List.length (seq 0 W))%nat)
      by (apply nth_error_Some; congruence).
    rewrite length_seq in Hi, Hj. now split.
  - intros [Hi Hj]. unfold plane. rewrite cell_tabulate by assumption.
    eexists. reflexivity.
Qed.

Lemma tpi_nan_near_border_witness :
  exists res,
    terrain_indices (plane 5 5 1 2 3) (3%Z, 3%Z) "degrees" "rook"
    = Return res /\
    cell (TPI res) 1 2 = Some NaN.
Proof.
  destruct (tpi_nan_near_border 5 5 (plane 5 5 1 2 3) 3 "degrees" "rook"
              valid_3x3) as (res & E & Hn); try lia.
  - right. now left.
  - apply shaped_plane.
  - exists res. split; [exact E |].
    apply Hn; [lia | lia |]. left. change (3 / 2)%Z with 1%Z. simpl. lia.
Defined.

End BorderProps.

(** *** The focal mean as a mean *)

Module MeanProps.
Import Num NumFacts Kernel KernelFacts Terrain TerrainFacts SumFacts ConvFacts
       ShapeFacts TPIFacts WindowProps TerrainProps PlaneProps BorderProps.
Local Open Scope string_scope.
Local Open Scope R_scope.

Section Mean.

Variables cy cx : nat.
Variable chi : nat -> nat -> bool.

Let ny := (2 * cy + 1)%nat.
Let nx := (2 * cx + 1)%nat.
Let N := sum2 ny nx (ind chi).
Let taps := reflected ny nx chi.
Let kernel := kernel_of ny nx chi.

Hypothesis kernel_not_empty : 0 < N.
Hypothesis weights_kept : significant (Fin (1 / N)) = true.


End Mean.



End MeanProps.

(** *** The datum of the elevations *)

Module ShiftProps.
Import Num NumFacts Kernel KernelFacts Terrain TerrainFacts SumFacts ConvFacts
       ShapeFacts TPIFacts WindowProps TerrainProps PlaneProps BorderProps.
Local Open Scope string_scope.
Local Open Scope R_scope.

(** *** Rasters with the same cells *)




Lemma at_default_ext (f1 f2 : grid xreal) (i j : nat) :
  (forall i j, cell f1 i j = cell f2 i j) ->
  at_default f1 i j = at_default f2 i j.
Proof. intros H. unfold at_default. now rewrite H. Qed.

(** *** A constant added to every elevation *)






Section Shift.

Variables cy cx : nat.
Variable chi : nat -> nat -> bool.

Let ny := (2 * cy + 1)%nat.
Let nx := (2 * cx + 1)%nat.
Let N := sum2 ny nx (ind chi).
Let kernel := kernel_of ny nx chi.

Hypothesis kernel_not_empty : 0 < N.
Hypothesis weights_kept : significant (Fin (1 / N)) = true.

Variable c : R.


End Shift.





End ShiftProps.

(** *** The sign of the TPI *)

Module SignProps.
Import Num NumFacts Kernel KernelFacts Terrain TerrainFacts SumFacts ConvFacts
       ShapeFacts TPIFacts WindowProps TerrainProps PlaneProps MeanProps.
Local Open Scope string_scope.
Local Open Scope R_scope.





End SignProps.
(** ** Labelled arrays *)

Module DataArrayProps.
Import Num Terrain DataArray TerrainProps.
Local Open Scope string_scope.



(** What [array_to_dataarray] returns for an array of the shape of the
    coordinates. *)
Lemma array_to_dataarray_ok (array : grid xreal) (filled_dem : DataArray)
  (metric : string) (y x : list R) (crs : attr) :
  get (coords filled_dem) "y" = Some y ->
  get (coords filled_dem) "x" = Some x ->
  get (attrs filled_dem) "crs" = Some crs ->
  height array = List.length y -> width array = List.length x ->
  array_to_dataarray array filled_dem metric =
  ok (mkDataArray (Some metric) array ["y"; "x"] [("y", y); ("x", x)]
        [("crs", crs);
         ("nodata", get_default (attrs filled_dem) "nodata" PyNone)]).
Proof.
  intros Hy Hx Hc Hh Hw.
  unfold array_to_dataarray, getitem, new_DataArray.
  rewrite Hy, Hx, Hc. cbn [and_then ok]. rewrite Hh, Hw, !Nat.eqb_refl.
  reflexivity.
Qed.

(** X29. The indices fit the raster they come from: for an elevation
    raster that carries a [crs] and coordinates as long as its sides, each
    of the five rasters of [terrain_indices] is accepted by
    [array_to_dataarray]; the labelled array holds the index unchanged under
    the name of the metric, with the coordinates and the [crs] of the
    elevation raster, and with [nodata] set to [None] when the raster has
    none. *)
Theorem terrain_indices_to_dataarray (filled_dem : DataArray) (w : Z * Z)
  (unit method metric : string) (res : TerrainIndexSet) (y x : list R)
  (crs : attr) (index : grid xreal) :
  terrain_indices (values filled_dem) w unit method = Return res ->
  In index [Slope res; Curvature res; Profile_curvature res;
            Planform_curvature res; TPI res] ->
  get (coords filled_dem) "y" = Some y ->
  get (coords filled_dem) "x" = Some x ->
  get (attrs filled_dem) "crs" = Some crs ->
  List.length y = height (values filled_dem) ->
  List.length x = width (values filled_dem) ->
  exists da,
    array_to_dataarray index filled_dem metric = ok da /\
    values da = index /\
    name da = Some metric /\
    get (coords da) "y" = Some y /\ get (coords da) "x" = Some x /\
    get (attrs da) "crs" = Some crs /\
    (get (attrs filled_dem) "nodata" = None ->
     get (attrs da) "nodata" = Some PyNone).
Proof.
  intros E Hin Hy Hx Hc Hly Hlx.
  pose proof (indices_shape _ _ _ _ res E) as Hshape.
  rewrite Forall_forall in Hshape. destruct (Hshape index Hin) as [Hh Hw].
  eexists. split.
  - apply array_to_dataarray_ok with (crs := crs) (y := y) (x := x);
      try assumption; congruence.
  - cbn [values name coords attrs get String.eqb Ascii.eqb Bool.eqb].
    repeat split. intros Hn. unfold get_default. now rewrite Hn.
Qed.

Lemma terrain_indices_to_dataarray_witness :
  exists res da,
    terrain_indices (plane 5 5 1 2 3) (3%Z, 3%Z) "degrees" "queen"
    = Return res /\
    array_to_dataarray (TPI res)
      (mkDataArray (Some "elevation") (plane 5 5 1 2 3) ["y"; "x"]
         [("y", [4; 3; 2; 1; 0]%R); ("x", [0; 1; 2; 3; 4]%R)]
         [("crs", PyStr "EPSG:6933")])
      "TPI" = ok da /\
    values da = TPI res /\
    name da = Some "TPI" /\
    get (coords da) "y" = Some [4; 3; 2; 1; 0]%R /\
    get (coords da) "x" = Some [0; 1; 2; 3; 4]%R /\
    get (attrs da) "crs" = Some (PyStr "EPSG:6933") /\
    (get [("crs", PyStr "EPSG:6933")] "nodata" = None ->
     get (attrs da) "nodata" = Some PyNone).
Proof.
  destruct (terrain_indices_return (plane 5 5 1 2 3) (3%Z, 3%Z) "degrees"
              "queen" _ WindowProps.valid_3x3 eq_refl) as (res & E).
  - rewrite TPIFacts.height_plane. lia.
  - rewrite TPIFacts.width_plane; lia.
  - exists res.
    destruct (terrain_indices_to_dataarray
                (mkDataArray (Some "elevation") (plane 5 5 1 2 3) ["y"; "x"]
                   [("y", [4; 3; 2; 1; 0]%R); ("x", [0; 1; 2; 3; 4]%R)]
                   [("crs", PyStr "EPSG:6933")])
                (3%Z, 3%Z) "degrees" "queen" "TPI" res
                [4; 3; 2; 1; 0]%R [0; 1; 2; 3; 4]%R (PyStr "EPSG:6933")
                (TPI res) E) as (da & H); try reflexivity.
    + right. right. right. right. now left.
    + exists da. cbn [attrs] in H. split; [exact E | exact H].
Defined.

End DataArrayProps.

